(** * Shavian pangram solver: a shallow embedding of [shavian_pangram.py]

    The development follows the Python source function by function.

    - A Python [str] is a sequence of Unicode code points: a [letter] is
      a code point ([N]) and a [word] a list of letters.
    - A [Counter] and a [dict] are association lists in insertion order
      (the order is observable: [Counter.most_common] breaks ties by it).
    - The search mutates [remaining], [current_words], [solutions] and the
      statistics counters in place; here they are threaded through the
      calls as a [SearchState].  Each [current_letters] list is a separate
      object, created by [_find_words_from_root], so it is threaded
      separately.
    - The recursion of [_search] is bounded by a fuel argument; running out
      of fuel is [None], and [solve_pangram] is proved never to run out.
    - Printing to stdout/stderr and wall-clock timing are not modelled. *)

From Stdlib Require Import List NArith ZArith Bool Lia Permutation Sorted.
Import ListNotations.

Set Implicit Arguments.

(** ** Strings *)

Definition letter := N.
Definition word := list letter.

Definition letter_eq_dec : forall a b : letter, {a = b} + {a <> b} := N.eq_dec.
Definition word_eq_dec : forall a b : word, {a = b} + {a <> b} :=
  list_eq_dec letter_eq_dec.

(** [x in xs] for a list or a set. *)
Definition mem {A} (eq_dec : forall a b : A, {a = b} + {a <> b})
  (x : A) (xs : list A) : bool :=
  if in_dec eq_dec x xs then true else false.

(** [str < str]: lexicographic comparison of code points. *)
Fixpoint str_leb (a b : word) : bool :=
  match a, b with
  | [], _ => true
  | _ :: _, [] => false
  | x :: a', y :: b' =>
      if (x <? y)%N then true
      else if (y <? x)%N then false
      else str_leb a' b'
  end.

(** ** [sorted]: a stable sort

    Python's [sorted] is stable, so its result is determined by the input
    and the order; insertion from the right computes that result. *)

Section StableSort.
Context {A : Type}.
Variable le : A -> A -> bool.

Fixpoint insert_sorted (x : A) (l : list A) : list A :=
  match l with
  | [] => [x]
  | y :: l' => if le x y then x :: l else y :: insert_sorted x l'
  end.

Definition sorted (l : list A) : list A := fold_right insert_sorted [] l.
End StableSort.

(** [sorted(l, key=f)] *)
Definition sorted_by_key {A} (f : A -> nat) (l : list A) : list A :=
  sorted (fun x y => f x <=? f y) l.

(** [sorted(l, key=f, reverse=True)]: descending, still stable. *)
Definition sorted_by_key_reverse {A} (f : A -> Z) (l : list A) : list A :=
  sorted (fun x y => (f y <=? f x)%Z) l.

(** ** [collections.Counter] and [dict] *)

Definition dict (K V : Type) := list (K * V).

Section Dict.
Context {K V : Type}.
Variable eq_dec : forall a b : K, {a = b} + {a <> b}.

Fixpoint dict_lookup (d : dict K V) (k : K) : option V :=
  match d with
  | [] => None
  | (k', v) :: d' => if eq_dec k k' then Some v else dict_lookup d' k
  end.

(** [d.get(k, default)] *)
Definition dict_get (d : dict K V) (k : K) (default : V) : V :=
  match dict_lookup d k with Some v => v | None => default end.

(** [d[k] = v]: in place when the key exists, appended otherwise. *)
Fixpoint dict_set (d : dict K V) (k : K) (v : V) : dict K V :=
  match d with
  | [] => [(k, v)]
  | (k', v') :: d' =>
      if eq_dec k k' then (k', v) :: d' else (k', v') :: dict_set d' k v
  end.

Definition dict_keys (d : dict K V) : list K := map fst d.
Definition dict_values (d : dict K V) : list V := map snd d.
End Dict.

Definition Counter := dict letter Z.

(** [c[l]]: a missing key reads as 0 and is not inserted. *)
Definition counter_get (c : Counter) (l : letter) : Z :=
  dict_get letter_eq_dec c l 0%Z.

Definition counter_set (c : Counter) (l : letter) (v : Z) : Counter :=
  dict_set letter_eq_dec c l v.

(** [c.update(s)] and [Counter(s)] *)
Definition counter_update (c : Counter) (s : word) : Counter :=
  fold_left (fun c l => counter_set c l (counter_get c l + 1)%Z) s c.

Definition counter_of (s : word) : Counter := counter_update [] s.

(** [any(c.values())] *)
Definition counter_any (c : Counter) : bool :=
  existsb (fun v => negb (v =? 0)%Z) (dict_values c).

(** [sum(c.values())] *)
Definition counter_total (c : Counter) : Z :=
  fold_right Z.add 0%Z (dict_values c).

(** [c.most_common()]: items by descending count, ties in insertion order. *)
Definition most_common (c : Counter) : list (letter * Z) :=
  sorted_by_key_reverse snd c.

(** ** The lexicon source and [load_words]

    [json.load] yields a tree of Python values.  The shapes [load_words]
    distinguishes are kept: the document is an object or not; the value
    under each key is iterable or not (an iterable is given by the list
    of its elements); each element is an object or not.  The fields of an
    entry object are strings when present, as in the ReadLex format. *)

Definition tag := word.

Record entry := mkEntry { Shaw : option word; pos : option tag }.

Inductive entry_value :=
| EntryObject (e : entry)
| EntryNotObject.

Inductive entries_value :=
| EntriesIterable (l : list entry_value)
| EntriesNotIterable.

Inductive document :=
| DocObject (items : list (word * entries_value))
| DocNotObject.

Inductive source :=
| Unreadable
| NotJSON
| Parsed (d : document).

Inductive py_error := OSError | JSONDecodeError | AttributeError | TypeError.

Inductive result (A : Type) :=
| Ok (a : A)
| Raise (e : py_error).
Arguments Ok {A} a.
Arguments Raise {A} e.

Definition bind {A B} (r : result A) (f : A -> result B) : result B :=
  match r with Ok a => f a | Raise e => Raise e end.

Notation "x <- r ;; k" := (bind r (fun x => k))
  (at level 61, r at next level, right associativity).

(** [for x in xs: body], stopping at the first exception. *)
Fixpoint for_each {A S} (xs : list A) (body : S -> A -> result S) (s : S)
  : result S :=
  match xs with
  | [] => Ok s
  | x :: xs' => s' <- body s x ;; for_each xs' body s'
  end.

(** [s.add(x)] on a set kept as a duplicate-free list. *)
Definition set_add_word (x : word) (s : list word) : list word :=
  if mem word_eq_dec x s then s else s ++ [x].

(** The two fields [load_words] fills. *)
Record Lexicon := mkLexicon {
  shaw_words : list word;
  shaw_to_pos : dict word (list tag)
}.

Definition load_entry (lx : Lexicon) (ev : entry_value) : result Lexicon :=
  match ev with
  | EntryNotObject => Raise AttributeError          (* no [.get] *)
  | EntryObject e =>
      let shaw := match Shaw e with Some s => s | None => [] end in
      let p := match pos e with Some s => s | None => [] end in
      match shaw with
      | [] => Ok lx                                  (* [if shaw:] fails *)
      | _ :: _ =>
          let ws := shaw_words lx ++ [shaw] in
          let m :=
            match dict_lookup word_eq_dec (shaw_to_pos lx) shaw with
            | Some _ => shaw_to_pos lx
            | None => dict_set word_eq_dec (shaw_to_pos lx) shaw []
            end in
          let m :=
            match p with
            | [] => m
            | _ :: _ =>
                dict_set word_eq_dec m shaw
                  (set_add_word p (dict_get word_eq_dec m shaw []))
            end in
          Ok (mkLexicon ws m)
      end
  end.

Definition load_entries (lx : Lexicon) (kv : word * entries_value)
  : result Lexicon :=
  match snd kv with
  | EntriesNotIterable => Raise TypeError
  | EntriesIterable l => for_each l load_entry lx
  end.

Definition load_words (src : source) : result Lexicon :=
  match src with
  | Unreadable => Raise OSError                      (* [open] *)
  | NotJSON => Raise JSONDecodeError                 (* [json.load] *)
  | Parsed DocNotObject => Raise AttributeError      (* no [.items] *)
  | Parsed (DocObject items) =>
      for_each items load_entries (mkLexicon [] [])
  end.

(** ** The prefix tree *)

Unset Elimination Schemes.
Inductive TrieNode :=
| mkNode (children : dict letter TrieNode) (is_word : bool) (key : option word).
Set Elimination Schemes.

Definition children (n : TrieNode) := let (c, _, _) := n in c.
Definition is_word (n : TrieNode) := let (_, w, _) := n in w.
Definition key (n : TrieNode) := let (_, _, k) := n in k.

Definition new_node : TrieNode := mkNode [] false None.

(** [list.index] with the [len] fallback used as sort key. *)
Fixpoint index_of (l : letter) (order : list letter) : nat :=
  match order with
  | [] => 0
  | x :: order' => if letter_eq_dec l x then 0 else S (index_of l order')
  end.

(** [lambda c: order.index(c) if c in order else len(order)] *)
Definition rarity_rank (order : list letter) (c : letter) : nat :=
  if mem letter_eq_dec c order then index_of c order else length order.

(** [''.join(sorted(shaw, key=...))] *)
Definition rarity_key (order : list letter) (shaw : word) : word :=
  sorted_by_key (rarity_rank order) shaw.

(** [_add_key_to_trie]: walk [rest] from [node], creating nodes on demand,
    and mark the last one with the whole key [k]. *)
Fixpoint add_key_from (k rest : word) (node : TrieNode) : TrieNode :=
  match rest with
  | [] => mkNode (children node) true (Some k)
  | l :: rest' =>
      let child :=
        match dict_lookup letter_eq_dec (children node) l with
        | Some c => c
        | None => new_node
        end in
      mkNode (dict_set letter_eq_dec (children node) l
                (add_key_from k rest' child))
             (is_word node) (key node)
  end.

Definition _add_key_to_trie (root : TrieNode) (k : word) : TrieNode :=
  add_key_from k k root.

(** [_sort_trie_children]: the source sorts a node's items and then
    descends into the children; the items are ordered by their letters
    alone, so sorting the already processed children gives the same node. *)
Fixpoint _sort_trie_children (order : list letter) (node : TrieNode) : TrieNode :=
  match node with
  | mkNode ch w k =>
      mkNode (sorted_by_key (fun item => rarity_rank order (fst item))
                (map (fun item => (fst item, _sort_trie_children order (snd item))) ch))
             w k
  end.

(** ** [PangramSolver] and [build_trie] *)

Record PangramSolver := mkSolver {
  lexicon : Lexicon;
  trie : TrieNode;
  letter_order : list letter;
  key_to_words : dict word (list word)
}.

(** [PangramSolver(readlex_path)] *)
Definition init_solver (src : source) : result PangramSolver :=
  lx <- load_words src ;; Ok (mkSolver lx new_node [] []).

(** [set(a) & set(b)] is non-empty *)
Definition intersects (a b : list tag) : bool :=
  existsb (fun x => mem word_eq_dec x b) a.

(** [set(shaw).issubset(target_letters)] *)
Definition issubset (shaw : word) (target_letters : list letter) : bool :=
  forallb (fun c => mem letter_eq_dec c target_letters) shaw.

(** The three tests of step 1, in the order of the source; [None] for an
    exclusion set stands for the default, the empty set. *)
Definition keeps (lx : Lexicon) (target_letters : list letter)
  (exclude_words : list word) (exclude_pos : list tag) (shaw : word) : bool :=
  if mem word_eq_dec shaw exclude_words then false
  else if (match exclude_pos with [] => false | _ :: _ => true end)
          && intersects (dict_get word_eq_dec (shaw_to_pos lx) shaw []) exclude_pos
       then false
  else issubset shaw target_letters.

(** Step 1: one pass filling [letter_counts] and [filtered_words]. *)
Definition histogram_step (lx : Lexicon) (target_letters : list letter)
  (exclude_words : list word) (exclude_pos : list tag)
  (acc : Counter * list word) (shaw : word) : Counter * list word :=
  if keeps lx target_letters exclude_words exclude_pos shaw
  then (counter_update (fst acc) shaw, snd acc ++ [shaw])
  else acc.

Definition histogram (lx : Lexicon) (target_letters : list letter)
  (exclude_words : list word) (exclude_pos : list tag) : Counter * list word :=
  fold_left (histogram_step lx target_letters exclude_words exclude_pos)
    (shaw_words lx) ([], []).

(** Step 2 *)
Definition rarest_first (letter_counts : Counter) : list letter :=
  rev (map fst (most_common letter_counts)).

(** Step 3: group the filtered words by key, each group a set. *)
Definition group_step (order : list letter)
  (sets : dict word (list word)) (shaw : word) : dict word (list word) :=
  let k := rarity_key order shaw in
  let sets :=
    match dict_lookup word_eq_dec sets k with
    | Some _ => sets
    | None => dict_set word_eq_dec sets k []
    end in
  dict_set word_eq_dec sets k (set_add_word shaw (dict_get word_eq_dec sets k [])).

Definition group_by_key (order : list letter) (filtered_words : list word)
  : dict word (list word) :=
  map (fun kv => (fst kv, sorted str_leb (snd kv)))
    (fold_left (group_step order) filtered_words []).

Definition option_set {A} (s : option (list A)) : list A :=
  match s with Some l => l | None => [] end.

Definition build_trie (self : PangramSolver) (target_letters : list letter)
  (exclude_words : option (list word)) (exclude_pos : option (list tag))
  : PangramSolver :=
  let exclude_words := option_set exclude_words in
  let exclude_pos := option_set exclude_pos in
  let '(letter_counts, filtered_words) :=
    histogram (lexicon self) target_letters exclude_words exclude_pos in
  let order := rarest_first letter_counts in
  let groups := group_by_key order filtered_words in
  let root := fold_left _add_key_to_trie (dict_keys groups) new_node in
  mkSolver (lexicon self) (_sort_trie_children order root) order groups.

(** The filtered word pool of a [build_trie] call. *)
Definition filtered_words (self : PangramSolver) (target_letters : list letter)
  (exclude_words : option (list word)) (exclude_pos : option (list tag))
  : list word :=
  snd (histogram (lexicon self) target_letters
         (option_set exclude_words) (option_set exclude_pos)).

(** ** The search state *)

(** Ghost events, so that statements can speak of every moment of a
    search: each value assigned to [remaining], and each scan of
    [letter_order] by [_find_words_from_root] with the counter it saw and
    the letter it found.  Nothing reads the trace. *)
Inductive event :=
| Assigned (c : Counter)
| Scanned (c : Counter) (found : option letter).

Record SearchState := mkState {
  remaining : Counter;
  current_words : list word;
  solutions : list (list word);
  attempt_count : nat;
  branch_count : nat;
  solution_count : nat;
  trace : list event            (* ghost, most recent first *)
}.

(** [remaining[l] += d] *)
Definition add_remaining (st : SearchState) (l : letter) (d : Z) : SearchState :=
  let c := counter_set (remaining st) l (counter_get (remaining st) l + d) in
  mkState c (current_words st) (solutions st) (attempt_count st)
    (branch_count st) (solution_count st) (Assigned c :: trace st).

Definition log_scan (st : SearchState) (found : option letter) : SearchState :=
  mkState (remaining st) (current_words st) (solutions st) (attempt_count st)
    (branch_count st) (solution_count st)
    (Scanned (remaining st) found :: trace st).

Definition tick_attempt (st : SearchState) : SearchState :=
  mkState (remaining st) (current_words st) (solutions st)
    (S (attempt_count st)) (branch_count st) (solution_count st) (trace st).

Definition tick_branch (st : SearchState) : SearchState :=
  mkState (remaining st) (current_words st) (solutions st)
    (attempt_count st) (S (branch_count st)) (solution_count st) (trace st).

(** [current_words.append(w)] and [current_words.pop()] *)
Definition push_word (st : SearchState) (w : word) : SearchState :=
  mkState (remaining st) (current_words st ++ [w]) (solutions st)
    (attempt_count st) (branch_count st) (solution_count st) (trace st).

Definition pop_word (st : SearchState) : SearchState :=
  mkState (remaining st) (removelast (current_words st)) (solutions st)
    (attempt_count st) (branch_count st) (solution_count st) (trace st).

(** [solutions.append(current_words[:])] and the solution counter *)
Definition record_solution (st : SearchState) : SearchState :=
  mkState (remaining st) (current_words st)
    (solutions st ++ [current_words st])
    (attempt_count st) (branch_count st) (S (solution_count st)) (trace st).

(** [max_solutions is not None and len(solutions) >= max_solutions] *)
Definition cap_reached (max_solutions : option Z) (st : SearchState) : bool :=
  match max_solutions with
  | Some m => (m <=? Z.of_nat (length (solutions st)))%Z
  | None => false
  end.

(** ** Word slots *)

(** [sep.join(ws)] *)
Fixpoint join (sep : word) (ws : list word) : word :=
  match ws with
  | [] => []
  | [w] => w
  | w :: ws' => w ++ sep ++ join sep ws'
  end.

(** ['[' + ' / '.join(original_words) + ']'], or the word alone. *)
Definition word_slot (original_words : list word) : word :=
  match original_words with
  | [w] => w
  | _ => [91%N] ++ join [32%N; 47%N; 32%N] original_words ++ [93%N]
  end.

(** The truth value of [node.key]: [None] and the empty string are false. *)
Definition truthy_key (k : option word) : option word :=
  match k with
  | Some (l :: k') => Some (l :: k')
  | _ => None
  end.

(** ** The search *)

Inductive flow := Continue | Return.

Section Search.
Variable self : PangramSolver.
Variable max_solutions : option Z.

(** The scan of [letter_order] in [_find_words_from_root]. *)
Definition rarest_letter (rem : Counter) : option letter :=
  find (fun l => (0 <? counter_get rem l)%Z) (letter_order self).

Section Trie.
(** The recursive call of [_search] made below a word node. *)
Variable search : SearchState -> nat -> option SearchState.

(** The [for letter, child in node.children.items()] loop of
    [_search_trie], given the function called on a child. *)
Definition explore_children
  (walk : TrieNode -> SearchState -> list letter -> nat
          -> option (SearchState * list letter)) (depth : nat)
  : dict letter TrieNode -> SearchState -> list letter
    -> option (flow * SearchState * list letter) :=
  fix loop items st current_letters :=
    match items with
    | [] => Some (Continue, st, current_letters)
    | (l, child) :: items' =>
        if (0 <? counter_get (remaining st) l)%Z then
          let current_letters := current_letters ++ [l] in
          let st := add_remaining st l (-1) in
          match walk child st current_letters depth with
          | None => None
          | Some (st, current_letters) =>
              let st := add_remaining st l 1 in
              let current_letters := removelast current_letters in
              if cap_reached max_solutions st
              then Some (Return, st, current_letters)
              else loop items' st current_letters
          end
        else loop items' st current_letters
    end.

(** The [if node.is_word and node.key:] block of [_search_trie]. *)
Definition try_word (node : TrieNode) (st : SearchState) (depth : nat)
  : option SearchState :=
  if is_word node then
    match truthy_key (key node) with
    | Some k =>
        let st := tick_branch st in
        let original_words := dict_get word_eq_dec (key_to_words self) k [] in
        match original_words with
        | [] => Some st
        | _ :: _ =>
            let st := push_word st (word_slot original_words) in
            match search st (S depth) with
            | None => None
            | Some st => Some (pop_word st)
            end
        end
    | None => Some st
    end
  else Some st.

Fixpoint _search_trie (node : TrieNode) (st : SearchState)
  (current_letters : list letter) (depth : nat) {struct node}
  : option (SearchState * list letter) :=
  let st := tick_attempt st in
  if cap_reached max_solutions st then Some (st, current_letters) else
  match node with
  | mkNode ch w k =>
      match explore_children _search_trie depth ch st current_letters with
      | None => None
      | Some (Return, st, current_letters) => Some (st, current_letters)
      | Some (Continue, st, current_letters) =>
          match try_word (mkNode ch w k) st depth with
          | None => None
          | Some st => Some (st, current_letters)
          end
      end
  end.

Definition _find_words_from_root (st : SearchState) (depth : nat)
  : option SearchState :=
  let found := rarest_letter (remaining st) in
  let st := log_scan st found in
  match found with
  | None => Some st                   (* [None in children.keys()] is false *)
  | Some l =>
      match dict_lookup letter_eq_dec (children (trie self)) l with
      | None => Some st
      | Some child =>
          let st := add_remaining st l (-1) in
          match _search_trie child st [l] depth with
          | None => None
          | Some (st, _) => Some (add_remaining st l 1)
          end
      end
  end.
End Trie.

Fixpoint _search (fuel : nat) (st : SearchState) (depth : nat)
  : option SearchState :=
  match fuel with
  | O => None
  | S fuel' =>
      if cap_reached max_solutions st then Some st
      else if negb (counter_any (remaining st)) then Some (record_solution st)
      else if (counter_total (remaining st) <=? 0)%Z then Some st
      else _find_words_from_root (_search fuel') st depth
  end.
End Search.

(** All 48 Shavian letters, U+10450 to U+1047F. *)
Definition shavian_alphabet : word :=
  map (fun i => (66640 + N.of_nat i)%N) (seq 0 48).

(** [if target_letters is None: target_letters = ...] *)
Definition target_or_default (target_letters : option word) : word :=
  match target_letters with Some t => t | None => shavian_alphabet end.

Definition initial_state (target_counter : Counter) : SearchState :=
  mkState target_counter [] [] 0 0 0 [].

(** [solve_pangram]: the final state of the search ([None] only if the
    fuel were to run out), from which the solutions are returned. *)
Definition solve_pangram_state (self : PangramSolver)
  (target_letters : option word) (max_solutions : option Z)
  (exclude_words : option (list word)) (exclude_pos : option (list tag))
  : option (PangramSolver * SearchState) :=
  let target_letters := target_or_default target_letters in
  let target_set := target_letters in
  let target_counter := counter_of target_letters in
  let self := build_trie self target_set exclude_words exclude_pos in
  match children (trie self) with
  | [] => Some (self, initial_state target_counter)
  | _ :: _ =>
      match _search self max_solutions (S (length target_letters))
              (initial_state target_counter) 0 with
      | Some st => Some (self, st)
      | None => None
      end
  end.

Definition solve_pangram (self : PangramSolver)
  (target_letters : option word) (max_solutions : option Z)
  (exclude_words : option (list word)) (exclude_pos : option (list tag))
  : option (list (list word)) :=
  option_map (fun r => solutions (snd r))
    (solve_pangram_state self target_letters max_solutions exclude_words exclude_pos).

(** ** A functional reading of the search

    The solutions the search has still to find from a given [remaining],
    as lists of keys and without any cap: what [_search] appends to
    [solutions] is proved to be these, prefixed by [current_words], up to
    the cap ([search_refines]). *)

Section Enumerate.
Variable self : PangramSolver.

Definition group_of (k : word) : list word :=
  dict_get word_eq_dec (key_to_words self) k [].

Definition slot_of_key (k : word) : word := word_slot (group_of k).

Section EnumTrie.
Variable enum_rest : Counter -> list (list word).

Definition enum_word (node : TrieNode) (rem : Counter) : list (list word) :=
  if is_word node then
    match truthy_key (key node) with
    | Some k =>
        match group_of k with
        | [] => []
        | _ :: _ => map (cons k) (enum_rest rem)
        end
    | None => []
    end
  else [].

Fixpoint enum_trie (node : TrieNode) (rem : Counter) : list (list word) :=
  match node with
  | mkNode ch w k =>
      flat_map (fun item =>
                  if (0 <? counter_get rem (fst item))%Z
                  then enum_trie (snd item)
                         (counter_set rem (fst item)
                            (counter_get rem (fst item) + -1))
                  else []) ch
      ++ enum_word (mkNode ch w k) rem
  end.

Definition enum_from_root (rem : Counter) : list (list word) :=
  match rarest_letter self rem with
  | None => []
  | Some l =>
      match dict_lookup letter_eq_dec (children (trie self)) l with
      | None => []
      | Some child =>
          enum_trie child (counter_set rem l (counter_get rem l + -1))
      end
  end.
End EnumTrie.

Fixpoint enum_search (fuel : nat) (rem : Counter) : list (list word) :=
  match fuel with
  | O => []
  | S fuel' =>
      if negb (counter_any rem) then [[]]
      else if (counter_total rem <=? 0)%Z then []
      else enum_from_root (enum_search fuel') rem
  end.
End Enumerate.

(** [sols] extended by [new], never beyond the cap. *)
Definition capped {A} (max_solutions : option Z) (sols new : list A) : list A :=
  match max_solutions with
  | Some m => sols ++ firstn (Z.to_nat (m - Z.of_nat (length sols))) new
  | None => sols ++ new
  end.

(** The cap test of the source, on the list of solutions alone. *)
Definition full {A} (K : option Z) (sols : list A) : bool :=
  match K with
  | Some m => (m <=? Z.of_nat (length sols))%Z
  | None => false
  end.

Definition nonneg (c : Counter) : Prop :=
  Forall (fun v => (0 <= v)%Z) (dict_values c).

Definition event_nonneg (e : event) : Prop :=
  match e with
  | Assigned c => nonneg c
  | Scanned c _ => nonneg c
  end.

(** What a call may do to the state: [remaining] and [current_words] are
    as before, [solutions] has grown by [news] (as slots, after the current
    path) up to the cap, and the trace has grown by events that are
    non-negative when [remaining] was. *)
Definition trace_grows (st st' : SearchState) : Prop :=
  exists evs, trace st' = evs ++ trace st /\
              (nonneg (remaining st) -> Forall event_nonneg evs).

Definition extends (self : PangramSolver) (K : option Z)
  (st st' : SearchState) (news : list (list word)) : Prop :=
  remaining st' = remaining st /\
  current_words st' = current_words st /\
  solutions st' =
    capped K (solutions st)
      (map (fun ks => current_words st ++ map (slot_of_key self) ks) news) /\
  trace_grows st st'.

(** The walk of a trie node, when the recursive [_search] is [search] and
    enumerates [enum_rest], for states whose counts sum to at most [B]. *)
Definition walk_ok (self : PangramSolver) (K : option Z)
  (search : SearchState -> nat -> option SearchState)
  (enum_rest : Counter -> list (list word)) (B : Z) (child : TrieNode) : Prop :=
  forall st cl depth,
    (counter_total (remaining st) <= B)%Z ->
    exists st', _search_trie self K search child st cl depth = Some (st', cl)
                /\ extends self K st st'
                     (enum_trie self enum_rest child (remaining st)).

(** ** The starter-word block of [main] *)

(** [str.isspace] on one code point. *)
Definition isspace (c : letter) : bool :=
  ((9 <=? c) && (c <=? 13) || (28 <=? c) && (c <=? 32)
   || (c =? 133) || (c =? 160) || (c =? 5760)
   || (8192 <=? c) && (c <=? 8202)
   || (c =? 8232) || (c =? 8233) || (c =? 8239) || (c =? 8287)
   || (c =? 12288))%N.

(** [''.join(s.split())] *)
Definition strip_whitespace (s : word) : word :=
  filter (fun c => negb (isspace c)) s.

Inductive exit := SystemExit (code : Z).

(** The loop over the starter letters: the counter, or [sys.exit(1)]. *)
Fixpoint subtract_letters (target_counter : Counter) (starter_words : word)
  : exit + Counter :=
  match starter_words with
  | [] => inr target_counter
  | l :: rest =>
      if (0 <? counter_get target_counter l)%Z
      then subtract_letters
             (counter_set target_counter l (counter_get target_counter l - 1))
             rest
      else inl (SystemExit 1)
  end.

(** [''.join(letter * count for letter, count in c.items() if count > 0)] *)
Definition rebuild_letters (c : Counter) : word :=
  flat_map (fun item =>
              if (0 <? snd item)%Z then repeat (fst item) (Z.to_nat (snd item))
              else []) c.

(** Lines 403-426 of [main]: from [--letters] and [--starter-words] to the
    [target_letters] handed to [solve_pangram]. *)
Definition prepare_target (letters starter : option word)
  : exit + option word :=
  let target_letters :=
    match letters with
    | Some (c :: s) => Some (strip_whitespace (c :: s))
    | other => other
    end in
  match starter with
  | Some (c :: s) =>
      let starter_words := strip_whitespace (c :: s) in
      let target_letters := target_or_default target_letters in
      match subtract_letters (counter_of target_letters) starter_words with
      | inl e => inl e
      | inr target_counter => inr (Some (rebuild_letters target_counter))
      end
  | _ => inr target_letters
  end.

(** ** Example lexicons *)

(** A source with one group holding one entry per word, no tags. *)
Definition source_of_words (ws : list word) : source :=
  Parsed (DocObject
            [([], EntriesIterable
                    (map (fun w => EntryObject (mkEntry (Some w) None)) ws))]).

Definition solver_of_words (ws : list word) : PangramSolver :=
  match init_solver (source_of_words ws) with
  | Ok s => s
  | Raise _ => mkSolver (mkLexicon [] []) new_node [] []
  end.

(** The shapes [load_words] accepts, and the words it then keeps: the
    non-empty [Shaw] fields in document order. *)
Definition entry_ok (ev : entry_value) : bool :=
  match ev with EntryObject _ => true | EntryNotObject => false end.

Definition entries_ok (kv : word * entries_value) : bool :=
  match snd kv with
  | EntriesIterable l => forallb entry_ok l
  | EntriesNotIterable => false
  end.

Definition entry_words (ev : entry_value) : list word :=
  match ev with
  | EntryObject (mkEntry (Some (c :: s)) _) => [c :: s]
  | _ => []
  end.

Definition entries_words (kv : word * entries_value) : list word :=
  match snd kv with
  | EntriesIterable l => flat_map entry_words l
  | EntriesNotIterable => []
  end.

(** A document whose first entry has no [Shaw] field:
    [{"k": [{"pos": "n"}, {"Shaw": "ab"}]}]. *)
Definition source_missing_word : source :=
  Parsed (DocObject
            [([107%N],
              EntriesIterable
                [EntryObject (mkEntry None (Some [110%N]));
                 EntryObject (mkEntry (Some [97%N; 98%N]) None)])]).

(** A document that spells one word three times with the tags n, v, n,
    and an anagram of it without tag:
    [{"k": [{"Shaw": "ab", "pos": "n"}, {"Shaw": "ab", "pos": "v"},
            {"Shaw": "ba"}, {"Shaw": "ab", "pos": "n"}]}]. *)
Definition source_tagged_words : source :=
  Parsed (DocObject
            [([107%N],
              EntriesIterable
                [EntryObject (mkEntry (Some [97%N; 98%N]) (Some [110%N]));
                 EntryObject (mkEntry (Some [97%N; 98%N]) (Some [118%N]));
                 EntryObject (mkEntry (Some [98%N; 97%N]) None);
                 EntryObject (mkEntry (Some [97%N; 98%N]) (Some [110%N]))])]).

(** Occurrences of a letter across a list of words, with multiplicity. *)
Definition occurrences (ws : list word) (l : letter) : nat :=
  list_sum (map (fun w => count_occ letter_eq_dec w l) ws).

(** A trie is well keyed at [prefix] when every word node carries as key
    the path of letters that leads to it. *)
Unset Elimination Schemes.
Inductive wf_trie : word -> TrieNode -> Prop :=
| wf_node prefix ch w k :
    (w = true -> k = Some prefix) ->
    Forall (fun item => wf_trie (prefix ++ [fst item]) (snd item)) ch ->
    wf_trie prefix (mkNode ch w k).
Set Elimination Schemes.

(** The keys [ks] use up exactly the letters of [rem] together with those
    of [prefix], and each key has words to show. *)
Definition accounts (self : PangramSolver) (rem : Counter) (prefix : word)
  (ks : list word) : Prop :=
  (forall l, (counter_get rem l + Z.of_nat (count_occ letter_eq_dec prefix l)
              = Z.of_nat (count_occ letter_eq_dec (concat ks) l))%Z)
  /\ Forall (fun k => group_of self k <> []) ks.

(** The groups under construction hold pool words only, each under its
    own key, and every key comes from a pool word. *)
Definition groups_sound (order : list letter) (pool : list word)
  (sets : dict word (list word)) : Prop :=
  (forall k ws, dict_lookup word_eq_dec sets k = Some ws ->
                forall w, In w ws -> In w pool /\ rarity_key order w = k)
  /\ (forall k, In k (dict_keys sets) ->
                exists w, In w pool /\ rarity_key order w = k).

(** What the filter of step 1 guarantees of a word. *)
Definition passes_filter (lx : Lexicon) (target_letters : list letter)
  (exclude_words : list word) (exclude_pos : list tag) (w : word) : Prop :=
  (forall l, In l w -> In l target_letters)
  /\ ~ In w exclude_words
  /\ (forall p, In p (dict_get word_eq_dec (shaw_to_pos lx) w []) ->
                ~ In p exclude_pos).

(** ** Splitting command-line arguments *)

(** [s.split()]: the maximal runs of non-whitespace characters, in
    order; [tok] is the run being read. *)
Fixpoint split_from (tok : word) (s : word) : list word :=
  match s with
  | [] => match tok with [] => [] | _ :: _ => [tok] end
  | c :: s' =>
      if isspace c then
        match tok with
        | [] => split_from [] s'
        | _ :: _ => tok :: split_from [] s'
        end
      else split_from (tok ++ [c]) s'
  end.

Definition split (s : word) : list word := split_from [] s.

(** [s.replace(',', ' ')] *)
Definition commas_to_spaces (s : word) : word :=
  map (fun c => if (c =? 44)%N then 32%N else c) s.

(** [set(xs)], kept as a duplicate-free list in order of first occurrence. *)
Definition set_of_words (xs : list word) : list word :=
  fold_left (fun s x => set_add_word x s) xs [].

(** Lines 428-436 of [main]: [--exclude-words] and [--exclude-pos] are
    read the same way; an absent or empty argument leaves [None]. *)
Definition parse_exclusions (arg : option word) : option (list word) :=
  match arg with
  | Some (c :: s) => Some (set_of_words (split (commas_to_spaces (c :: s))))
  | _ => None
  end.

(** [solve_anagram] *)
Definition solve_anagram (self : PangramSolver) (letters : word)
  : option (list (list word)) :=
  solve_pangram self (Some letters) None None None.

(** The tags recorded for a word, and what the document says: some entry
    spells the (non-empty) word [w] and carries the (non-empty) tag [p]. *)
Definition tags_of (lx : Lexicon) (w : word) : list tag :=
  dict_get word_eq_dec (shaw_to_pos lx) w [].

Definition entry_tags (e : entry) (w : word) (p : tag) : Prop :=
  Shaw e = Some w /\ pos e = Some p /\ w <> [] /\ p <> [].

Definition tagged (items : list (word * entries_value)) (w : word) (p : tag)
  : Prop :=
  exists kv l e,
    In kv items /\ snd kv = EntriesIterable l /\ In (EntryObject e) l
    /\ entry_tags e w p.

(** What [load_words] keeps true of the two fields. *)
Definition lexicon_ok (lx : Lexicon) : Prop :=
  NoDup (dict_keys (shaw_to_pos lx))
  /\ (forall w, In w (dict_keys (shaw_to_pos lx)) <-> In w (shaw_words lx))
  /\ (forall w, NoDup (tags_of lx w))
  /\ ~ In [] (shaw_words lx).

(** ** Looking a key up in the trie *)

(** Follow [path] from [node] through the [children] dictionaries. *)
Fixpoint trie_find (node : TrieNode) (path : word) : option TrieNode :=
  match path with
  | [] => Some node
  | l :: rest =>
      match dict_lookup letter_eq_dec (children node) l with
      | Some child => trie_find child rest
      | None => None
      end
  end.

(** A word ends at [path] below [node]. *)
Definition marks (node : TrieNode) (path : word) : Prop :=
  exists n, trie_find node path = Some n /\ is_word n = true.

(** [P] holds of [node] and of every node below it. *)
Unset Elimination Schemes.
Inductive trie_all (P : TrieNode -> Prop) : TrieNode -> Prop :=
| trie_all_node ch w k :
    P (mkNode ch w k) ->
    Forall (fun item => trie_all P (snd item)) ch ->
    trie_all P (mkNode ch w k).
Set Elimination Schemes.

(** The children of a node have distinct letters and are in rarity order. *)
Definition children_ordered (order : list letter) (node : TrieNode) : Prop :=
  NoDup (dict_keys (children node))
  /\ StronglySorted
       (fun a b => rarity_rank order (fst a) <= rarity_rank order (fst b))
       (children node).

(** [remaining] after the letters of [path] have been taken one by one. *)
Definition consume (rem : Counter) (path : word) : Counter :=
  fold_left (fun c l => counter_set c l (counter_get c l + -1)) path rem.

(** A key the search can take: non-empty, of ranked letters in rarity
    order, found in the trie as a word with that key, with words to show. *)
Definition usable_key (self : PangramSolver) (k : word) : Prop :=
  k <> []
  /\ (forall l, In l k -> In l (letter_order self))
  /\ StronglySorted
       (fun a b => (rarity_rank (letter_order self) a
                    <=? rarity_rank (letter_order self) b) = true) k
  /\ (exists n, trie_find (trie self) k = Some n
                /\ is_word n = true /\ key n = Some k)
  /\ group_of self k <> [].

(** ** The solution counter *)

(** Between two moments of a search, [solution_count] has grown by as
    much as [solutions] has. *)
Definition tally (st st' : SearchState) : Prop :=
  solution_count st' + length (solutions st)
  = solution_count st + length (solutions st').

(** ** Solutions that are rearrangements of each other *)

(** No entry of [l] is a rearrangement of a later one. *)
Definition no_rearrangement {A} (l : list (list A)) : Prop :=
  ForallOrdPairs (fun a b => ~ Permutation a b) l.

(** No letter is left more than once, counting the letters of [prefix]
    as still to come. *)
Definition at_most_once (rem : Counter) (prefix : word) : Prop :=
  forall l,
    (counter_get rem l + Z.of_nat (count_occ letter_eq_dec prefix l) <= 1)%Z.

(** ** [tools/extract-wordlists.py]

    The tool reads the same ReadLex document, but the fields [Shaw] and
    [Latn] of each entry.  The sets of words are kept as duplicate-free
    lists in order of insertion; they are only ever sorted, and the order
    on strings is total, so the sorted lists do not depend on that order.
    A run is modelled up to the files it writes and the exception it ends
    with, if any; the messages it prints are not. *)

(** A field of an entry after [json.load]: missing, a string, or any
    other value ([null], a number, a list, an object). *)
Inductive json_field :=
| Missing
| Str (s : word)
| NotStr.

Record lex_entry := mkLexEntry {
  entry_Shaw : json_field;
  entry_Latn : json_field
}.

(** An iterable of entries; [None] is an element that is no object. *)
Inductive lex_entries :=
| LexIterable (l : list (option lex_entry))
| LexNotIterable.

(** The file to read; [LexParsed None] is a document that is no object. *)
Inductive lex_source :=
| LexUnreadable
| LexNotJSON
| LexParsed (d : option (list (word * lex_entries))).

(** [s.lstrip()] and [s.strip()] *)
Fixpoint lstrip (s : word) : word :=
  match s with
  | [] => []
  | c :: s' => if isspace c then lstrip s' else s
  end.

Definition strip (s : word) : word := rev (lstrip (rev (lstrip s))).

(** The string a field holds, [''] when there is none. *)
Definition field_string (f : json_field) : word :=
  match f with Str s => s | _ => [] end.

(** [entry.get(name, '').strip()] *)
Definition field_text (f : json_field) : result word :=
  match f with
  | NotStr => Raise AttributeError                   (* no [.strip] *)
  | _ => Ok (strip (field_string f))
  end.

(** [if text: for word in text.split(): if word: words.add(word)] *)
Definition add_tokens (words : list word) (text : word) : list word :=
  match text with
  | [] => words
  | _ :: _ =>
      fold_left (fun words w =>
                   match w with
                   | [] => words
                   | _ :: _ => set_add_word w words
                   end)
        (split text) words
  end.

Record wordlists := mkWordlists {
  shavian_words : list word;
  roman_words : list word
}.

Definition extract_entry (acc : wordlists) (ev : option lex_entry)
  : result wordlists :=
  match ev with
  | None => Raise AttributeError                     (* no [.get] *)
  | Some e =>
      shaw <- field_text (entry_Shaw e) ;;
      latn <- field_text (entry_Latn e) ;;
      Ok (mkWordlists (add_tokens (shavian_words acc) shaw)
                      (add_tokens (roman_words acc) latn))
  end.

Definition extract_entries (acc : wordlists) (kv : word * lex_entries)
  : result wordlists :=
  match snd kv with
  | LexNotIterable => Raise TypeError
  | LexIterable l => for_each l extract_entry acc
  end.

(** [extract_wordlists] up to the end of its loop: the two sets. *)
Definition collect_words (src : lex_source) : result wordlists :=
  match src with
  | LexUnreadable => Raise OSError
  | LexNotJSON => Raise JSONDecodeError
  | LexParsed None => Raise AttributeError           (* no [.items] *)
  | LexParsed (Some items) =>
      for_each items extract_entries (mkWordlists [] [])
  end.

(** The two files of the output directory. *)
Inductive file_name := ShavianWordsTxt | RomanWordsTxt.

Inductive tool_error :=
| PyError (e : py_error)
| UnicodeEncodeError.

(** UTF-8 has no encoding for a surrogate code point, U+D800 to U+DFFF. *)
Definition is_surrogate (c : letter) : bool :=
  ((55296 <=? c) && (c <=? 57343))%N.

Definition encodable (text : word) : bool :=
  forallb (fun c => negb (is_surrogate c)) text.

(** What a run leaves behind: the files it opened for writing, with
    their contents, and the exception that ended it, if any. *)
Record tool_run := mkRun {
  files : list (file_name * word);
  raised : option tool_error
}.

(** [with open(path, 'w', encoding='utf-8') as f: f.write(text)]: a file
    that cannot be opened is [OSError]; once opened the file is empty, and
    stays so when the text cannot be encoded. *)
Definition write_text (can_open : file_name -> bool) (name : file_name)
  (text : word) (run : tool_run) : tool_run :=
  match raised run with
  | Some _ => run
  | None =>
      if can_open name then
        if encodable text
        then mkRun (files run ++ [(name, text)]) None
        else mkRun (files run ++ [(name, [])]) (Some UnicodeEncodeError)
      else mkRun (files run) (Some (PyError OSError))
  end.

(** [extract_wordlists(readlex_path, output_dir)]; [can_open] says which
    files of the output directory can be opened for writing. *)
Definition extract_wordlists (src : lex_source) (can_open : file_name -> bool)
  : tool_run :=
  match collect_words src with
  | Raise e => mkRun [] (Some (PyError e))
  | Ok acc =>
      let shavian := sorted str_leb (shavian_words acc) in
      let roman := sorted str_leb (roman_words acc) in
      write_text can_open RomanWordsTxt (join [10%N] roman)
        (write_text can_open ShavianWordsTxt (join [10%N] shavian)
           (mkRun [] None))
  end.

(** The documents the loop accepts: every value is an iterable of
    objects whose [Shaw] and [Latn] fields are strings when present. *)
Definition field_is_text (f : json_field) : bool :=
  match f with NotStr => false | _ => true end.

Definition lex_entry_ok (ev : option lex_entry) : bool :=
  match ev with
  | Some e => field_is_text (entry_Shaw e) && field_is_text (entry_Latn e)
  | None => false
  end.

Definition lex_entries_ok (kv : word * lex_entries) : bool :=
  match snd kv with
  | LexIterable l => forallb lex_entry_ok l
  | LexNotIterable => false
  end.

(** No [Shaw] or [Latn] string of the document holds a surrogate. *)
Definition lex_entry_encodable (ev : option lex_entry) : bool :=
  match ev with
  | Some e =>
      encodable (field_string (entry_Shaw e))
      && encodable (field_string (entry_Latn e))
  | None => true
  end.

Definition lex_entries_encodable (kv : word * lex_entries) : bool :=
  match snd kv with
  | LexIterable l => forallb lex_entry_encodable l
  | LexNotIterable => true
  end.

(** [w] is one of the whitespace-separated words of the given field of
    some entry of the document. *)
Definition token_of (field : lex_entry -> json_field)
  (items : list (word * lex_entries)) (w : word) : Prop :=
  exists kv l e t,
    In kv items /\ snd kv = LexIterable l /\ In (Some e) l
    /\ field e = Str t /\ In w (split t).

(** Ascending with no repetition. *)
Definition strictly_sorted (ws : list word) : Prop :=
  StronglySorted (fun a b => str_leb a b = true /\ a <> b) ws.

(** ** Induction on tries *)

Fixpoint TrieNode_ind (P : TrieNode -> Prop)
  (step : forall ch w k, Forall (fun item => P (snd item)) ch -> P (mkNode ch w k))
  (n : TrieNode) {struct n} : P n :=
  match n with
  | mkNode ch w k =>
      step ch w k
        ((fix go (l : dict letter TrieNode) : Forall (fun item => P (snd item)) l :=
            match l with
            | [] => Forall_nil _
            | item :: l' =>
                Forall_cons item
                  (match item return P (snd item) with
                   | (_, c) => TrieNode_ind P step c
                   end)
                  (go l')
            end) ch)
  end.

(** * Proofs *)

(** ** Counters *)

Section CounterFacts.
Implicit Types (c : Counter) (l : letter) (v : Z).

Lemma counter_get_set_same c l v : counter_get (counter_set c l v) l = v.
Proof.
  unfold counter_get, counter_set, dict_get.
  induction c as [|[k u] c IH]; simpl.
  - destruct (letter_eq_dec l l); congruence.
  - destruct (letter_eq_dec l k) eqn:E; simpl; rewrite ?E; auto.
Qed.

Lemma counter_get_set_other c l l' v :
  l <> l' -> counter_get (counter_set c l v) l' = counter_get c l'.
Proof.
  intros Hne. unfold counter_get, counter_set, dict_get.
  induction c as [|[k u] c IH]; simpl.
  - destruct (letter_eq_dec l' l); congruence.
  - destruct (letter_eq_dec l k) as [->|]; simpl.
    + destruct (letter_eq_dec l' k); congruence.
    + destruct (letter_eq_dec l' k); auto.
Qed.

Lemma counter_get_set c l l' v :
  counter_get (counter_set c l v) l' =
  if letter_eq_dec l l' then v else counter_get c l'.
Proof.
  destruct (letter_eq_dec l l') as [<-|].
  - apply counter_get_set_same.
  - now apply counter_get_set_other.
Qed.

(** Writing back the value that was there gives the same object. *)
Lemma counter_set_restore c l v :
  counter_get c l <> 0%Z ->
  counter_set (counter_set c l v) l (counter_get c l) = c.
Proof.
  unfold counter_get, counter_set, dict_get.
  induction c as [|[k u] c IH]; simpl.
  - congruence.
  - destruct (letter_eq_dec l k) as [->|Hne] eqn:E; simpl; rewrite E.
    + reflexivity.
    + intros H. now rewrite IH.
Qed.

Lemma counter_total_set c l v :
  counter_total (counter_set c l v)
  = (counter_total c - counter_get c l + v)%Z.
Proof.
  unfold counter_total, counter_get, counter_set, dict_get, dict_values.
  induction c as [|[k u] c IH]; simpl.
  - lia.
  - destruct (letter_eq_dec l k); simpl; lia.
Qed.

Lemma nonneg_set c l v : nonneg c -> (0 <= v)%Z -> nonneg (counter_set c l v).
Proof.
  unfold nonneg, counter_set, dict_values. intros H Hv.
  induction c as [|[k u] c IH]; simpl.
  - auto.
  - inversion H; subst.
    destruct (letter_eq_dec l k); simpl; constructor; auto.
Qed.

Lemma counter_any_false c :
  counter_any c = false -> forall l, counter_get c l = 0%Z.
Proof.
  unfold counter_any, counter_get, dict_get, dict_values.
  induction c as [|[k u] c IH]; simpl; intros H l; auto.
  apply orb_false_elim in H as [Hu Hc].
  destruct (letter_eq_dec l k).
  - apply negb_false_iff, Z.eqb_eq in Hu. exact Hu.
  - now apply IH.
Qed.
End CounterFacts.

(** ** The cap *)

Section Capped.
Context {A : Type}.
Variable K : option Z.
Implicit Types sols a b : list A.

Lemma capped_nil sols : capped K sols [] = sols.
Proof.
  unfold capped. destruct K; rewrite ?firstn_nil; apply app_nil_r.
Qed.

Lemma capped_full sols a : full K sols = true -> capped K sols a = sols.
Proof.
  unfold full, capped. destruct K as [m|]; [|discriminate].
  intros H. apply Z.leb_le in H.
  replace (Z.to_nat (m - Z.of_nat (length sols))) with 0 by lia.
  apply app_nil_r.
Qed.

Lemma capped_app sols a b :
  capped K (capped K sols a) b = capped K sols (a ++ b).
Proof.
  unfold capped. destruct K as [m|]; [|now rewrite app_assoc].
  rewrite <- app_assoc. f_equal.
  rewrite firstn_app. f_equal.
  rewrite length_app, length_firstn.
  set (n := Z.to_nat (m - Z.of_nat (length sols))).
  replace (Z.to_nat (m - Z.of_nat (length sols + Nat.min n (length a))))
    with (n - Nat.min n (length a)) by lia.
  destruct (Nat.le_ge_cases n (length a)) as [Hle|Hge].
  - replace (n - Nat.min n (length a)) with 0 by lia.
    replace (n - length a) with 0 by lia. reflexivity.
  - f_equal. lia.
Qed.

Lemma capped_one_not_full sols x :
  full K sols = false -> capped K sols [x] = sols ++ [x].
Proof.
  unfold full, capped. destruct K as [m|]; auto.
  intros H. apply Z.leb_gt in H.
  destruct (Z.to_nat (m - Z.of_nat (length sols))) eqn:E; [lia|].
  simpl. now rewrite firstn_nil.
Qed.
End Capped.

(** ** The search computes the enumeration *)

Section Refinement.
Variable self : PangramSolver.
Variable K : option Z.

Local Abbreviation ext := (extends self K).

Lemma cap_reached_full st : cap_reached K st = full K (solutions st).
Proof. reflexivity. Qed.

Lemma trace_grows_refl st st' :
  remaining st' = remaining st -> trace st' = trace st -> trace_grows st st'.
Proof. intros _ Ht. exists []. split; auto. Qed.

Lemma extends_refl st st' :
  remaining st' = remaining st -> current_words st' = current_words st ->
  solutions st' = solutions st -> trace st' = trace st ->
  ext st st' [].
Proof.
  intros Hr Hw Hs Ht. repeat split; auto.
  - simpl. now rewrite capped_nil.
  - now apply trace_grows_refl.
Qed.

Lemma extends_trans st st1 st2 a b :
  ext st st1 a -> ext st1 st2 b -> ext st st2 (a ++ b).
Proof.
  intros (Hr1 & Hw1 & Hs1 & evs1 & Ht1 & Hn1) (Hr2 & Hw2 & Hs2 & evs2 & Ht2 & Hn2).
  repeat split; try congruence.
  - rewrite Hs2, Hs1, Hw1, capped_app, map_app. reflexivity.
  - exists (evs2 ++ evs1). split.
    + rewrite Ht2, Ht1. apply app_assoc.
    + intros Hn. apply Forall_app. split; auto.
      apply Hn2. now rewrite Hr1.
Qed.

Lemma extends_full st st' a b :
  ext st st' a -> cap_reached K st' = true -> ext st st' (a ++ b).
Proof.
  intros (Hr & Hw & Hs & Ht) Hfull.
  repeat split; auto.
  rewrite map_app, <- capped_app, <- Hs.
  symmetry. now apply capped_full.
Qed.

(** A decrement of a positive count, a call that restores, the
    matching increment: the whole restores. *)
Lemma extends_around st st2 l news :
  (0 < counter_get (remaining st) l)%Z ->
  ext (add_remaining st l (-1)) st2 news ->
  ext st (add_remaining st2 l 1) news.
Proof.
  intros Hpos (Hr & Hw & Hs & evs & Ht & Hn). simpl in *.
  assert (Hback : counter_set (remaining st2) l (counter_get (remaining st2) l + 1)
                  = remaining st).
  { rewrite Hr, counter_get_set_same.
    replace (counter_get (remaining st) l + -1 + 1)%Z
      with (counter_get (remaining st) l) by lia.
    apply counter_set_restore. lia. }
  repeat split; simpl; auto.
  exists (Assigned (remaining st) :: evs
          ++ [Assigned (counter_set (remaining st) l
                          (counter_get (remaining st) l + -1))]).
  split.
  - simpl. rewrite Hback, Ht. simpl. now rewrite <- app_assoc.
  - intros Hnn.
    assert (nonneg (counter_set (remaining st) l
                      (counter_get (remaining st) l + -1)))
      by (apply nonneg_set; [assumption | lia]).
    constructor; [exact Hnn|].
    apply Forall_app. split; [now apply Hn | constructor; auto].
Qed.

Section TrieWalk.
Variable search : SearchState -> nat -> option SearchState.
Variable enum_rest : Counter -> list (list word).
Variable B : Z.

Hypothesis search_ok : forall st d,
  (counter_total (remaining st) <= B)%Z ->
  exists st', search st d = Some st' /\ ext st st' (enum_rest (remaining st)).

Local Abbreviation walk_ok := (walk_ok self K search enum_rest B).

Lemma try_word_ok node st depth :
  (counter_total (remaining st) <= B)%Z ->
  exists st', try_word self search node st depth = Some st'
              /\ ext st st' (enum_word self enum_rest node (remaining st)).
Proof.
  intros Hb. unfold try_word, enum_word, group_of.
  destruct (is_word node); [|eexists; split; [reflexivity | now apply extends_refl]].
  destruct (truthy_key (key node)) as [k|];
    [|eexists; split; [reflexivity | now apply extends_refl]].
  destruct (dict_get word_eq_dec (key_to_words self) k []) as [|w ws] eqn:Eg;
    [eexists; split; [reflexivity | now apply extends_refl]|].
  set (st1 := push_word (tick_branch st) (word_slot (w :: ws))).
  destruct (search_ok st1 (S depth)) as (st2 & -> & Hr & Hw & Hs & evs & Ht & Hn);
    [exact Hb|].
  eexists; split; [reflexivity|].
  simpl in *. repeat split; simpl; auto.
  - rewrite Hw. apply removelast_last.
  - rewrite Hs, map_map. f_equal. apply map_ext. intros ks.
    simpl. unfold slot_of_key, group_of. rewrite Eg, <- app_assoc. reflexivity.
  - exists evs. split; auto.
Qed.

Lemma explore_children_ok depth items :
  Forall (fun item => walk_ok (snd item)) items ->
  forall st cl,
    (counter_total (remaining st) <= B)%Z ->
    exists fl st',
      explore_children K (_search_trie self K search) depth items st cl
      = Some (fl, st', cl)
      /\ ext st st'
           (flat_map (fun item =>
                        if (0 <? counter_get (remaining st) (fst item))%Z
                        then enum_trie self enum_rest (snd item)
                               (counter_set (remaining st) (fst item)
                                  (counter_get (remaining st) (fst item) + -1))
                        else []) items)
      /\ (fl = Return -> cap_reached K st' = true).
Proof.
  induction 1 as [|[l child] items Hc _ IH]; intros st cl Hb; simpl.
  - exists Continue, st.
    split; [reflexivity|]. split; [now apply extends_refl | discriminate].
  - destruct (0 <? counter_get (remaining st) l)%Z eqn:Hpos.
    + apply Z.ltb_lt in Hpos.
      destruct (Hc (add_remaining st l (-1)) (cl ++ [l]) depth)
        as (st2 & E & Hext).
      { simpl. rewrite counter_total_set. lia. }
      cbn [snd] in E, Hext. rewrite E.
      apply (extends_around Hpos) in Hext.
      rewrite removelast_last.
      destruct (cap_reached K (add_remaining st2 l 1)) eqn:Hcap.
      * exists Return, (add_remaining st2 l 1).
        split; [reflexivity|]. split; [now apply extends_full | auto].
      * destruct (IH (add_remaining st2 l 1) cl) as (fl & st' & -> & Hext' & Hfl).
        { destruct Hext as (-> & _). exact Hb. }
        exists fl, st'.
        split; [reflexivity|]. split; [|exact Hfl].
        assert (Hr : remaining (add_remaining st2 l 1) = remaining st)
          by apply Hext.
        rewrite Hr in Hext'.
        eapply extends_trans; eauto.
    + destruct (IH st cl Hb) as (fl & st' & -> & Hext' & Hfl).
      exists fl, st'. split; [reflexivity|]. split; assumption.
Qed.

Lemma search_trie_ok node : walk_ok node.
Proof.
  induction node as [ch w k IH] using TrieNode_ind.
  intros st cl depth Hb.
  assert (Htick : ext st (tick_attempt st) []) by now apply extends_refl.
  simpl.
  destruct (cap_reached K (tick_attempt st)) eqn:Hcap.
  - eexists; split; [reflexivity|].
    apply (extends_full _ Htick Hcap).
  - destruct (explore_children_ok depth IH (tick_attempt st) cl Hb)
      as (fl & st1 & E1 & Hext1 & Hfl).
    simpl in Hext1, E1. rewrite E1.
    destruct fl.
    + destruct (@try_word_ok (mkNode ch w k) st1 depth) as (st2 & -> & Hext2).
      { destruct Hext1 as (-> & _). exact Hb. }
      eexists; split; [reflexivity|].
      assert (Hr : remaining st1 = remaining st) by apply Hext1.
      rewrite Hr in Hext2.
      apply (extends_trans Htick). eapply extends_trans; eauto.
    + eexists; split; [reflexivity|].
      apply (extends_trans Htick). apply extends_full; auto.
Qed.

Lemma log_scan_extends st found : ext st (log_scan st found) [].
Proof.
  repeat split; simpl; [now rewrite capped_nil|].
  exists [Scanned (remaining st) found]. split; [reflexivity|].
  intros Hn. constructor; [exact Hn | constructor].
Qed.

Lemma find_words_from_root_ok st depth :
  (counter_total (remaining st) <= B + 1)%Z ->
  exists st', _find_words_from_root self K search st depth = Some st'
              /\ ext st st' (enum_from_root self enum_rest (remaining st)).
Proof.
  intros Hb. unfold _find_words_from_root, enum_from_root.
  pose proof (log_scan_extends st (rarest_letter self (remaining st))) as Hscan.
  destruct (rarest_letter self (remaining st)) as [l|] eqn:Hl;
    [|eexists; split; [reflexivity | exact Hscan]].
  destruct (dict_lookup letter_eq_dec (children (trie self)) l) as [child|];
    [|eexists; split; [reflexivity | exact Hscan]].
  apply find_some in Hl as [_ Hpos]. apply Z.ltb_lt in Hpos.
  set (st1 := log_scan st (Some l)) in *.
  destruct (@search_trie_ok child (add_remaining st1 l (-1)) [l] depth)
    as (st2 & E & Hext).
  { simpl. rewrite counter_total_set. lia. }
  rewrite E. eexists; split; [reflexivity|].
  apply (extends_around (st := st1)) in Hext; [|exact Hpos].
  apply (extends_trans Hscan Hext).
Qed.
End TrieWalk.

Lemma record_solution_extends st :
  cap_reached K st = false -> ext st (record_solution st) [[]].
Proof.
  intros Hcap. repeat split; simpl.
  - rewrite app_nil_r. symmetry. now apply capped_one_not_full.
  - now apply trace_grows_refl.
Qed.

(** [_search] with enough fuel returns, restores the state, and has
    appended the enumeration up to the cap. *)
Lemma search_refines fuel : forall st depth,
  (Z.max 0 (counter_total (remaining st)) < Z.of_nat fuel)%Z ->
  exists st', _search self K fuel st depth = Some st'
              /\ ext st st' (enum_search self fuel (remaining st)).
Proof.
  induction fuel as [|fuel IH]; intros st depth Hb; [lia|].
  assert (Hrefl : ext st st []) by now apply extends_refl.
  simpl.
  destruct (cap_reached K st) eqn:Hcap.
  { eexists; split; [reflexivity|]. apply (extends_full _ Hrefl Hcap). }
  destruct (negb (counter_any (remaining st))).
  { eexists; split; [reflexivity|]. now apply record_solution_extends. }
  destruct (counter_total (remaining st) <=? 0)%Z eqn:Htot.
  { eexists; split; [reflexivity | exact Hrefl]. }
  apply Z.leb_gt in Htot.
  apply find_words_from_root_ok with (B := (Z.of_nat fuel - 1)%Z); [|lia].
  intros st' d Hst'. apply IH. lia.
Qed.
End Refinement.

Lemma counter_total_update c s :
  counter_total (counter_update c s) = (counter_total c + Z.of_nat (length s))%Z.
Proof.
  unfold counter_update. revert c.
  induction s as [|l s IH]; intros c; simpl; [lia|].
  rewrite IH, counter_total_set. lia.
Qed.

Lemma counter_total_of s : counter_total (counter_of s) = Z.of_nat (length s).
Proof. unfold counter_of. now rewrite counter_total_update. Qed.

(** [solve_pangram] always returns, and returns the enumeration cut at
    the cap. *)
Lemma solve_pangram_enum self target_letters K exclude_words exclude_pos :
  let t := target_or_default target_letters in
  let built := build_trie self t exclude_words exclude_pos in
  solve_pangram self target_letters K exclude_words exclude_pos
  = Some (match children (trie built) with
          | [] => []
          | _ :: _ =>
              capped K []
                (map (map (slot_of_key built))
                   (enum_search built (S (length t)) (counter_of t)))
          end).
Proof.
  intros t built. unfold solve_pangram, solve_pangram_state.
  fold t. fold built.
  destruct (children (trie built)) as [|item items]; [reflexivity|].
  destruct (@search_refines built K (S (length t))
              (initial_state (counter_of t)) 0) as (st' & -> & _ & _ & Hs & _).
  { simpl. rewrite counter_total_of. lia. }
  simpl in *. rewrite Hs. reflexivity.
Qed.

Lemma nonneg_get c l : nonneg c -> (0 <= counter_get c l)%Z.
Proof.
  unfold nonneg, counter_get, dict_get, dict_values.
  induction c as [|[k v] c IH]; simpl; intros H; [lia|].
  inversion H; subst. destruct (letter_eq_dec l k); auto.
Qed.

Lemma nonneg_update c s : nonneg c -> nonneg (counter_update c s).
Proof.
  unfold counter_update. revert c.
  induction s as [|l s IH]; intros c H; simpl; auto.
  apply IH, nonneg_set; auto. pose proof (nonneg_get l H). lia.
Qed.

Lemma nonneg_counter_of s : nonneg (counter_of s).
Proof. apply nonneg_update. constructor. Qed.

(** ** The cap, the frame and repeated words *)

(** C3. A run of [solve_pangram] capped at [K] returns the first [K]
    solutions, in order, of the uncapped run on the same inputs (all of
    them when there are fewer; none when [K <= 0]).  Both runs return.
    Being a function of its inputs, [solve_pangram] gives identical
    results on identical inputs. *)
Theorem capped_run_is_prefix_of_unlimited_run
  (self : PangramSolver) (target_letters : option word) (K : Z)
  (exclude_words : option (list word)) (exclude_pos : option (list tag)) :
  exists unlimited,
    solve_pangram self target_letters None exclude_words exclude_pos
    = Some unlimited
    /\ solve_pangram self target_letters (Some K) exclude_words exclude_pos
       = Some (firstn (Z.to_nat K) unlimited).
Proof.
  rewrite !solve_pangram_enum.
  destruct (children (trie (build_trie self (target_or_default target_letters)
                              exclude_words exclude_pos))).
  - exists []. now rewrite firstn_nil.
  - eexists. split; [reflexivity|].
    unfold capped. simpl. now rewrite Z.sub_0_r.
Qed.

(** C8. With fuel above the sum of the counts, [_search_trie],
    [_find_words_from_root] and [_search] return and leave [remaining],
    [current_letters] and [current_words] as they were at entry; every
    value [remaining] takes during the call is non-negative when it was at
    entry.  Hence after [solve_pangram]'s search [remaining] is the target
    counter again, the path is empty, and no count was ever negative. *)
Theorem search_restores_state (self : PangramSolver) (K : option Z) :
  (forall fuel st depth,
      (Z.max 0 (counter_total (remaining st)) < Z.of_nat fuel)%Z ->
      (forall node current_letters,
          exists st',
            _search_trie self K (_search self K fuel) node st current_letters depth
            = Some (st', current_letters)
            /\ remaining st' = remaining st
            /\ current_words st' = current_words st
            /\ trace_grows st st')
      /\ (exists st',
             _find_words_from_root self K (_search self K fuel) st depth = Some st'
             /\ remaining st' = remaining st
             /\ current_words st' = current_words st
             /\ trace_grows st st')
      /\ (exists st',
             _search self K fuel st depth = Some st'
             /\ remaining st' = remaining st
             /\ current_words st' = current_words st
             /\ trace_grows st st'))
  /\ (forall target_letters exclude_words exclude_pos,
         exists r,
           solve_pangram_state self target_letters K exclude_words exclude_pos
           = Some r
           /\ remaining (snd r) = counter_of (target_or_default target_letters)
           /\ current_words (snd r) = []
           /\ Forall event_nonneg (trace (snd r))).
Proof.
  split.
  - intros fuel st depth Hfuel.
    assert (Hrec : forall st' d,
               (counter_total (remaining st') <= Z.of_nat fuel - 1)%Z ->
               exists st'', _search self K fuel st' d = Some st''
                            /\ extends self K st' st''
                                 (enum_search self fuel (remaining st'))).
    { intros st' d Hb. apply search_refines. lia. }
    split; [|split].
    + intros node cl.
      destruct (@search_trie_ok self K _ _ _ Hrec node st cl depth)
        as (st' & E & Hr & Hw & _ & Ht); [lia|].
      exists st'. auto.
    + destruct (@find_words_from_root_ok self K _ _ _ Hrec st depth)
        as (st' & E & Hr & Hw & _ & Ht); [lia|].
      exists st'. auto.
    + destruct (search_refines self K fuel st depth Hfuel)
        as (st' & E & Hr & Hw & _ & Ht).
      exists st'. auto.
  - intros target_letters exclude_words exclude_pos.
    unfold solve_pangram_state.
    set (t := target_or_default target_letters).
    set (built := build_trie self t exclude_words exclude_pos).
    destruct (children (trie built)).
    + eexists. split; [reflexivity|]. simpl. auto.
    + destruct (@search_refines built K (S (length t))
                  (initial_state (counter_of t)) 0)
        as (st' & -> & Hr & Hw & _ & evs & Ht & Hn).
      { simpl. rewrite counter_total_of. lia. }
      eexists. split; [reflexivity|]. simpl in *.
      repeat split; auto.
      rewrite Ht, app_nil_r. apply Hn, nonneg_counter_of.
Qed.

Lemma search_restores_state_witness :
  exists st',
    _search
      (build_trie (solver_of_words [[97%N]; [98%N]; [97%N; 98%N]])
         [97%N; 98%N] None None)
      None 3 (initial_state (counter_of [97%N; 98%N])) 0 = Some st'
    /\ remaining st' = counter_of [97%N; 98%N]
    /\ current_words st' = []
    /\ In (Assigned [(97%N, 0%Z); (98%N, 0%Z)]) (trace st')
    /\ length (solutions st') = 2.
Proof.
  destruct (proj1 (search_restores_state
                     (build_trie (solver_of_words [[97%N]; [98%N]; [97%N; 98%N]])
                        [97%N; 98%N] None None) None)
              3 (initial_state (counter_of [97%N; 98%N])) 0)
    as (_ & _ & st' & E & Hr & Hw & _).
  - vm_compute. reflexivity.
  - exists st'. split; [exact E|]. split; [exact Hr|]. split; [exact Hw|].
    assert (E2 := E). vm_compute in E2. injection E2 as <-.
    split; [simpl; auto 10 | reflexivity].
Defined.

(** C10. A word may fill several slots of one solution: with the
    one-word lexicon "a" and the target letters "aa", the only solution
    is that word twice. *)
Theorem word_may_repeat_in_a_solution :
  solve_pangram (solver_of_words [[97%N]]) (Some [97%N; 97%N]) None None None
  = Some [[[97%N]; [97%N]]].
Proof. vm_compute. reflexivity. Qed.

(** ** Loading *)

Lemma load_entry_object lx e :
  exists lx', load_entry lx (EntryObject e) = Ok lx'
              /\ shaw_words lx' = shaw_words lx ++ entry_words (EntryObject e).
Proof.
  destruct e as [[[|c s]|] p]; simpl.
  - exists lx. now rewrite app_nil_r.
  - eexists. split; reflexivity.
  - exists lx. now rewrite app_nil_r.
Qed.

Lemma for_each_load_entry l : forall lx,
  if forallb entry_ok l
  then exists lx', for_each l load_entry lx = Ok lx'
                   /\ shaw_words lx' = shaw_words lx ++ flat_map entry_words l
  else exists e, for_each l load_entry lx = Raise e.
Proof.
  induction l as [|[e|] l IH]; intros lx; simpl.
  - exists lx. now rewrite app_nil_r.
  - destruct (load_entry_object lx e) as (lx1 & E & Hw).
    simpl in E. rewrite E. simpl.
    specialize (IH lx1). destruct (forallb entry_ok l).
    + destruct IH as (lx' & -> & Hw'). exists lx'. split; [reflexivity|].
      rewrite Hw', Hw. now rewrite <- app_assoc.
    + exact IH.
  - eexists. reflexivity.
Qed.

Lemma for_each_load_entries items : forall lx,
  if forallb entries_ok items
  then exists lx', for_each items load_entries lx = Ok lx'
                   /\ shaw_words lx' = shaw_words lx ++ flat_map entries_words items
  else exists e, for_each items load_entries lx = Raise e.
Proof.
  induction items as [|[k [l|]] items IH]; intros lx; simpl.
  - exists lx. now rewrite app_nil_r.
  - unfold load_entries, entries_ok, entries_words in *. simpl.
    pose proof (for_each_load_entry l lx) as Hl.
    destruct (forallb entry_ok l); simpl.
    + destruct Hl as (lx1 & -> & Hw). simpl.
      specialize (IH lx1). destruct (forallb _ items).
      * destruct IH as (lx' & E' & Hw'). exists lx'. split; [exact E'|].
        rewrite Hw', Hw. now rewrite <- app_assoc.
      * exact IH.
    + destruct Hl as (e & ->). eexists. reflexivity.
  - eexists. reflexivity.
Qed.

(** C4, as the code has it.  [load_words] raises when the file cannot be
    read, is not JSON, is not an object, has a value that cannot be
    iterated or an entry that is not an object; then nothing is loaded.
    Otherwise it succeeds, and an entry without a (non-empty) [Shaw]
    field is skipped: the words loaded are the non-empty [Shaw] fields in
    document order. *)
Theorem load_words_fails_on_shape_only :
  load_words Unreadable = Raise OSError
  /\ load_words NotJSON = Raise JSONDecodeError
  /\ load_words (Parsed DocNotObject) = Raise AttributeError
  /\ forall items,
       if forallb entries_ok items
       then exists lx, load_words (Parsed (DocObject items)) = Ok lx
                       /\ shaw_words lx = flat_map entries_words items
       else exists e, load_words (Parsed (DocObject items)) = Raise e.
Proof.
  repeat split.
  intros items. simpl.
  pose proof (for_each_load_entries items (mkLexicon [] [])) as H.
  destruct (forallb entries_ok items); exact H.
Qed.

(** C4 fails as stated: a document with an entry lacking the word field
    loads, that entry being skipped. *)
Lemma load_words_skips_entry_without_word :
  load_words source_missing_word
  = Ok (mkLexicon [[97%N; 98%N]] [([97%N; 98%N], [])])
  /\ forall e, load_words source_missing_word <> Raise e.
Proof. split; [reflexivity | intros e; discriminate]. Qed.

(** ** Counters count *)

Lemma counter_get_update c s l :
  counter_get (counter_update c s) l
  = (counter_get c l + Z.of_nat (count_occ letter_eq_dec s l))%Z.
Proof.
  unfold counter_update. revert c.
  induction s as [|x s IH]; intros c; simpl; [lia|].
  rewrite IH, counter_get_set.
  destruct (letter_eq_dec x l); subst; lia.
Qed.

Lemma counter_get_of s l :
  counter_get (counter_of s) l = Z.of_nat (count_occ letter_eq_dec s l).
Proof. unfold counter_of. now rewrite counter_get_update. Qed.

Lemma dict_keys_set_present c l v :
  In l (dict_keys c) -> dict_keys (counter_set c l v) = dict_keys c.
Proof.
  unfold counter_set, dict_keys.
  induction c as [|[k u] c IH]; simpl; [tauto|].
  intros H. destruct (letter_eq_dec l k) as [->|Hne]; simpl; [reflexivity|].
  f_equal. apply IH. destruct H; [congruence | assumption].
Qed.

Lemma dict_keys_set_absent c l v :
  ~ In l (dict_keys c) -> dict_keys (counter_set c l v) = dict_keys c ++ [l].
Proof.
  unfold counter_set, dict_keys.
  induction c as [|[k u] c IH]; simpl; [reflexivity|].
  intros H. destruct (letter_eq_dec l k) as [->|Hne]; simpl; [tauto|].
  f_equal. apply IH. tauto.
Qed.

Lemma NoDup_keys_set c l v :
  NoDup (dict_keys c) -> NoDup (dict_keys (counter_set c l v)).
Proof.
  intros H.
  destruct (in_dec letter_eq_dec l (dict_keys c)) as [Hin|Hn].
  - now rewrite dict_keys_set_present.
  - rewrite dict_keys_set_absent by assumption.
    apply NoDup_app; auto.
    + repeat constructor. intros [].
    + intros x Hx [<-|[]]. auto.
Qed.

Lemma NoDup_keys_update c s :
  NoDup (dict_keys c) -> NoDup (dict_keys (counter_update c s)).
Proof.
  unfold counter_update. revert c.
  induction s as [|x s IH]; intros c H; simpl; auto.
  apply IH, NoDup_keys_set, H.
Qed.

Lemma counter_get_absent c l : ~ In l (dict_keys c) -> counter_get c l = 0%Z.
Proof.
  unfold counter_get, dict_get, dict_keys.
  induction c as [|[k u] c IH]; simpl; intros H; auto.
  destruct (letter_eq_dec l k); [subst; tauto | auto].
Qed.

Lemma count_occ_repeat (x l : letter) n :
  count_occ letter_eq_dec (repeat x n) l = if letter_eq_dec x l then n else 0.
Proof.
  induction n as [|n IH]; simpl.
  - now destruct (letter_eq_dec x l).
  - rewrite IH. now destruct (letter_eq_dec x l).
Qed.

Lemma count_occ_rebuild c l :
  NoDup (dict_keys c) ->
  count_occ letter_eq_dec (rebuild_letters c) l = Z.to_nat (counter_get c l).
Proof.
  unfold rebuild_letters.
  induction c as [|[k v] c IH]; simpl; intros H; [reflexivity|].
  inversion H as [|? ? Hk Hc]; subst.
  rewrite count_occ_app, IH by assumption.
  unfold counter_get, dict_get. simpl.
  destruct (letter_eq_dec l k) as [->|Hne].
  - fold (dict_get letter_eq_dec c k 0%Z). fold (counter_get c k).
    rewrite (counter_get_absent c k Hk).
    destruct (0 <? v)%Z eqn:Hv.
    + rewrite count_occ_repeat. destruct (letter_eq_dec k k); [lia|congruence].
    + apply Z.ltb_ge in Hv. simpl. lia.
  - destruct (0 <? v)%Z.
    + rewrite count_occ_repeat. destruct (letter_eq_dec k l); [congruence|reflexivity].
    + reflexivity.
Qed.

(** ** Starter words *)

Lemma subtract_letters_covered s : forall c,
  NoDup (dict_keys c) ->
  (forall l, (Z.of_nat (count_occ letter_eq_dec s l) <= counter_get c l)%Z) ->
  exists c', subtract_letters c s = inr c'
             /\ NoDup (dict_keys c')
             /\ forall l, counter_get c' l
                          = (counter_get c l - Z.of_nat (count_occ letter_eq_dec s l))%Z.
Proof.
  induction s as [|x s IH]; intros c Hnd Hcov; simpl.
  - exists c. repeat split; auto. intros l. lia.
  - pose proof (Hcov x) as Hx. simpl in Hx.
    destruct (letter_eq_dec x x); [|congruence].
    destruct (0 <? counter_get c x)%Z eqn:Hpos; [|apply Z.ltb_ge in Hpos; lia].
    destruct (IH (counter_set c x (counter_get c x - 1))) as (c' & -> & Hnd' & Hget).
    + now apply NoDup_keys_set.
    + intros l. rewrite counter_get_set. specialize (Hcov l). simpl in Hcov.
      destruct (letter_eq_dec x l); subst; lia.
    + exists c'. repeat split; auto.
      intros l. rewrite Hget, counter_get_set.
      destruct (letter_eq_dec x l); subst; lia.
Qed.

Lemma subtract_letters_short s : forall c,
  (forall l, (0 <= counter_get c l)%Z) ->
  (exists l, (counter_get c l < Z.of_nat (count_occ letter_eq_dec s l))%Z) ->
  subtract_letters c s = inl (SystemExit 1).
Proof.
  induction s as [|x s IH]; intros c Hnn [l Hl]; simpl in *.
  - specialize (Hnn l). lia.
  - destruct (0 <? counter_get c x)%Z eqn:Hpos; [|reflexivity].
    apply Z.ltb_lt in Hpos. apply IH.
    + intros l'. rewrite counter_get_set.
      destruct (letter_eq_dec x l'); [lia | apply Hnn].
    + exists l. rewrite counter_get_set.
      destruct (letter_eq_dec x l); subst; lia.
Qed.

(** C9. When [--starter-words] is given, with [t] the target letters
    ([--letters] without whitespace, or the 48 letters) and [sw] the
    starter letters without whitespace: if every letter occurs in [sw] at
    most as often as in [t], no exit happens and the letters handed to
    [solve_pangram] are [t] minus [sw], letter for letter; if some letter
    occurs in [sw] more often than in [t], the program exits with status 1
    before any solver call. *)
Theorem starter_words_subtracted_or_rejected
  (letters : option word) (c : letter) (s : word) :
  let t := match letters with
           | Some x => strip_whitespace x
           | None => shavian_alphabet
           end in
  let sw := strip_whitespace (c :: s) in
  ((forall l, count_occ letter_eq_dec sw l <= count_occ letter_eq_dec t l) ->
   exists t', prepare_target letters (Some (c :: s)) = inr (Some t')
              /\ forall l, count_occ letter_eq_dec t' l
                           = count_occ letter_eq_dec t l
                             - count_occ letter_eq_dec sw l)
  /\ ((exists l, count_occ letter_eq_dec t l < count_occ letter_eq_dec sw l) ->
      prepare_target letters (Some (c :: s)) = inl (SystemExit 1)).
Proof.
  intros t sw.
  assert (Ht : target_or_default
                 match letters with
                 | Some (c0 :: s0) => Some (strip_whitespace (c0 :: s0))
                 | other => other
                 end = t).
  { subst t. destruct letters as [[|c0 s0]|]; reflexivity. }
  unfold prepare_target. rewrite Ht. fold sw. split.
  - intros Hcov.
    destruct (@subtract_letters_covered sw (counter_of t)) as (c' & -> & Hnd & Hget).
    + apply NoDup_keys_update. constructor.
    + intros l. rewrite counter_get_of. specialize (Hcov l). lia.
    + eexists. split; [reflexivity|].
      intros l. rewrite count_occ_rebuild, Hget, counter_get_of by assumption.
      specialize (Hcov l). lia.
  - intros [l Hl]. rewrite subtract_letters_short; auto.
    + intros l'. rewrite counter_get_of. lia.
    + exists l. rewrite counter_get_of. lia.
Qed.

Lemma starter_words_subtracted_or_rejected_witness :
  exists t', prepare_target (Some [97%N; 98%N; 32%N; 97%N]) (Some [32%N; 97%N])
             = inr (Some t')
             /\ count_occ letter_eq_dec t' 97%N = 1.
Proof.
  destruct (proj1 (starter_words_subtracted_or_rejected
                     (Some [97%N; 98%N; 32%N; 97%N]) 32%N [97%N]))
    as (t' & E & Hc).
  - intros l.
    change (strip_whitespace [32%N; 97%N]) with [97%N].
    change (strip_whitespace [97%N; 98%N; 32%N; 97%N]) with [97%N; 98%N; 97%N].
    cbn [count_occ].
    destruct (letter_eq_dec 97%N l); destruct (letter_eq_dec 98%N l); lia.
  - exists t'. split; [exact E|]. rewrite Hc. reflexivity.
Defined.

(** ** The stable sort *)

Section SortFacts.
Context {A : Type}.
Variable le : A -> A -> bool.

Lemma insert_sorted_perm x l : Permutation (insert_sorted le x l) (x :: l).
Proof.
  induction l as [|y l IH]; simpl; [reflexivity|].
  destruct (le x y); [reflexivity|].
  rewrite IH. apply perm_swap.
Qed.

Lemma sorted_perm l : Permutation (sorted le l) l.
Proof.
  induction l as [|x l IH]; simpl; [reflexivity|].
  rewrite insert_sorted_perm. now constructor.
Qed.

Hypothesis le_total : forall x y, le x y = false -> le y x = true.
Hypothesis le_trans : forall x y z, le x y = true -> le y z = true -> le x z = true.

Lemma insert_sorted_sorted x l :
  StronglySorted (fun a b => le a b = true) l ->
  StronglySorted (fun a b => le a b = true) (insert_sorted le x l).
Proof.
  induction 1 as [|y l Hs IH Hy]; simpl.
  - repeat constructor.
  - destruct (le x y) eqn:E.
    + constructor; [now constructor|].
      constructor; [exact E|].
      eapply Forall_impl; [|exact Hy]. intros z Hz. eauto.
    + constructor; [exact IH|].
      eapply Permutation_Forall; [symmetry; apply insert_sorted_perm|].
      constructor; auto.
Qed.

Lemma sorted_sorted l : StronglySorted (fun a b => le a b = true) (sorted le l).
Proof.
  induction l as [|x l IH]; simpl; [constructor|].
  now apply insert_sorted_sorted.
Qed.
End SortFacts.

Lemma StronglySorted_app {A} (R : A -> A -> Prop) l1 l2 :
  StronglySorted R l1 -> StronglySorted R l2 ->
  (forall x y, In x l1 -> In y l2 -> R x y) ->
  StronglySorted R (l1 ++ l2).
Proof.
  induction 1 as [|x l1 Hs IH Hx]; simpl; intros H2 H12; [exact H2|].
  constructor.
  - apply IH; auto.
  - apply Forall_app. split; [exact Hx|].
    apply Forall_forall. intros y Hy. apply H12; simpl; auto.
Qed.

Lemma StronglySorted_rev {A} (R : A -> A -> Prop) l :
  StronglySorted R l -> StronglySorted (fun a b => R b a) (rev l).
Proof.
  induction 1 as [|x l Hs IH Hx]; simpl; [constructor|].
  apply StronglySorted_app; [exact IH | repeat constructor |].
  intros a b Ha [<-|[]]. apply in_rev in Ha.
  rewrite Forall_forall in Hx. now apply Hx.
Qed.

Lemma StronglySorted_weaken {A} (R S : A -> A -> Prop) l :
  (forall a b, R a b -> S a b) -> StronglySorted R l -> StronglySorted S l.
Proof.
  intros HRS. induction 1 as [|x l Hs IH Hx]; constructor; auto.
  eapply Forall_impl; [|exact Hx]. auto.
Qed.

Lemma StronglySorted_map {A B} (f : A -> B) (R : B -> B -> Prop) l :
  StronglySorted (fun a b => R (f a) (f b)) l -> StronglySorted R (map f l).
Proof.
  induction 1 as [|x l Hs IH Hx]; simpl; constructor; auto.
  rewrite Forall_map. exact Hx.
Qed.

(** Two sorted arrangements of the same elements are the same list when
    the order separates distinct elements. *)
Lemma sorted_unique {A} (R : A -> A -> Prop) (l1 : list A) : forall l2,
  (forall x y, In x l1 -> In y l1 -> R x y -> R y x -> x = y) ->
  StronglySorted R l1 -> StronglySorted R l2 -> Permutation l1 l2 -> l1 = l2.
Proof.
  induction l1 as [|x l1 IH]; intros l2 Hanti H1 H2 Hp.
  - apply Permutation_nil in Hp. now subst.
  - destruct l2 as [|y l2]; [symmetry in Hp; now apply Permutation_nil in Hp|].
    inversion H1 as [|? ? Hs1 Hx]; inversion H2 as [|? ? Hs2 Hy]; subst.
    rewrite Forall_forall in Hx, Hy.
    assert (x = y) as <-.
    { assert (Hyin : In y (x :: l1))
        by (eapply Permutation_in; [symmetry; exact Hp | now left]).
      assert (Hxin : In x (y :: l2))
        by (eapply Permutation_in; [exact Hp | now left]).
      destruct Hyin as [|Hyin]; [assumption|].
      destruct Hxin as [|Hxin]; [congruence|].
      apply Hanti; simpl; auto. }
    f_equal. apply IH; auto.
    + intros a b Ha Hb. apply Hanti; simpl; auto.
    + now apply Permutation_cons_inv in Hp.
Qed.

(** ** [build_trie], steps 1 and 2 *)

Lemma counter_update_app c a b :
  counter_update c (a ++ b) = counter_update (counter_update c a) b.
Proof. unfold counter_update. apply fold_left_app. Qed.

Lemma histogram_fold lx t ew ep ws : forall c f,
  fold_left (histogram_step lx t ew ep) ws (c, f)
  = (counter_update c (concat (filter (keeps lx t ew ep) ws)),
     f ++ filter (keeps lx t ew ep) ws).
Proof.
  induction ws as [|w ws IH]; intros c f; simpl.
  - now rewrite app_nil_r.
  - unfold histogram_step at 2. simpl.
    destruct (keeps lx t ew ep w); rewrite IH; simpl.
    + now rewrite counter_update_app, <- app_assoc.
    + reflexivity.
Qed.

Lemma histogram_spec lx t ew ep :
  histogram lx t ew ep
  = (counter_of (concat (filter (keeps lx t ew ep) (shaw_words lx))),
     filter (keeps lx t ew ep) (shaw_words lx)).
Proof. unfold histogram. now rewrite histogram_fold. Qed.

Lemma filtered_words_spec self t ew ep :
  filtered_words self t ew ep
  = filter (keeps (lexicon self) t (option_set ew) (option_set ep))
      (shaw_words (lexicon self)).
Proof. unfold filtered_words. now rewrite histogram_spec. Qed.

Lemma letter_order_spec self t ew ep :
  letter_order (build_trie self t ew ep)
  = rarest_first (counter_of (concat (filtered_words self t ew ep))).
Proof.
  rewrite filtered_words_spec. unfold build_trie.
  rewrite histogram_spec. reflexivity.
Qed.

Lemma key_to_words_spec self t ew ep :
  key_to_words (build_trie self t ew ep)
  = group_by_key (letter_order (build_trie self t ew ep))
      (filtered_words self t ew ep).
Proof.
  rewrite filtered_words_spec. unfold build_trie.
  rewrite histogram_spec. reflexivity.
Qed.

Lemma trie_spec self t ew ep :
  trie (build_trie self t ew ep)
  = _sort_trie_children (letter_order (build_trie self t ew ep))
      (fold_left _add_key_to_trie
         (dict_keys (key_to_words (build_trie self t ew ep))) new_node).
Proof. unfold build_trie. rewrite histogram_spec. reflexivity. Qed.

Lemma in_keys_update c s l :
  In l (dict_keys (counter_update c s)) <-> In l (dict_keys c) \/ In l s.
Proof.
  unfold counter_update. revert c.
  induction s as [|x s IH]; intros c; simpl; [tauto|].
  rewrite IH.
  destruct (in_dec letter_eq_dec x (dict_keys c)) as [Hin|Hn].
  - rewrite dict_keys_set_present by assumption.
    split; [tauto|]. intros [H|[<-|H]]; auto.
  - rewrite dict_keys_set_absent, in_app_iff by assumption. simpl. tauto.
Qed.

Lemma counter_get_in c l v :
  NoDup (dict_keys c) -> In (l, v) c -> counter_get c l = v.
Proof.
  unfold counter_get, dict_get, dict_keys.
  induction c as [|[k u] c IH]; simpl; intros Hnd Hin; [tauto|].
  inversion Hnd as [|? ? Hk Hc]; subst.
  destruct Hin as [E|Hin].
  - inversion E; subst. destruct (letter_eq_dec l l); congruence.
  - destruct (letter_eq_dec l k) as [->|]; [|auto].
    exfalso. apply Hk. change k with (fst (k, v)). now apply in_map.
Qed.

Lemma rarest_first_perm c : Permutation (rarest_first c) (dict_keys c).
Proof.
  unfold rarest_first, most_common, sorted_by_key_reverse, dict_keys.
  rewrite <- Permutation_rev. apply Permutation_map, sorted_perm.
Qed.

Lemma rarest_first_sorted c :
  NoDup (dict_keys c) ->
  StronglySorted (fun a b => (counter_get c a <= counter_get c b)%Z)
    (rarest_first c).
Proof.
  intros Hnd. unfold rarest_first.
  apply (@StronglySorted_rev _ (fun a b => (counter_get c b <= counter_get c a)%Z)).
  apply StronglySorted_map.
  assert (Hs : StronglySorted (fun x y : letter * Z => (snd y <=? snd x)%Z = true)
                 (most_common c)).
  { apply sorted_sorted.
    - intros x y H. apply Z.leb_gt in H. apply Z.leb_le. lia.
    - intros x y z H1 H2. apply Z.leb_le in H1, H2. apply Z.leb_le. lia. }
  assert (Hin : forall x, In x (most_common c) -> counter_get c (fst x) = snd x).
  { intros [l v] Hx. apply counter_get_in; auto.
    eapply Permutation_in; [apply sorted_perm | exact Hx]. }
  induction Hs as [|x l Hs IH Hx]; constructor.
  - apply IH. intros y Hy. apply Hin. now right.
  - rewrite Forall_forall in *. intros y Hy.
    rewrite (Hin x), (Hin y) by (simpl; auto).
    apply Z.leb_le. now apply Hx.
Qed.

Lemma count_occ_concat ws l :
  count_occ letter_eq_dec (concat ws) l = occurrences ws l.
Proof.
  unfold occurrences.
  induction ws as [|w ws IH]; simpl; [reflexivity|].
  now rewrite count_occ_app, IH.
Qed.

(** C7. After [build_trie], [letter_order] has no repeated letter, holds
    exactly the letters of the filtered words, and is in ascending order
    of the number of occurrences of each letter across the filtered
    words, counted with multiplicity. *)
Theorem letter_order_is_rarity_order
  (self : PangramSolver) (target_letters : list letter)
  (exclude_words : option (list word)) (exclude_pos : option (list tag)) :
  let order :=
    letter_order (build_trie self target_letters exclude_words exclude_pos) in
  let pool := filtered_words self target_letters exclude_words exclude_pos in
  NoDup order
  /\ (forall l, In l order <-> exists w, In w pool /\ In l w)
  /\ StronglySorted (fun a b => occurrences pool a <= occurrences pool b) order.
Proof.
  intros order pool. subst order. rewrite letter_order_spec. fold pool.
  set (c := counter_of (concat pool)).
  assert (Hnd : NoDup (dict_keys c)) by (apply NoDup_keys_update; constructor).
  split; [|split].
  - eapply Permutation_NoDup; [symmetry; apply rarest_first_perm | exact Hnd].
  - intros l.
    assert (In l (rarest_first c) <-> In l (dict_keys c)) as ->.
    { split; apply Permutation_in;
        [apply rarest_first_perm | symmetry; apply rarest_first_perm]. }
    unfold c, counter_of. rewrite in_keys_update, in_concat. simpl.
    split.
    + intros [[]|(w & Hw & Hl)]. eauto.
    + intros (w & Hw & Hl). right. eauto.
  - eapply StronglySorted_weaken; [|apply rarest_first_sorted, Hnd].
    intros a b. unfold c. rewrite !counter_get_of, !count_occ_concat. lia.
Qed.

(** ** Keys *)

Lemma in_letter_order self t ew ep l :
  In l (letter_order (build_trie self t ew ep))
  <-> exists w, In w (filtered_words self t ew ep) /\ In l w.
Proof.
  rewrite letter_order_spec.
  set (pool := filtered_words self t ew ep).
  assert (In l (rarest_first (counter_of (concat pool)))
          <-> In l (dict_keys (counter_of (concat pool)))) as ->.
  { split; apply Permutation_in;
      [apply rarest_first_perm | symmetry; apply rarest_first_perm]. }
  unfold counter_of. rewrite in_keys_update, in_concat. simpl.
  split.
  - intros [[]|(w & Hw & Hl)]. eauto.
  - intros (w & Hw & Hl). right. eauto.
Qed.

Lemma rarity_key_perm order w : Permutation (rarity_key order w) w.
Proof. apply sorted_perm. Qed.

Lemma index_of_inj order a b :
  In a order -> In b order -> index_of a order = index_of b order -> a = b.
Proof.
  induction order as [|x order IH]; simpl; [tauto|].
  intros Ha Hb.
  destruct (letter_eq_dec a x) as [->|Hax], (letter_eq_dec b x) as [->|Hbx];
    try congruence; try discriminate.
  intros E. injection E as E.
  apply IH; auto; [destruct Ha | destruct Hb]; congruence.
Qed.

Lemma rarity_rank_inj order a b :
  In a order -> In b order -> rarity_rank order a = rarity_rank order b -> a = b.
Proof.
  unfold rarity_rank, mem. intros Ha Hb.
  destruct (in_dec letter_eq_dec a order); [|tauto].
  destruct (in_dec letter_eq_dec b order); [|tauto].
  now apply index_of_inj.
Qed.

Lemma rarity_key_sorted order w :
  StronglySorted (fun a b => (rarity_rank order a <=? rarity_rank order b) = true)
    (rarity_key order w).
Proof.
  apply sorted_sorted.
  - intros x y H. apply Nat.leb_gt in H. apply Nat.leb_le. lia.
  - intros x y z H1 H2. apply Nat.leb_le in H1, H2. apply Nat.leb_le. lia.
Qed.

(** Anagrams made of ranked letters have the same key. *)
Lemma rarity_key_anagram order w1 w2 :
  (forall l, In l w1 -> In l order) ->
  Permutation w1 w2 -> rarity_key order w1 = rarity_key order w2.
Proof.
  intros Hin Hp.
  apply sorted_unique
    with (R := fun a b => (rarity_rank order a <=? rarity_rank order b) = true).
  - intros x y Hx Hy H1 H2. apply Nat.leb_le in H1, H2.
    apply (@rarity_rank_inj order).
    + apply Hin. eapply Permutation_in; [apply rarity_key_perm | exact Hx].
    + apply Hin. eapply Permutation_in; [apply rarity_key_perm | exact Hy].
    + lia.
  - apply rarity_key_sorted.
  - apply rarity_key_sorted.
  - rewrite !rarity_key_perm. exact Hp.
Qed.

(** C6. Two words of the filtered pool get the same rarity-sorted key in
    [build_trie] exactly when they are anagrams of each other. *)
Theorem same_key_iff_anagram
  (self : PangramSolver) (target_letters : list letter)
  (exclude_words : option (list word)) (exclude_pos : option (list tag))
  (w1 w2 : word) :
  let order :=
    letter_order (build_trie self target_letters exclude_words exclude_pos) in
  let pool := filtered_words self target_letters exclude_words exclude_pos in
  In w1 pool -> In w2 pool ->
  (rarity_key order w1 = rarity_key order w2 <-> Permutation w1 w2).
Proof.
  intros order pool H1 H2. split.
  - intros E. rewrite <- (rarity_key_perm order w1), E. apply rarity_key_perm.
  - apply rarity_key_anagram. intros l Hl.
    apply in_letter_order. eauto.
Qed.

Lemma same_key_iff_anagram_witness :
  rarity_key
    (letter_order (build_trie (solver_of_words [[97%N; 98%N]; [98%N; 97%N]; [98%N]])
                     [97%N; 98%N] None None))
    [97%N; 98%N]
  = rarity_key
      (letter_order (build_trie (solver_of_words [[97%N; 98%N]; [98%N; 97%N]; [98%N]])
                       [97%N; 98%N] None None))
      [98%N; 97%N].
Proof.
  apply (same_key_iff_anagram
           (solver_of_words [[97%N; 98%N]; [98%N; 97%N]; [98%N]])
           [97%N; 98%N] None None [97%N; 98%N] [98%N; 97%N]).
  - vm_compute. auto.
  - vm_compute. auto.
  - apply perm_swap.
Defined.

(** ** Dictionaries *)

Section DictFacts.
Context {K V : Type}.
Variable eq_dec : forall a b : K, {a = b} + {a <> b}.
Implicit Types (d : dict K V) (k : K) (v : V).

Lemma dict_lookup_set d k v k' :
  dict_lookup eq_dec (dict_set eq_dec d k v) k'
  = if eq_dec k' k then Some v else dict_lookup eq_dec d k'.
Proof.
  induction d as [|[k0 v0] d IH]; simpl.
  - reflexivity.
  - destruct (eq_dec k k0) as [->|Hne]; simpl.
    + destruct (eq_dec k' k0); reflexivity.
    + rewrite IH. destruct (eq_dec k' k0) as [->|]; [|reflexivity].
      destruct (eq_dec k0 k); congruence.
Qed.

Lemma dict_lookup_in d k v : dict_lookup eq_dec d k = Some v -> In (k, v) d.
Proof.
  induction d as [|[k0 v0] d IH]; simpl; [discriminate|].
  destruct (eq_dec k k0) as [->|]; intros H.
  - injection H as ->. now left.
  - right. auto.
Qed.

Lemma dict_lookup_map {W} (f : V -> W) d k :
  dict_lookup eq_dec (map (fun kv => (fst kv, f (snd kv))) d) k
  = option_map f (dict_lookup eq_dec d k).
Proof.
  induction d as [|[k0 v0] d IH]; simpl; [reflexivity|].
  destruct (eq_dec k k0); [reflexivity | exact IH].
Qed.

Lemma in_dict_keys_set d k v k' :
  In k' (dict_keys (dict_set eq_dec d k v)) <-> k' = k \/ In k' (dict_keys d).
Proof.
  unfold dict_keys.
  induction d as [|[k0 v0] d IH]; simpl.
  - intuition.
  - destruct (eq_dec k k0) as [->|Hne]; simpl.
    + intuition.
    + rewrite IH. intuition.
Qed.

Lemma Forall_dict_set (P : K * V -> Prop) d k v :
  Forall P d -> P (k, v) -> Forall P (dict_set eq_dec d k v).
Proof.
  intros Hd Hk. induction Hd as [|[k0 v0] d H0 Hd IH]; simpl.
  - auto.
  - destruct (eq_dec k k0) as [->|]; constructor; auto.
Qed.
End DictFacts.

(** ** [build_trie], step 3 *)

Section Groups.
Variable order : list letter.
Variable pool : list word.

Local Abbreviation groups_sound := (groups_sound order pool).

Lemma in_set_add_word x s w : In w (set_add_word x s) -> w = x \/ In w s.
Proof.
  unfold set_add_word, mem.
  destruct (in_dec word_eq_dec x s); [auto|].
  rewrite in_app_iff. simpl. intros [H|[H|[]]]; auto.
Qed.

Lemma group_step_sound sets w :
  In w pool -> groups_sound sets -> groups_sound (group_step order sets w).
Proof.
  intros Hw [Hl Hk]. unfold group_step.
  set (k := rarity_key order w).
  set (sets1 := match dict_lookup word_eq_dec sets k with
                | Some _ => sets
                | None => dict_set word_eq_dec sets k []
                end).
  assert (H1 : forall k' ws, dict_lookup word_eq_dec sets1 k' = Some ws ->
                             forall w', In w' ws ->
                                        In w' pool /\ rarity_key order w' = k').
  { subst sets1. intros k' ws.
    destruct (dict_lookup word_eq_dec sets k) eqn:E; [apply Hl|].
    rewrite dict_lookup_set. destruct (word_eq_dec k' k).
    - intros [= <-] w' [].
    - apply Hl. }
  assert (H2 : forall k', In k' (dict_keys sets1) ->
                          k' = k \/ In k' (dict_keys sets)).
  { subst sets1. intros k'.
    destruct (dict_lookup word_eq_dec sets k); [auto|].
    rewrite in_dict_keys_set. auto. }
  split.
  - intros k' ws. rewrite dict_lookup_set.
    destruct (word_eq_dec k' k) as [->|]; [|apply H1].
    intros [= <-] w' Hw'. apply in_set_add_word in Hw' as [->|Hw'].
    + auto.
    + unfold dict_get in Hw'.
      destruct (dict_lookup word_eq_dec sets1 k) eqn:E; [|destruct Hw'].
      eapply H1; eauto.
  - intros k'. rewrite in_dict_keys_set. intros [->|Hin].
    + exists w. auto.
    + apply H2 in Hin as [->|Hin]; [exists w; auto | auto].
Qed.

Lemma group_fold_sound ws : forall sets,
  (forall w, In w ws -> In w pool) -> groups_sound sets ->
  groups_sound (fold_left (group_step order) ws sets).
Proof.
  induction ws as [|w ws IH]; intros sets Hin Hs; simpl; [exact Hs|].
  apply IH; [intros; apply Hin; now right|].
  apply group_step_sound; [apply Hin; now left | exact Hs].
Qed.

Lemma group_by_key_sound :
  (forall k w, In w (dict_get word_eq_dec (group_by_key order pool) k []) ->
               In w pool /\ rarity_key order w = k)
  /\ (forall k, In k (dict_keys (group_by_key order pool)) ->
                exists w, In w pool /\ rarity_key order w = k).
Proof.
  destruct (@group_fold_sound pool []) as [Hl Hk]; [auto | |].
  { split; [discriminate | intros k []]. }
  unfold group_by_key. split.
  - intros k w. unfold dict_get. rewrite dict_lookup_map.
    destruct (dict_lookup word_eq_dec _ k) as [ws|] eqn:E; simpl; [|tauto].
    intros Hw. apply (Hl k ws E).
    eapply Permutation_in; [apply sorted_perm | exact Hw].
  - intros k. unfold dict_keys. rewrite map_map. simpl. apply Hk.
Qed.
End Groups.

Lemma keeps_passes lx t ew ep w :
  keeps lx t ew ep w = true -> passes_filter lx t ew ep w.
Proof.
  unfold keeps, passes_filter, mem.
  destruct (in_dec word_eq_dec w ew) as [|Hew]; [discriminate|].
  destruct (_ && _) eqn:Hpos; [discriminate|].
  intros Hsub. repeat split; auto.
  - intros l Hl. unfold issubset in Hsub. rewrite forallb_forall in Hsub.
    specialize (Hsub l Hl). unfold mem in Hsub.
    now destruct (in_dec letter_eq_dec l t).
  - intros p Hp Hin.
    apply andb_false_iff in Hpos as [Hnil|Hint].
    + destruct ep; [destruct Hin | discriminate].
    + unfold intersects in Hint.
      assert (existsb (fun x => mem word_eq_dec x ep)
                (dict_get word_eq_dec (shaw_to_pos lx) w []) = true); [|congruence].
      apply existsb_exists. exists p. split; [exact Hp|].
      unfold mem. now destruct (in_dec word_eq_dec p ep).
Qed.

Lemma group_word_in_pool self t ew ep k w :
  In w (group_of (build_trie self t ew ep) k) ->
  In w (filtered_words self t ew ep)
  /\ rarity_key (letter_order (build_trie self t ew ep)) w = k.
Proof.
  unfold group_of. rewrite key_to_words_spec. apply group_by_key_sound.
Qed.

Lemma pool_passes_filter self t ew ep w :
  In w (filtered_words self t ew ep) ->
  passes_filter (lexicon self) t (option_set ew) (option_set ep) w.
Proof.
  rewrite filtered_words_spec, filter_In. intros [_ H]. now apply keeps_passes.
Qed.

(** ** [build_trie], steps 4 and 5: the keys of the trie *)

Lemma wf_new_node prefix : wf_trie prefix new_node.
Proof. constructor; [discriminate | constructor]. Qed.

Lemma wf_children prefix node l child :
  wf_trie prefix node ->
  dict_lookup letter_eq_dec (children node) l = Some child ->
  wf_trie (prefix ++ [l]) child.
Proof.
  intros Hwf Hl. inversion Hwf as [? ch w k Hk Hch]; subst. simpl in Hl.
  apply dict_lookup_in in Hl. rewrite Forall_forall in Hch.
  apply (Hch (l, child) Hl).
Qed.

Lemma wf_add_key rest : forall prefix node,
  wf_trie prefix node -> wf_trie prefix (add_key_from (prefix ++ rest) rest node).
Proof.
  induction rest as [|l rest IH]; intros prefix node Hwf; simpl.
  - rewrite app_nil_r. inversion Hwf; subst. constructor; auto.
  - inversion Hwf as [? ch w k Hk Hch]; subst. simpl.
    constructor; [exact Hk|].
    apply Forall_dict_set; [exact Hch|]. simpl.
    replace (prefix ++ l :: rest) with ((prefix ++ [l]) ++ rest)
      by (now rewrite <- app_assoc).
    apply IH.
    destruct (dict_lookup letter_eq_dec ch l) as [c|] eqn:E.
    + apply (wf_children l Hwf E).
    + apply wf_new_node.
Qed.

Lemma wf_fold_add_key keys : forall root,
  wf_trie [] root -> wf_trie [] (fold_left _add_key_to_trie keys root).
Proof.
  induction keys as [|k keys IH]; intros root Hwf; simpl; [exact Hwf|].
  apply IH. unfold _add_key_to_trie. apply (@wf_add_key k [] root Hwf).
Qed.

Lemma wf_sort order node : forall prefix,
  wf_trie prefix node -> wf_trie prefix (_sort_trie_children order node).
Proof.
  induction node as [ch w k IH] using TrieNode_ind.
  intros prefix Hwf. inversion Hwf as [? ? ? ? Hk Hch]; subst. simpl.
  constructor; [exact Hk|].
  eapply Permutation_Forall; [symmetry; apply sorted_perm|].
  rewrite Forall_map. simpl.
  rewrite Forall_forall in *. intros item Hitem.
  apply IH; auto.
Qed.

Lemma wf_build_trie self t ew ep : wf_trie [] (trie (build_trie self t ew ep)).
Proof.
  rewrite trie_spec. apply wf_sort, wf_fold_add_key, wf_new_node.
Qed.

(** ** The enumeration exhausts the multiset *)

Section EnumSound.
Variable self : PangramSolver.
Hypothesis trie_wf : wf_trie [] (trie self).

Section TrieSound.
Variable enum_rest : Counter -> list (list word).
Hypothesis rest_sound :
  forall rem ks, In ks (enum_rest rem) -> accounts self rem [] ks.

Lemma enum_word_sound node prefix rem ks :
  wf_trie prefix node ->
  In ks (enum_word self enum_rest node rem) ->
  accounts self rem prefix ks.
Proof.
  intros Hwf. unfold enum_word.
  inversion Hwf as [? ch w k Hk Hch]; subst. simpl.
  destruct w; [|intros []].
  rewrite (Hk eq_refl).
  destruct prefix as [|c p]; simpl; [intros []|].
  destruct (group_of self (c :: p)) as [|g gs] eqn:Eg; [intros []|].
  rewrite in_map_iff. intros (ks' & <- & Hin).
  destruct (rest_sound _ _ Hin) as [Hcount Hgroups].
  split.
  - intros l. specialize (Hcount l). simpl in Hcount.
    change (concat ((c :: p) :: ks')) with ((c :: p) ++ concat ks').
    rewrite count_occ_app. lia.
  - constructor; [congruence | exact Hgroups].
Qed.

Lemma enum_trie_sound node : forall prefix rem ks,
  wf_trie prefix node ->
  In ks (enum_trie self enum_rest node rem) ->
  accounts self rem prefix ks.
Proof.
  induction node as [ch w k IH] using TrieNode_ind.
  intros prefix rem ks Hwf. simpl. rewrite in_app_iff.
  intros [Hin|Hin]; [|eapply enum_word_sound; eassumption].
  apply in_flat_map in Hin as ([l child] & Hitem & Hin). simpl in Hin.
  destruct (0 <? counter_get rem l)%Z; [|destruct Hin].
  inversion Hwf as [? ? ? ? Hk Hch]; subst.
  rewrite Forall_forall in IH, Hch.
  destruct (IH _ Hitem _ _ _ (Hch _ Hitem) Hin) as [Hcount Hgroups].
  split; [|exact Hgroups].
  intros l'. specialize (Hcount l'). simpl in Hcount.
  rewrite counter_get_set, count_occ_app in Hcount. simpl in Hcount.
  destruct (letter_eq_dec l l'); subst; lia.
Qed.
End TrieSound.

Lemma enum_search_sound fuel : forall rem ks,
  In ks (enum_search self fuel rem) -> accounts self rem [] ks.
Proof.
  induction fuel as [|fuel IH]; intros rem ks; simpl; [intros []|].
  destruct (counter_any rem) eqn:Hany; simpl.
  - destruct (counter_total rem <=? 0)%Z; [intros []|].
    unfold enum_from_root.
    destruct (rarest_letter self rem) as [l|]; [|intros []].
    destruct (dict_lookup letter_eq_dec (children (trie self)) l)
      as [child|] eqn:El; [|intros []].
    intros Hin.
    apply (@enum_trie_sound (enum_search self fuel) IH child [l]) in Hin;
      [|apply (@wf_children [] (trie self) l child trie_wf El)].
    destruct Hin as [Hcount Hgroups]. split; [|exact Hgroups].
    intros l'. specialize (Hcount l'). rewrite counter_get_set in Hcount.
    simpl in *. destruct (letter_eq_dec l l'); subst; lia.
  - intros [<-|[]]. split; [|constructor].
    intros l. rewrite (counter_any_false rem Hany). reflexivity.
Qed.
End EnumSound.

Lemma in_firstn {A} n (l : list A) x : In x (firstn n l) -> In x l.
Proof.
  revert l. induction n as [|n IH]; intros [|y l]; simpl; try tauto.
  intros [H|H]; auto.
Qed.

Lemma in_capped {A} K (sols new : list A) x :
  In x (capped K sols new) -> In x sols \/ In x new.
Proof.
  unfold capped. destruct K; rewrite in_app_iff; [|tauto].
  intros [H|H]; [now left | right]. eapply in_firstn, H.
Qed.

(** Every solution returned by [solve_pangram] is the slots of some keys
    that account for the target counter. *)
Lemma solve_pangram_sound self target_letters K exclude_words exclude_pos :
  let t := target_or_default target_letters in
  let built := build_trie self t exclude_words exclude_pos in
  exists sols,
    solve_pangram self target_letters K exclude_words exclude_pos = Some sols
    /\ Forall (fun S => exists ks, S = map (slot_of_key built) ks
                                   /\ accounts built (counter_of t) [] ks) sols.
Proof.
  intros t built. rewrite solve_pangram_enum. fold t. fold built.
  eexists. split; [reflexivity|].
  destruct (children (trie built)); [constructor|].
  apply Forall_forall. intros S HS.
  apply in_capped in HS as [[]|HS].
  apply in_map_iff in HS as (ks & <- & Hks).
  exists ks. split; [reflexivity|].
  apply enum_search_sound in Hks; [exact Hks|].
  apply wf_build_trie.
Qed.

Lemma group_word_counts self t ew ep k w l :
  In w (group_of (build_trie self t ew ep) k) ->
  count_occ letter_eq_dec w l = count_occ letter_eq_dec k l.
Proof.
  intros Hw. apply group_word_in_pool in Hw as [_ <-].
  apply Permutation_count_occ. symmetry. apply rarity_key_perm.
Qed.

(** C1. [solve_pangram] returns, and each solution it returns is the
    slots of a sequence of keys, each with a non-empty group of words,
    such that whichever word is taken from each group, the letters of the
    chosen words together are exactly the target letters, with
    multiplicity. *)
Theorem solutions_exhaust_target_multiset
  (self : PangramSolver) (target_letters : option word) (K : option Z)
  (exclude_words : option (list word)) (exclude_pos : option (list tag)) :
  let t := target_or_default target_letters in
  let built := build_trie self t exclude_words exclude_pos in
  exists sols,
    solve_pangram self target_letters K exclude_words exclude_pos = Some sols
    /\ Forall
         (fun S =>
            exists ks,
              S = map (slot_of_key built) ks
              /\ Forall (fun k => group_of built k <> []) ks
              /\ forall ws,
                   Forall2 (fun k w => In w (group_of built k)) ks ws ->
                   Permutation (concat ws) t)
         sols.
Proof.
  intros t built.
  destruct (solve_pangram_sound self target_letters K exclude_words exclude_pos)
    as (sols & E & Hsols).
  exists sols. split; [exact E|].
  eapply Forall_impl; [|exact Hsols].
  intros S (ks & -> & Hcount & Hgroups). exists ks.
  split; [reflexivity|]. split; [exact Hgroups|].
  intros ws Hws. apply (Permutation_count_occ letter_eq_dec). intros l.
  specialize (Hcount l). rewrite counter_get_of in Hcount. simpl in Hcount.
  assert (count_occ letter_eq_dec (concat ws) l
          = count_occ letter_eq_dec (concat ks) l); [|fold t in Hcount; lia].
  clear Hcount Hgroups.
  induction Hws as [|k w ks ws Hw Hws IH]; simpl; [reflexivity|].
  rewrite !count_occ_app, IH. f_equal.
  eapply group_word_counts, Hw.
Qed.

(** C5. [solve_pangram] returns, and in each solution it returns every
    slot is that of a key with a non-empty group, all of whose words use
    target letters only, are not excluded words, and carry no excluded
    part-of-speech tag. *)
Theorem solution_words_pass_filter
  (self : PangramSolver) (target_letters : option word) (K : option Z)
  (exclude_words : option (list word)) (exclude_pos : option (list tag)) :
  let t := target_or_default target_letters in
  let built := build_trie self t exclude_words exclude_pos in
  exists sols,
    solve_pangram self target_letters K exclude_words exclude_pos = Some sols
    /\ Forall
         (fun S =>
            exists ks,
              S = map (slot_of_key built) ks
              /\ Forall
                   (fun k =>
                      group_of built k <> []
                      /\ forall w, In w (group_of built k) ->
                           passes_filter (lexicon self) t
                             (option_set exclude_words) (option_set exclude_pos) w)
                   ks)
         sols.
Proof.
  intros t built.
  destruct (solve_pangram_sound self target_letters K exclude_words exclude_pos)
    as (sols & E & Hsols).
  exists sols. split; [exact E|].
  eapply Forall_impl; [|exact Hsols].
  intros S (ks & -> & _ & Hgroups). exists ks.
  split; [reflexivity|].
  eapply Forall_impl; [|exact Hgroups].
  intros k Hk. split; [exact Hk|].
  intros w Hw. apply group_word_in_pool in Hw as [Hw _].
  now apply pool_passes_filter.
Qed.

(** ** The scan for the rarest letter *)

Lemma rarest_letter_spec self rem :
  match rarest_letter self rem with
  | Some l => In l (letter_order self) /\ (0 < counter_get rem l)%Z
  | None => forall l, In l (letter_order self) -> (counter_get rem l <= 0)%Z
  end.
Proof.
  unfold rarest_letter.
  destruct (find _ (letter_order self)) as [l|] eqn:E.
  - apply find_some in E as [Hin Hpos]. split; [exact Hin | now apply Z.ltb_lt].
  - intros l Hl. apply (find_none _ _ E) in Hl. now apply Z.ltb_ge.
Qed.

Lemma add_key_empty_children root k :
  k = [] -> children (_add_key_to_trie root k) = children root.
Proof. intros ->. reflexivity. Qed.

Lemma fold_add_empty_keys keys : forall root,
  (forall k, In k keys -> k = []) ->
  children (fold_left _add_key_to_trie keys root) = children root.
Proof.
  induction keys as [|k keys IH]; intros root H; simpl; [reflexivity|].
  rewrite IH by (intros; apply H; now right).
  apply add_key_empty_children, H. now left.
Qed.

Lemma no_letters_no_children self t ew ep :
  letter_order (build_trie self t ew ep) = [] ->
  children (trie (build_trie self t ew ep)) = [].
Proof.
  intros Horder. rewrite trie_spec.
  set (keys := dict_keys (key_to_words (build_trie self t ew ep))).
  assert (Hkeys : forall k, In k keys -> k = []).
  { subst keys. rewrite key_to_words_spec. intros k Hk.
    apply group_by_key_sound in Hk as (w & Hw & <-).
    destruct w as [|c w]; [reflexivity|].
    assert (In c (letter_order (build_trie self t ew ep)))
      by (apply in_letter_order; exists (c :: w); simpl; auto).
    rewrite Horder in *. contradiction. }
  destruct (fold_left _add_key_to_trie keys new_node) as [ch w k] eqn:E.
  assert (ch = []) as ->.
  { change ch with (children (mkNode ch w k)). rewrite <- E.
    now rewrite fold_add_empty_keys. }
  reflexivity.
Qed.

(** C2.  The code breaks the claim and its own comment in
    [_find_words_from_root] ("guaranteed to exist due to check in
    _search").  With the lexicon "a" and the target "ab", [letter_order]
    is "a" alone.  After the word "a" is taken the search is at the
    choose-next-word step with [remaining] = a:0, b:1: not all zero, the
    letter b has a positive count but is not in [letter_order], and the
    scan finds no letter.  The step then returns without a solution. *)
Lemma scan_finds_no_letter_in_reachable_state :
  exists r,
    solve_pangram_state (solver_of_words [[97%N]]) (Some [97%N; 98%N])
      None None None = Some r
    /\ letter_order (fst r) = [97%N]
    /\ In (Scanned [(97%N, 0%Z); (98%N, 1%Z)] None) (trace (snd r))
    /\ counter_any [(97%N, 0%Z); (98%N, 1%Z)] = true
    /\ counter_get [(97%N, 0%Z); (98%N, 1%Z)] 98%N = 1%Z
    /\ solutions (snd r) = [].
Proof.
  eexists. split; [vm_compute; reflexivity|].
  split; [reflexivity|]. split; [simpl; auto|].
  split; [reflexivity|]. split; reflexivity.
Qed.

(** ** The toy scenario of the specification

    Lexicon a, b, c, ab, bc and target letters a, b, c: the three
    partitions, in the order the search completes them (c is the rarest
    letter, then a, then b). *)
Example toy_alphabet_scenario :
  solve_pangram
    (solver_of_words [[97%N]; [98%N]; [99%N]; [97%N; 98%N]; [98%N; 99%N]])
    (Some [97%N; 98%N; 99%N]) None None None
  = Some [[[98%N; 99%N]; [97%N]];
          [[99%N]; [97%N; 98%N]];
          [[99%N]; [97%N]; [98%N]]].
Proof. vm_compute. reflexivity. Qed.

(** * Further properties *)

(** ** Splitting on whitespace *)

Lemma join_empty_sep ws : join [] ws = concat ws.
Proof.
  induction ws as [|w [|w' ws] IH]; simpl in *; auto.
  - now rewrite app_nil_r.
  - now rewrite IH.
Qed.

Lemma concat_split_from s : forall tok,
  concat (split_from tok s) = tok ++ strip_whitespace s.
Proof.
  induction s as [|c s IH]; intros tok; simpl.
  - destruct tok; simpl; now rewrite ?app_nil_r.
  - destruct (isspace c); simpl.
    + destruct tok; simpl; now rewrite IH.
    + rewrite IH, <- app_assoc. reflexivity.
Qed.

Lemma split_from_tokens s : forall tok,
  forallb (fun c => negb (isspace c)) tok = true ->
  Forall (fun w => w <> [] /\ forallb (fun c => negb (isspace c)) w = true)
    (split_from tok s).
Proof.
  induction s as [|c s IH]; intros tok Htok; simpl.
  - destruct tok; constructor; auto. split; [discriminate | exact Htok].
  - destruct (isspace c) eqn:Hc.
    + destruct tok; [now apply IH|].
      constructor; [split; [discriminate | exact Htok] | now apply IH].
    + apply IH. rewrite forallb_app, Htok. simpl. now rewrite Hc.
Qed.

(** X1. [''.join(s.split())], as [main] applies it to [--letters] and
    [--starter-words], removes exactly the whitespace characters of [s]
    and keeps the others in order; each piece of [s.split()] is non-empty
    and free of whitespace. *)
Theorem join_split_removes_whitespace (s : word) :
  join [] (split s) = strip_whitespace s
  /\ Forall (fun w => w <> [] /\ forallb (fun c => negb (isspace c)) w = true)
       (split s).
Proof.
  split.
  - rewrite join_empty_sep. apply (concat_split_from s []).
  - now apply split_from_tokens.
Qed.

(** ** Exclusion arguments *)

Lemma in_set_add_word_iff x s w : In w (set_add_word x s) <-> w = x \/ In w s.
Proof.
  unfold set_add_word, mem.
  destruct (in_dec word_eq_dec x s) as [Hin|Hn].
  - split; [auto | intros [->|H]; auto].
  - rewrite in_app_iff. simpl. split.
    + intros [H|[H|[]]]; auto.
    + intros [->|H]; auto.
Qed.

Lemma NoDup_set_add_word x s : NoDup s -> NoDup (set_add_word x s).
Proof.
  intros H. unfold set_add_word, mem.
  destruct (in_dec word_eq_dec x s) as [Hin|Hn]; [exact H|].
  apply NoDup_app; auto.
  - repeat constructor. intros [].
  - intros y Hy [<-|[]]. auto.
Qed.

Lemma set_of_words_fold xs : forall s,
  NoDup s ->
  NoDup (fold_left (fun s x => set_add_word x s) xs s)
  /\ forall w, In w (fold_left (fun s x => set_add_word x s) xs s)
               <-> In w s \/ In w xs.
Proof.
  induction xs as [|x xs IH]; intros s Hs; simpl.
  - split; [exact Hs | intros w; tauto].
  - destruct (IH (set_add_word x s) (NoDup_set_add_word x Hs)) as [Hnd Hin].
    split; [exact Hnd|].
    intros w. rewrite Hin, in_set_add_word_iff.
    split; [intros [[->|H]|H]; auto | intros [H|[<-|H]]; auto].
Qed.

Lemma set_of_words_spec xs :
  NoDup (set_of_words xs) /\ forall w, In w (set_of_words xs) <-> In w xs.
Proof.
  destruct (@set_of_words_fold xs []) as [Hnd Hin]; [constructor|].
  split; [exact Hnd|]. intros w. rewrite (Hin w). simpl. tauto.
Qed.

Lemma isspace_comma_free s :
  forallb (fun c => negb (isspace c)) s = true ->
  forall c, In c s -> isspace c = false.
Proof.
  rewrite forallb_forall. intros H c Hc. apply negb_true_iff. auto.
Qed.

Lemma split_from_in s : forall tok w c,
  In w (split_from tok s) -> In c w -> In c tok \/ In c s.
Proof.
  induction s as [|a s IH]; intros tok w c; simpl.
  - destruct tok; simpl; [tauto|]. intros [<-|[]] Hc. auto.
  - destruct (isspace a).
    + destruct tok.
      * intros Hw Hc. destruct (IH [] w c Hw Hc) as [[]|H]; auto.
      * intros [<-|Hw] Hc; [auto|].
        destruct (IH [] w c Hw Hc) as [[]|H]; auto.
    + intros Hw Hc. destruct (IH (tok ++ [a]) w c Hw Hc) as [H|H]; auto.
      apply in_app_iff in H as [H|[<-|[]]]; auto.
Qed.

(** X2. An absent or empty [--exclude-words] or [--exclude-pos] leaves
    the set [None].  Any other argument gives a set: it has no duplicate,
    its members are exactly the pieces of the argument between commas and
    whitespace, and each of them is non-empty and holds neither whitespace
    nor a comma (an argument of separators alone gives the empty set). *)
Theorem parse_exclusions_members (arg : option word) :
  match arg with
  | None | Some [] => parse_exclusions arg = None
  | Some (c :: s) =>
      exists ex,
        parse_exclusions arg = Some ex
        /\ NoDup ex
        /\ (forall w, In w ex <-> In w (split (commas_to_spaces (c :: s))))
        /\ Forall (fun w => w <> []
                            /\ forallb (fun c => negb (isspace c)) w = true
                            /\ ~ In 44%N w) ex
  end.
Proof.
  destruct arg as [[|c s]|]; [reflexivity| |reflexivity].
  destruct (set_of_words_spec (split (commas_to_spaces (c :: s)))) as [Hnd Hin].
  eexists. split; [reflexivity|]. split; [exact Hnd|]. split; [exact Hin|].
  apply Forall_forall. intros w Hw. apply Hin in Hw.
  pose proof (@split_from_tokens (commas_to_spaces (c :: s)) [] eq_refl) as Htok.
  rewrite Forall_forall in Htok. destruct (Htok w Hw) as [Hne Hws].
  repeat split; auto.
  intros H44. destruct (@split_from_in _ [] w 44%N Hw H44) as [[]|Hin44].
  unfold commas_to_spaces in Hin44. apply in_map_iff in Hin44 as (a & Ha & _).
  destruct (a =? 44)%N eqn:E; [discriminate|].
  apply N.eqb_neq in E. congruence.
Qed.

(** X3. A word listed in [--exclude-words] (between commas or
    whitespace) is a member of no slot of any solution, whatever the other
    arguments are. *)
Theorem excluded_argument_word_in_no_solution
  (self : PangramSolver) (target_letters : option word) (K : option Z)
  (c : letter) (s : word) (exclude_pos_arg : option word) (x : word) :
  In x (split (commas_to_spaces (c :: s))) ->
  let exclude_words := parse_exclusions (Some (c :: s)) in
  let exclude_pos := parse_exclusions exclude_pos_arg in
  let built :=
    build_trie self (target_or_default target_letters) exclude_words exclude_pos in
  exists sols,
    solve_pangram self target_letters K exclude_words exclude_pos = Some sols
    /\ Forall
         (fun S => exists ks,
              S = map (slot_of_key built) ks
              /\ Forall (fun k => ~ In x (group_of built k)) ks)
         sols.
Proof.
  intros Hx exclude_words exclude_pos built.
  destruct (solve_pangram_sound self target_letters K exclude_words exclude_pos)
    as (sols & E & Hsols).
  exists sols. split; [exact E|].
  eapply Forall_impl; [|exact Hsols].
  intros S (ks & -> & _ & Hgroups). exists ks. split; [reflexivity|].
  apply Forall_forall. intros k _ Hin.
  apply group_word_in_pool in Hin as [Hin _].
  apply pool_passes_filter in Hin as (_ & Hnot & _).
  apply Hnot. subst exclude_words. simpl.
  now apply set_of_words_spec.
Qed.

Lemma excluded_argument_word_in_no_solution_witness :
  exists sols,
    solve_pangram (solver_of_words [[97%N]; [98%N]; [97%N; 98%N]])
      (Some [97%N; 98%N]) None
      (parse_exclusions (Some [97%N; 44%N; 99%N])) (parse_exclusions None)
    = Some sols
    /\ Forall
         (fun S => exists ks,
              S = map (slot_of_key
                         (build_trie (solver_of_words [[97%N]; [98%N]; [97%N; 98%N]])
                            (target_or_default (Some [97%N; 98%N]))
                            (parse_exclusions (Some [97%N; 44%N; 99%N]))
                            (parse_exclusions None))) ks
              /\ Forall
                   (fun k =>
                      ~ In [97%N]
                          (group_of
                             (build_trie
                                (solver_of_words [[97%N]; [98%N]; [97%N; 98%N]])
                                (target_or_default (Some [97%N; 98%N]))
                                (parse_exclusions (Some [97%N; 44%N; 99%N]))
                                (parse_exclusions None)) k)) ks)
         sols.
Proof.
  apply (excluded_argument_word_in_no_solution
           (solver_of_words [[97%N]; [98%N]; [97%N; 98%N]])
           (Some [97%N; 98%N]) None 97%N [44%N; 99%N] None [97%N]).
  vm_compute. auto.
Defined.

(** ** What [load_words] records *)

Lemma NoDup_dict_set {K V} (eq_dec : forall a b : K, {a = b} + {a <> b})
  (d : dict K V) k v :
  NoDup (dict_keys d) -> NoDup (dict_keys (dict_set eq_dec d k v)).
Proof.
  induction d as [|[k0 v0] d IH]; simpl; intros H.
  - repeat constructor. intros [].
  - inversion H as [|? ? Hk0 Hd]; subst.
    destruct (eq_dec k k0) as [->|Hne]; simpl; [exact H|].
    constructor; [|now apply IH].
    fold (dict_keys (dict_set eq_dec d k v)).
    rewrite in_dict_keys_set. intros [E|Hin]; [congruence | auto].
Qed.

Lemma dict_get_set {K V} (eq_dec : forall a b : K, {a = b} + {a <> b})
  (d : dict K V) k v k' default :
  dict_get eq_dec (dict_set eq_dec d k v) k' default
  = if eq_dec k' k then v else dict_get eq_dec d k' default.
Proof.
  unfold dict_get. rewrite dict_lookup_set. now destruct (eq_dec k' k).
Qed.

Lemma load_entry_keeps lx lx' e :
  load_entry lx (EntryObject e) = Ok lx' ->
  lexicon_ok lx ->
  lexicon_ok lx'
  /\ forall w p, In p (tags_of lx' w) <-> In p (tags_of lx w) \/ entry_tags e w p.
Proof.
  unfold lexicon_ok, tags_of, entry_tags.
  destruct e as [[[|c s]|] p0]; simpl; intros [= <-] (Hnd & Hkeys & Htags & Hne).
  - split; [auto|]. intros w p.
    split; [auto | intros [H|(E1 & E2 & H1 & H2)]; [auto | exfalso; congruence]].
  - set (shaw := c :: s).
    set (m1 := match dict_lookup word_eq_dec (shaw_to_pos lx) shaw with
               | Some _ => shaw_to_pos lx
               | None => dict_set word_eq_dec (shaw_to_pos lx) shaw []
               end).
    assert (Hnd1 : NoDup (dict_keys m1)).
    { subst m1. destruct (dict_lookup _ _ _); [auto | now apply NoDup_dict_set]. }
    assert (Hk1 : forall w, In w (dict_keys m1)
                            <-> w = shaw \/ In w (dict_keys (shaw_to_pos lx))).
    { subst m1. intros w.
      destruct (dict_lookup word_eq_dec (shaw_to_pos lx) shaw) eqn:E.
      - split; [auto | intros [->|H]; auto].
        apply dict_lookup_in in E. change shaw with (fst (shaw, l)).
        now apply in_map.
      - apply in_dict_keys_set. }
    assert (Hg1 : forall w, dict_get word_eq_dec m1 w []
                            = dict_get word_eq_dec (shaw_to_pos lx) w []).
    { subst m1. intros w.
      destruct (dict_lookup word_eq_dec (shaw_to_pos lx) shaw) eqn:E; [auto|].
      rewrite dict_get_set. destruct (word_eq_dec w shaw) as [->|]; [|auto].
      unfold dict_get. now rewrite E. }
    assert (Hk2 : forall w, In w (dict_keys m1) <-> In w (shaw_words lx ++ [shaw])).
    { intros w. rewrite Hk1, in_app_iff, Hkeys. simpl.
      split; [intros [->|H]; auto | intros [H|[<-|[]]]; auto]. }
    assert (Hne2 : ~ In [] (shaw_words lx ++ [shaw])).
    { rewrite in_app_iff. simpl. intros [H|[H|[]]]; [auto | discriminate]. }
    assert (Ht1 : forall w, NoDup (dict_get word_eq_dec m1 w [])).
    { intros w. rewrite Hg1. apply Htags. }
    destruct p0 as [[|b t]|]; simpl.
    + split; [split; [|split; [|split]]; assumption|].
      intros w p. rewrite Hg1.
      split; [auto | intros [H|(E1 & E2 & H1 & H2)]; [auto | exfalso; congruence]].
    + split; [split; [|split; [|split]]|].
      * now apply NoDup_dict_set.
      * intros w. rewrite in_dict_keys_set, Hk2, !in_app_iff. simpl.
        split; [intros [->|H]; auto | tauto].
      * intros w. rewrite dict_get_set.
        destruct (word_eq_dec w shaw); [|apply Ht1].
        apply NoDup_set_add_word, Ht1.
      * exact Hne2.
      * intros w p. rewrite dict_get_set.
        destruct (word_eq_dec w shaw) as [->|Hw].
        -- rewrite in_set_add_word_iff, Hg1. split.
           ++ intros [->|H]; [right | auto].
              repeat split; discriminate.
           ++ intros [H|(E1 & E2 & H1 & H2)]; [auto | left; congruence].
        -- rewrite Hg1.
           split; [auto | intros [H|(E1 & E2 & H1 & H2)]; [auto | exfalso; congruence]].
    + split; [split; [|split; [|split]]; assumption|].
      intros w p. rewrite Hg1.
      split; [auto | intros [H|(E1 & E2 & H1 & H2)]; [auto | exfalso; congruence]].
  - split; [auto|]. intros w p.
    split; [auto | intros [H|(E1 & E2 & H1 & H2)]; [auto | exfalso; congruence]].
Qed.

Lemma for_each_load_entry_keeps l : forall lx lx',
  for_each l load_entry lx = Ok lx' ->
  lexicon_ok lx ->
  lexicon_ok lx'
  /\ forall w p, In p (tags_of lx' w)
                 <-> In p (tags_of lx w)
                     \/ exists e, In (EntryObject e) l /\ entry_tags e w p.
Proof.
  induction l as [|ev l IH]; intros lx lx'; cbn [for_each].
  - intros [= <-] Hok. split; [exact Hok|].
    intros w p. split; [auto | intros [H|(e & [] & _)]; exact H].
  - unfold bind at 1.
    destruct (load_entry lx ev) as [lx1|] eqn:E1; [|discriminate].
    destruct ev as [e|]; [|discriminate].
    intros E Hok.
    destruct (load_entry_keeps e E1 Hok) as [Hok1 Ht1].
    destruct (IH lx1 lx' E Hok1) as [Hok' Ht'].
    split; [exact Hok'|].
    intros w p. rewrite Ht', Ht1. split.
    + intros [[H|H]|(e' & Hin & H)]; [auto | |].
      * right. exists e. simpl. auto.
      * right. exists e'. simpl. auto.
    + intros [H|(e' & [Heq|Hin] & H)]; [auto | |].
      * injection Heq as <-. auto.
      * right. exists e'. auto.
Qed.

Lemma for_each_load_entries_keeps items : forall lx lx',
  for_each items load_entries lx = Ok lx' ->
  lexicon_ok lx ->
  lexicon_ok lx'
  /\ forall w p, In p (tags_of lx' w)
                 <-> In p (tags_of lx w) \/ tagged items w p.
Proof.
  unfold tagged.
  induction items as [|[k ev] items IH]; intros lx lx'; cbn [for_each].
  - intros [= <-] Hok. split; [exact Hok|].
    intros w p. split; [auto | intros [H|(kv & l & e & [] & _)]; exact H].
  - unfold bind at 1.
    destruct (load_entries lx (k, ev)) as [lx1|] eqn:E1; [|discriminate].
    destruct ev as [l|]; [|discriminate].
    unfold load_entries in E1. simpl in E1.
    intros E Hok.
    destruct (for_each_load_entry_keeps l E1 Hok) as [Hok1 Ht1].
    destruct (IH lx1 lx' E Hok1) as [Hok' Ht'].
    split; [exact Hok'|].
    intros w p. rewrite Ht', Ht1. split.
    + intros [[H|(e & Hin & H)]|(kv & l' & e & Hkv & Hl & Hin & H)]; [auto | |].
      * right. exists (k, EntriesIterable l), l, e. simpl. auto.
      * right. exists kv, l', e. simpl. auto.
    + intros [H|(kv & l' & e & [Heq|Hkv] & Hl & Hin & H)]; [auto | |].
      * subst kv. simpl in Hl. injection Hl as <-. left. right. eauto.
      * right. exists kv, l', e. auto.
Qed.

(** X5. When [load_words] succeeds, [shaw_to_pos] has exactly one entry
    per distinct loaded word; no loaded word is empty; the tags of a word
    are duplicate-free and are exactly the non-empty [pos] values of the
    entries spelling that word, accumulated over the whole document. *)
Theorem load_words_records_words_and_tags (src : source) (lx : Lexicon) :
  load_words src = Ok lx ->
  exists items,
    src = Parsed (DocObject items)
    /\ lexicon_ok lx
    /\ forall w p, In p (tags_of lx w) <-> tagged items w p.
Proof.
  destruct src as [| |[items|]]; simpl; try discriminate.
  intros E. exists items. split; [reflexivity|].
  destruct (for_each_load_entries_keeps items E) as [Hok Ht].
  - repeat split; simpl; try constructor; auto.
  - split; [exact Hok|].
    intros w p. rewrite Ht. unfold tags_of. simpl.
    split; [intros [[]|H]; exact H | auto].
Qed.

Lemma load_words_records_words_and_tags_witness :
  exists items,
    source_tagged_words = Parsed (DocObject items)
    /\ lexicon_ok
         (mkLexicon [[97%N; 98%N]; [97%N; 98%N]; [98%N; 97%N]; [97%N; 98%N]]
            [([97%N; 98%N], [[110%N]; [118%N]]); ([98%N; 97%N], [])])
    /\ forall w p,
         In p (tags_of
                 (mkLexicon
                    [[97%N; 98%N]; [97%N; 98%N]; [98%N; 97%N]; [97%N; 98%N]]
                    [([97%N; 98%N], [[110%N]; [118%N]]); ([98%N; 97%N], [])])
                 w)
         <-> tagged
               [([107%N],
                 EntriesIterable
                   [EntryObject (mkEntry (Some [97%N; 98%N]) (Some [110%N]));
                    EntryObject (mkEntry (Some [97%N; 98%N]) (Some [118%N]));
                    EntryObject (mkEntry (Some [98%N; 97%N]) None);
                    EntryObject (mkEntry (Some [97%N; 98%N]) (Some [110%N]))])]
               w p.
Proof.
  destruct (@load_words_records_words_and_tags source_tagged_words
              (mkLexicon
                 [[97%N; 98%N]; [97%N; 98%N]; [98%N; 97%N]; [97%N; 98%N]]
                 [([97%N; 98%N], [[110%N]; [118%N]]); ([98%N; 97%N], [])]))
    as (items & E & Hok & Htags).
  - reflexivity.
  - exists items. split; [exact E|]. split; [exact Hok|].
    injection E as <-. exact Htags.
Defined.

(** ** The groups of anagrams *)

Lemma str_leb_total a : forall b, str_leb a b = false -> str_leb b a = true.
Proof.
  induction a as [|x a IH]; intros [|y b]; simpl; try discriminate; auto.
  destruct (x <? y)%N eqn:Exy; [discriminate|].
  destruct (y <? x)%N eqn:Eyx; [reflexivity|].
  apply IH.
Qed.

Lemma str_leb_trans a : forall b c,
  str_leb a b = true -> str_leb b c = true -> str_leb a c = true.
Proof.
  induction a as [|x a IH]; intros [|y b] [|z c]; simpl; try discriminate; auto.
  destruct (x <? y)%N eqn:Exy, (y <? x)%N eqn:Eyx,
           (y <? z)%N eqn:Eyz, (z <? y)%N eqn:Ezy,
           (x <? z)%N eqn:Exz, (z <? x)%N eqn:Ezx;
    try discriminate; try reflexivity;
    rewrite ?N.ltb_lt, ?N.ltb_ge in *; try lia.
  apply IH.
Qed.

Lemma str_leb_antisym a : forall b,
  str_leb a b = true -> str_leb b a = true -> a = b.
Proof.
  induction a as [|x a IH]; intros [|y b]; simpl; try discriminate; auto.
  destruct (x <? y)%N eqn:Exy, (y <? x)%N eqn:Eyx; try discriminate;
    rewrite ?N.ltb_lt, ?N.ltb_ge in *; try lia.
  intros H1 H2. f_equal; [lia | now apply IH].
Qed.

Lemma group_step_get order sets w k :
  dict_get word_eq_dec (group_step order sets w) k []
  = if word_eq_dec k (rarity_key order w)
    then set_add_word w (dict_get word_eq_dec sets k [])
    else dict_get word_eq_dec sets k [].
Proof.
  unfold group_step.
  set (k0 := rarity_key order w).
  assert (Hg : forall k', dict_get word_eq_dec
                            match dict_lookup word_eq_dec sets k0 with
                            | Some _ => sets
                            | None => dict_set word_eq_dec sets k0 []
                            end k' []
                          = dict_get word_eq_dec sets k' []).
  { intros k'. destruct (dict_lookup word_eq_dec sets k0) eqn:E; [reflexivity|].
    rewrite dict_get_set. destruct (word_eq_dec k' k0) as [->|]; [|reflexivity].
    unfold dict_get. now rewrite E. }
  rewrite dict_get_set, !Hg.
  destruct (word_eq_dec k k0) as [->|]; reflexivity.
Qed.

Lemma group_fold_get order ws : forall sets,
  (forall k, NoDup (dict_get word_eq_dec sets k [])) ->
  (forall k, NoDup (dict_get word_eq_dec
                      (fold_left (group_step order) ws sets) k []))
  /\ (forall k w,
         In w (dict_get word_eq_dec (fold_left (group_step order) ws sets) k [])
         <-> In w (dict_get word_eq_dec sets k [])
             \/ (In w ws /\ rarity_key order w = k)).
Proof.
  induction ws as [|w0 ws IH]; intros sets Hnd; simpl.
  - split; [exact Hnd | intros k w; tauto].
  - destruct (IH (group_step order sets w0)) as [Hnd' Hin'].
    + intros k. rewrite group_step_get.
      destruct (word_eq_dec k (rarity_key order w0)); [|apply Hnd].
      apply NoDup_set_add_word, Hnd.
    + split; [exact Hnd'|].
      intros k w. rewrite Hin', group_step_get.
      destruct (word_eq_dec k (rarity_key order w0)) as [->|Hk].
      * rewrite in_set_add_word_iff. split.
        -- intros [[->|H]|[H E]]; auto.
        -- intros [H|[[<-|H] E]]; auto.
      * split.
        -- intros [H|[H E]]; auto.
        -- intros [H|[[<-|H] E]]; auto. congruence.
Qed.

Lemma group_of_sorted_fold self t ew ep k :
  group_of (build_trie self t ew ep) k
  = sorted str_leb
      (dict_get word_eq_dec
         (fold_left (group_step (letter_order (build_trie self t ew ep)))
            (filtered_words self t ew ep) []) k []).
Proof.
  unfold group_of. rewrite key_to_words_spec. unfold group_by_key, dict_get.
  rewrite dict_lookup_map. now destruct (dict_lookup _ _ k).
Qed.

(** X6. After [build_trie], the group stored under a key holds exactly
    the words of the filtered pool whose rarity-sorted key it is; each
    group is free of duplicates (however often the lexicon repeats a
    word) and in ascending lexicographic order. *)
Theorem groups_are_sorted_anagram_classes
  (self : PangramSolver) (target_letters : list letter)
  (exclude_words : option (list word)) (exclude_pos : option (list tag))
  (k : word) :
  let built := build_trie self target_letters exclude_words exclude_pos in
  let pool := filtered_words self target_letters exclude_words exclude_pos in
  (forall w, In w (group_of built k)
             <-> In w pool /\ rarity_key (letter_order built) w = k)
  /\ NoDup (group_of built k)
  /\ StronglySorted (fun a b => str_leb a b = true) (group_of built k).
Proof.
  intros built pool. subst built. rewrite group_of_sorted_fold. fold pool.
  destruct (@group_fold_get
              (letter_order (build_trie self target_letters exclude_words exclude_pos))
              pool []) as [Hnd Hin]; [intros k'; constructor|].
  split; [|split].
  - intros w. split.
    + intros H. eapply Permutation_in in H; [|apply sorted_perm].
      apply Hin in H as [[]|H]. exact H.
    + intros H. eapply Permutation_in; [symmetry; apply sorted_perm|].
      apply Hin. right. exact H.
  - eapply Permutation_NoDup; [symmetry; apply sorted_perm | apply Hnd].
  - apply sorted_sorted; [apply str_leb_total | apply str_leb_trans].
Qed.

(** ** Finding keys in the trie *)

Lemma add_key_marks_own k rest : forall node,
  exists n, trie_find (add_key_from k rest node) rest = Some n
            /\ is_word n = true /\ key n = Some k.
Proof.
  induction rest as [|l rest IH]; intros node; simpl.
  - eexists. repeat split.
  - rewrite dict_lookup_set. destruct (letter_eq_dec l l); [|congruence].
    apply IH.
Qed.

Lemma marks_new_node p : ~ marks new_node p.
Proof.
  intros (n & H & Hw). destruct p; simpl in H; [|discriminate].
  injection H as <-. discriminate.
Qed.

Lemma add_key_marks_iff k rest : forall node p,
  marks (add_key_from k rest node) p <-> marks node p \/ p = rest.
Proof.
  induction rest as [|l rest IH]; intros node p.
  - unfold marks. simpl. destruct p as [|l' p]; simpl.
    + split; [auto|]. intros _. eexists. split; reflexivity.
    + split; [auto | intros [H|H]; [exact H | discriminate]].
  - destruct p as [|l' p].
    + unfold marks. simpl. split.
      * intros (n & E & Hw). injection E as <-. left.
        eexists. split; [reflexivity | exact Hw].
      * intros [(n & E & Hw)|H]; [|discriminate]. injection E as <-.
        eexists. split; [reflexivity | exact Hw].
    + assert (Hstep : marks (add_key_from k (l :: rest) node) (l' :: p)
                      <-> if letter_eq_dec l' l
                          then marks (add_key_from k rest
                                        match dict_lookup letter_eq_dec (children node) l with
                                        | Some c => c
                                        | None => new_node
                                        end) p
                          else marks node (l' :: p)).
      { unfold marks. cbn [add_key_from trie_find children].
        rewrite dict_lookup_set. destruct (letter_eq_dec l' l); reflexivity. }
      rewrite Hstep. destruct (letter_eq_dec l' l) as [->|Hne].
      * rewrite IH.
        destruct (dict_lookup letter_eq_dec (children node) l) as [c|] eqn:E.
        -- assert (marks c p <-> marks node (l :: p)) as ->.
           { unfold marks. simpl. rewrite E. reflexivity. }
           split; [intros [H| ->]; auto | intros [H|H]; [auto|]].
           injection H as ->. auto.
        -- split.
           ++ intros [H| ->]; [|auto]. now apply marks_new_node in H.
           ++ intros [(n & H & _)|H].
              ** simpl in H. rewrite E in H. discriminate.
              ** injection H as ->. auto.
      * split; [auto | intros [H|H]; [exact H|]].
        injection H as E _. congruence.
Qed.

Lemma fold_add_marks keys : forall root p,
  marks (fold_left _add_key_to_trie keys root) p <-> marks root p \/ In p keys.
Proof.
  induction keys as [|k keys IH]; intros root p; simpl; [tauto|].
  rewrite IH. unfold _add_key_to_trie. rewrite add_key_marks_iff.
  split; [intros [[H|H]|H]; auto | intros [H|[H|H]]; auto].
Qed.

Lemma lookup_insert_sorted {V} (g : letter -> nat) (x : letter * V) d l :
  dict_lookup letter_eq_dec
    (insert_sorted (fun a b => g (fst a) <=? g (fst b)) x d) l
  = dict_lookup letter_eq_dec (x :: d) l.
Proof.
  induction d as [|y d IH]; [reflexivity|].
  cbn [insert_sorted].
  destruct (g (fst x) <=? g (fst y)) eqn:E; [reflexivity|].
  apply Nat.leb_gt in E.
  destruct x as [kx vx], y as [ky vy]. cbn [dict_lookup] in *. rewrite IH.
  cbn [dict_lookup]. simpl in E.
  destruct (letter_eq_dec l ky) as [Hy|Hy], (letter_eq_dec l kx) as [Hx|Hx];
    try reflexivity.
  subst. lia.
Qed.

Lemma lookup_sorted_by_key {V} (g : letter -> nat) (d : dict letter V) l :
  dict_lookup letter_eq_dec (sorted_by_key (fun item => g (fst item)) d) l
  = dict_lookup letter_eq_dec d l.
Proof.
  unfold sorted_by_key, sorted.
  induction d as [|[k v] d IH]; [reflexivity|].
  cbn [fold_right]. rewrite (lookup_insert_sorted g). cbn [dict_lookup].
  now rewrite IH.
Qed.

Lemma sort_children_lookup order node l :
  dict_lookup letter_eq_dec (children (_sort_trie_children order node)) l
  = option_map (_sort_trie_children order)
      (dict_lookup letter_eq_dec (children node) l).
Proof.
  destruct node as [ch w k]. cbn [_sort_trie_children children].
  rewrite (lookup_sorted_by_key (rarity_rank order)).
  apply dict_lookup_map.
Qed.

Lemma sort_find order p : forall node,
  trie_find (_sort_trie_children order node) p
  = option_map (_sort_trie_children order) (trie_find node p).
Proof.
  induction p as [|l p IH]; intros node; [reflexivity|].
  cbn [trie_find]. rewrite sort_children_lookup.
  destruct (dict_lookup letter_eq_dec (children node) l); simpl; auto.
Qed.

Lemma sort_is_word order node :
  is_word (_sort_trie_children order node) = is_word node.
Proof. now destruct node. Qed.

Lemma sort_marks order node p :
  marks (_sort_trie_children order node) p <-> marks node p.
Proof.
  unfold marks. rewrite sort_find. split.
  - intros (n & H & Hw). destruct (trie_find node p) as [m|]; [|discriminate].
    injection H as <-. rewrite sort_is_word in Hw. eauto.
  - intros (n & -> & Hw). eexists. split; [reflexivity|].
    now rewrite sort_is_word.
Qed.

Lemma wf_find p : forall prefix node n,
  wf_trie prefix node -> trie_find node p = Some n -> wf_trie (prefix ++ p) n.
Proof.
  induction p as [|l p IH]; intros prefix node n Hwf; simpl.
  - intros [= <-]. now rewrite app_nil_r.
  - destruct (dict_lookup letter_eq_dec (children node) l) as [c|] eqn:E;
      [|discriminate].
    intros H. replace (prefix ++ l :: p) with ((prefix ++ [l]) ++ p)
      by (now rewrite <- app_assoc).
    eapply IH; [|exact H]. eapply wf_children; eassumption.
Qed.

Lemma dict_get_in_keys {K V} (eq_dec : forall a b : K, {a = b} + {a <> b})
  (d : dict K (list V)) k x :
  In x (dict_get eq_dec d k []) -> In k (dict_keys d).
Proof.
  unfold dict_get. destruct (dict_lookup eq_dec d k) as [v|] eqn:E; [|intros []].
  intros _. apply dict_lookup_in in E. change k with (fst (k, v)).
  now apply in_map.
Qed.

Lemma group_of_iff self t ew ep k w :
  In w (group_of (build_trie self t ew ep) k)
  <-> In w (filtered_words self t ew ep)
      /\ rarity_key (letter_order (build_trie self t ew ep)) w = k.
Proof.
  rewrite group_of_sorted_fold.
  destruct (@group_fold_get (letter_order (build_trie self t ew ep))
              (filtered_words self t ew ep) []) as [_ Hin];
    [intros k'; constructor|].
  split.
  - intros H. eapply Permutation_in in H; [|apply sorted_perm].
    apply Hin in H as [[]|H]. exact H.
  - intros H. eapply Permutation_in; [symmetry; apply sorted_perm|].
    apply Hin. right. exact H.
Qed.

Lemma keys_are_pool_keys self t ew ep k :
  In k (dict_keys (key_to_words (build_trie self t ew ep)))
  <-> exists w, In w (filtered_words self t ew ep)
                /\ rarity_key (letter_order (build_trie self t ew ep)) w = k.
Proof.
  split.
  - rewrite key_to_words_spec. apply group_by_key_sound.
  - intros (w & Hw & Hk).
    apply (@dict_get_in_keys _ _ word_eq_dec _ k w).
    apply group_of_iff. auto.
Qed.

(** X7. A word ends at a path of the built trie exactly when the path is
    the rarity-sorted key of some word of the filtered pool, and the node
    there then carries that path as its key: every key inserted can be
    found again, and nothing else is marked as a word. *)
Theorem trie_marks_exactly_the_pool_keys
  (self : PangramSolver) (target_letters : list letter)
  (exclude_words : option (list word)) (exclude_pos : option (list tag))
  (path : word) :
  let built := build_trie self target_letters exclude_words exclude_pos in
  let pool := filtered_words self target_letters exclude_words exclude_pos in
  ((exists n, trie_find (trie built) path = Some n /\ is_word n = true)
   <-> exists w, In w pool /\ rarity_key (letter_order built) w = path)
  /\ (forall n, trie_find (trie built) path = Some n -> is_word n = true ->
                key n = Some path).
Proof.
  intros built pool. split.
  - fold (marks (trie built) path). subst built. rewrite trie_spec.
    rewrite sort_marks, fold_add_marks, keys_are_pool_keys. fold pool.
    split; [intros [H|H]; [now apply marks_new_node in H | exact H] | auto].
  - intros n Hfind Hw.
    pose proof (wf_find path (wf_build_trie self target_letters exclude_words
                                exclude_pos) Hfind) as Hwf.
    inversion Hwf; subst. simpl in *. auto.
Qed.

(** ** The order of the children *)

Lemma trie_all_children P node l child :
  trie_all P node ->
  dict_lookup letter_eq_dec (children node) l = Some child ->
  trie_all P child.
Proof.
  intros Hall Hl. inversion Hall as [ch w k HP Hch]; subst. simpl in Hl.
  apply dict_lookup_in in Hl. rewrite Forall_forall in Hch.
  apply (Hch (l, child) Hl).
Qed.

Lemma add_key_distinct_letters k rest : forall node,
  trie_all (fun n => NoDup (dict_keys (children n))) node ->
  trie_all (fun n => NoDup (dict_keys (children n))) (add_key_from k rest node).
Proof.
  induction rest as [|l rest IH]; intros node Hall; simpl.
  - inversion Hall; subst. constructor; auto.
  - inversion Hall as [ch w k0 HP Hch]; subst. simpl in *.
    constructor; simpl.
    + now apply NoDup_dict_set.
    + apply Forall_dict_set; [exact Hch|]. simpl. apply IH.
      destruct (dict_lookup letter_eq_dec ch l) as [c|] eqn:E.
      * apply (@trie_all_children _ (mkNode ch w k0) l c Hall E).
      * constructor; simpl; constructor.
Qed.

Lemma fold_add_distinct_letters keys : forall root,
  trie_all (fun n => NoDup (dict_keys (children n))) root ->
  trie_all (fun n => NoDup (dict_keys (children n)))
    (fold_left _add_key_to_trie keys root).
Proof.
  induction keys as [|k keys IH]; intros root H; simpl; [exact H|].
  apply IH. now apply add_key_distinct_letters.
Qed.

Lemma sort_orders_children order node :
  trie_all (fun n => NoDup (dict_keys (children n))) node ->
  trie_all (children_ordered order) (_sort_trie_children order node).
Proof.
  induction node as [ch w k IH] using TrieNode_ind.
  intros Hall. inversion Hall as [? ? ? Hnd Hch]; subst. simpl in Hnd.
  cbn [_sort_trie_children].
  set (ch' := map (fun item => (fst item, _sort_trie_children order (snd item))) ch).
  assert (Hkeys : dict_keys ch' = dict_keys ch).
  { unfold ch', dict_keys. rewrite map_map. reflexivity. }
  constructor.
  - split; simpl.
    + eapply Permutation_NoDup; [|rewrite <- Hkeys in Hnd; exact Hnd].
      unfold dict_keys. apply Permutation_map. symmetry. apply sorted_perm.
    + eapply StronglySorted_weaken; [|apply sorted_sorted].
      * intros a b H. now apply Nat.leb_le.
      * intros x y H. apply Nat.leb_gt in H. apply Nat.leb_le. lia.
      * intros x y z H1 H2. apply Nat.leb_le in H1, H2. apply Nat.leb_le. lia.
  - eapply Permutation_Forall; [symmetry; apply sorted_perm|].
    unfold ch'. rewrite Forall_map. simpl.
    rewrite Forall_forall in *. intros item Hitem. apply IH; auto.
Qed.

(** X8. In the built trie the children of every node have pairwise
    distinct letters and stand in rarity order (rarest first), so the
    search meets them in that order without sorting again. *)
Theorem trie_children_in_rarity_order
  (self : PangramSolver) (target_letters : list letter)
  (exclude_words : option (list word)) (exclude_pos : option (list tag)) :
  let built := build_trie self target_letters exclude_words exclude_pos in
  trie_all (children_ordered (letter_order built)) (trie built).
Proof.
  intros built. subst built. rewrite trie_spec.
  apply sort_orders_children, fold_add_distinct_letters.
  constructor; simpl; constructor.
Qed.

(** ** The search misses no partition *)

Lemma consume_get p : forall rem l,
  counter_get (consume rem p) l
  = (counter_get rem l - Z.of_nat (count_occ letter_eq_dec p l))%Z.
Proof.
  unfold consume.
  induction p as [|x p IH]; intros rem l; simpl; [lia|].
  rewrite IH, counter_get_set. destruct (letter_eq_dec x l); subst; lia.
Qed.

Lemma consume_total p : forall rem,
  counter_total (consume rem p) = (counter_total rem - Z.of_nat (length p))%Z.
Proof.
  unfold consume.
  induction p as [|x p IH]; intros rem; simpl; [lia|].
  rewrite IH, counter_total_set. lia.
Qed.

Lemma consume_NoDup p : forall rem,
  NoDup (dict_keys rem) -> NoDup (dict_keys (consume rem p)).
Proof.
  unfold consume.
  induction p as [|x p IH]; intros rem H; simpl; [exact H|].
  apply IH, NoDup_keys_set, H.
Qed.

Lemma counter_any_true c l : counter_get c l <> 0%Z -> counter_any c = true.
Proof.
  intros H. destruct (counter_any c) eqn:E; [reflexivity|].
  exfalso. apply H. now apply counter_any_false.
Qed.

Lemma counter_total_ge c :
  NoDup (dict_keys c) -> (forall l, (0 <= counter_get c l)%Z) ->
  forall l, (counter_get c l <= counter_total c)%Z.
Proof.
  induction c as [|[k v] c IH]; intros Hnd Hpos l.
  - unfold counter_get, dict_get, counter_total. simpl. lia.
  - inversion Hnd as [|? ? Hk Hc]; subst.
    assert (Hrest : forall l', (0 <= counter_get c l')%Z).
    { intros l'. destruct (letter_eq_dec l' k) as [->|Hne].
      - rewrite (counter_get_absent c k Hk). lia.
      - specialize (Hpos l'). unfold counter_get, dict_get in *. simpl in Hpos.
        destruct (letter_eq_dec l' k); [congruence | exact Hpos]. }
    assert (Hv : (0 <= v)%Z).
    { specialize (Hpos k). unfold counter_get, dict_get in Hpos. simpl in Hpos.
      destruct (letter_eq_dec k k); [exact Hpos | congruence]. }
    specialize (IH Hc Hrest).
    assert (Htot : (0 <= counter_total c)%Z).
    { destruct c as [|[k1 v1] c1]; [unfold counter_total; simpl; lia|].
      specialize (IH k1). specialize (Hrest k1). lia. }
    unfold counter_total in *. simpl.
    unfold counter_get, dict_get. simpl.
    destruct (letter_eq_dec l k).
    + lia.
    + specialize (IH l). unfold counter_get, dict_get in IH. lia.
Qed.

Lemma find_is_first (f : letter -> bool) order x y :
  find f order = Some x -> In y order -> f y = true ->
  index_of x order <= index_of y order.
Proof.
  induction order as [|z order IH]; simpl; [discriminate|].
  destruct (f z) eqn:Ez.
  - intros [= <-] _ _. destruct (letter_eq_dec z z); [lia | congruence].
  - intros Hfind Hy Hfy.
    destruct (letter_eq_dec y z) as [->|Hyz]; [congruence|].
    destruct Hy as [->|Hy]; [congruence|].
    destruct (letter_eq_dec x z); [lia|].
    apply le_n_S. now apply IH.
Qed.

Lemma rarity_rank_member order l :
  In l order -> rarity_rank order l = index_of l order.
Proof.
  intros H. unfold rarity_rank, mem.
  now destruct (in_dec letter_eq_dec l order).
Qed.

Section EnumComplete.
Variable self : PangramSolver.

Section TrieComplete.
Variable enum_rest : Counter -> list (list word).

Lemma enum_trie_complete rest : forall node n rem k ks,
  trie_find node rest = Some n ->
  is_word n = true -> key n = Some k -> k <> [] -> group_of self k <> [] ->
  (forall l, (Z.of_nat (count_occ letter_eq_dec rest l) <= counter_get rem l)%Z) ->
  In ks (enum_rest (consume rem rest)) ->
  In (k :: ks) (enum_trie self enum_rest node rem).
Proof.
  induction rest as [|l rest IH]; intros node n rem k ks Hfind Hw Hk Hne Hg Hcov Hks;
    destruct node as [ch w kk]; cbn [enum_trie]; apply in_or_app.
  - right. simpl in Hfind. injection Hfind as <-. simpl in Hw, Hk. subst.
    unfold enum_word. simpl.
    destruct k as [|c p]; [congruence|]. simpl.
    destruct (group_of self (c :: p)); [congruence|].
    apply in_map. exact Hks.
  - left. cbn [trie_find children] in Hfind.
    destruct (dict_lookup letter_eq_dec ch l) as [c|] eqn:E; [|discriminate].
    apply in_flat_map. exists (l, c). split; [now apply dict_lookup_in in E|].
    cbn [fst snd].
    assert (Hpos : (0 < counter_get rem l)%Z).
    { specialize (Hcov l). simpl in Hcov.
      destruct (letter_eq_dec l l); [lia | congruence]. }
    apply Z.ltb_lt in Hpos. rewrite Hpos.
    apply (IH c n _ k ks Hfind Hw Hk Hne Hg); [|exact Hks].
    intros l'. rewrite counter_get_set. specialize (Hcov l'). simpl in Hcov.
    destruct (letter_eq_dec l l'); subst; lia.
Qed.
End TrieComplete.
End EnumComplete.

Lemma counter_any_get c :
  NoDup (dict_keys c) -> counter_any c = true ->
  exists l, counter_get c l <> 0%Z.
Proof.
  intros Hnd H. unfold counter_any in H. apply existsb_exists in H as (v & Hv & Hne).
  unfold dict_values in Hv. apply in_map_iff in Hv as ([l v'] & <- & Hin).
  exists l. rewrite (counter_get_in c l v' Hnd Hin). simpl in Hne.
  apply negb_true_iff, Z.eqb_neq in Hne. exact Hne.
Qed.

Lemma sorted_key_head order k l0 :
  StronglySorted
    (fun a b => (rarity_rank order a <=? rarity_rank order b) = true) k ->
  In l0 k -> In l0 order ->
  (forall l, In l k -> In l order /\ rarity_rank order l0 <= rarity_rank order l) ->
  exists k', k = l0 :: k'.
Proof.
  intros Hs Hin Hord Hmin. destruct k as [|h k']; [destruct Hin|].
  destruct Hin as [->|Hin]; [eauto|].
  inversion Hs as [|? ? _ Hh]; subst. rewrite Forall_forall in Hh.
  specialize (Hh l0 Hin). apply Nat.leb_le in Hh.
  destruct (Hmin h (or_introl eq_refl)) as [Hhord Hle].
  assert (h = l0) as -> by (apply (@rarity_rank_inj order); auto; lia).
  eauto.
Qed.

Lemma enum_search_complete self n : forall ks rem fuel,
  length ks = n ->
  Forall (usable_key self) ks ->
  NoDup (dict_keys rem) ->
  (forall l, counter_get rem l
             = Z.of_nat (count_occ letter_eq_dec (concat ks) l)) ->
  (counter_total rem < Z.of_nat fuel)%Z ->
  exists ks', Permutation ks ks' /\ In ks' (enum_search self fuel rem).
Proof.
  induction n as [|m IH]; intros ks rem fuel Hlen Huse Hnd Hget Hfuel.
  - destruct ks; [|discriminate]. exists []. split; [constructor|].
    assert (Hzero : forall l, counter_get rem l = 0%Z) by (intros l; now rewrite Hget).
    assert (0 <= counter_total rem)%Z.
    { rewrite <- (Hzero 0%N). apply (@counter_total_ge rem); auto.
      intros l. rewrite Hzero. lia. }
    destruct fuel as [|fuel]; [lia|]. simpl.
    destruct (counter_any rem) eqn:Hany; [|simpl; auto].
    apply counter_any_get in Hany as (l & Hl); auto. now rewrite Hzero in Hl.
  - assert (Hpos : forall l, (0 <= counter_get rem l)%Z)
      by (intros l; rewrite Hget; lia).
    destruct ks as [|k0 ks0] eqn:Eks; [discriminate|]. rewrite <- Eks in *.
    assert (Hk0 : usable_key self k0).
    { rewrite Eks in Huse. now inversion Huse. }
    destruct Hk0 as (Hne0 & Hord0 & _).
    destruct k0 as [|a k0']; [congruence|].
    assert (Ha : (1 <= counter_get rem a)%Z).
    { rewrite Hget, Eks. simpl.
      destruct (letter_eq_dec a a); [lia | congruence]. }
    pose proof (@counter_total_ge rem Hnd Hpos a) as Htot.
    destruct fuel as [|fuel]; [lia|]. simpl.
    rewrite (counter_any_true rem a) by lia. simpl.
    destruct (counter_total rem <=? 0)%Z eqn:Ele; [apply Z.leb_le in Ele; lia|].
    unfold enum_from_root.
    pose proof (rarest_letter_spec self rem) as Hspec.
    destruct (rarest_letter self rem) as [l0|] eqn:Erare.
    2:{ specialize (Hspec a (Hord0 a (or_introl eq_refl))). lia. }
    destruct Hspec as [Hl0ord Hl0pos].
    assert (Hin0 : In l0 (concat ks)).
    { apply (count_occ_In letter_eq_dec). rewrite Hget in Hl0pos. lia. }
    apply in_concat in Hin0 as (k & Hk & Hl0k).
    apply in_split in Hk as (ks1 & ks2 & Hsplit).
    assert (Hcount : forall l,
               count_occ letter_eq_dec (concat ks) l
               = count_occ letter_eq_dec (concat (ks1 ++ ks2)) l
                 + count_occ letter_eq_dec k l).
    { intros l. rewrite Hsplit, !concat_app. simpl.
      rewrite !count_occ_app. lia. }
    assert (Hk : usable_key self k).
    { rewrite Forall_forall in Huse. apply Huse. rewrite Hsplit.
      apply in_elt. }
    destruct Hk as (Hne & Hord & Hsorted & (n & Hfind & Hw & Hkey) & Hgroup).
    destruct (@sorted_key_head (letter_order self) k l0 Hsorted Hl0k Hl0ord)
      as (k' & ->).
    { intros l Hl. split; [auto|].
      rewrite !rarity_rank_member by auto.
      unfold rarest_letter in Erare. eapply find_is_first; eauto.
      apply Z.ltb_lt. rewrite Hget, Hcount.
      apply (count_occ_In letter_eq_dec) in Hl. lia. }
    cbn [trie_find] in Hfind.
    destruct (dict_lookup letter_eq_dec (children (trie self)) l0)
      as [child|]; [|discriminate].
    destruct (IH (ks1 ++ ks2) (consume rem (l0 :: k')) fuel) as (ks' & Hperm & Hin').
    + rewrite Hsplit, length_app in Hlen. simpl in Hlen.
      rewrite length_app. lia.
    + rewrite Hsplit in Huse. apply Forall_app in Huse as [H1 H2].
      inversion H2; subst. apply Forall_app. auto.
    + now apply consume_NoDup.
    + intros l. rewrite consume_get, Hget, Hcount. lia.
    + rewrite consume_total. simpl length. lia.
    + exists ((l0 :: k') :: ks'). split.
      * rewrite Hsplit. symmetry. apply Permutation_cons_app. now symmetry.
      * eapply enum_trie_complete; eauto.
        intros l. rewrite counter_get_set.
        pose proof (Hget l) as Hgl. rewrite Hcount in Hgl. simpl in Hgl.
        destruct (letter_eq_dec l0 l) as [<-|Hne']; lia.
Qed.

Lemma pool_key_usable self t ew ep w :
  In w (filtered_words self t ew ep) -> w <> [] ->
  usable_key (build_trie self t ew ep)
    (rarity_key (letter_order (build_trie self t ew ep)) w).
Proof.
  intros Hw Hne.
  set (built := build_trie self t ew ep).
  set (k := rarity_key (letter_order built) w).
  assert (Hperm : Permutation k w) by apply rarity_key_perm.
  repeat split.
  - intros E. rewrite E in Hperm. apply Permutation_nil in Hperm. congruence.
  - intros l Hl. apply in_letter_order. exists w. split; [exact Hw|].
    eapply Permutation_in; eauto.
  - apply rarity_key_sorted.
  - assert (Hm : marks (trie built) k).
    { subst built. rewrite trie_spec, sort_marks, fold_add_marks.
      right. apply keys_are_pool_keys. eauto. }
    destruct Hm as (n & Hfind & Hword).
    exists n. repeat split; auto.
    pose proof (wf_find k (wf_build_trie self t ew ep) Hfind) as Hwf.
    inversion Hwf; subst. simpl in *. auto.
  - intros E.
    assert (Hin : In w (group_of built k)) by (apply group_of_iff; auto).
    rewrite E in Hin. destruct Hin.
Qed.

Lemma count_occ_concat_keys order ws l :
  count_occ letter_eq_dec (concat (map (rarity_key order) ws)) l
  = count_occ letter_eq_dec (concat ws) l.
Proof.
  induction ws as [|w ws IH]; simpl; [reflexivity|].
  rewrite !count_occ_app, IH. f_equal.
  apply Permutation_count_occ, rarity_key_perm.
Qed.

(** X9. The uncapped search misses no partition: whenever the target
    letters can be split, letter for letter, into a non-empty sequence of
    non-empty words of the filtered pool, [solve_pangram] returns a
    solution made of the slots of exactly those words' keys, in some
    order. *)
Theorem every_partition_is_found
  (self : PangramSolver) (target_letters : option word)
  (exclude_words : option (list word)) (exclude_pos : option (list tag))
  (ws : list word) :
  let t := target_or_default target_letters in
  let built := build_trie self t exclude_words exclude_pos in
  let pool := filtered_words self t exclude_words exclude_pos in
  ws <> [] ->
  Forall (fun w => In w pool /\ w <> []) ws ->
  Permutation (concat ws) t ->
  exists sols ks,
    solve_pangram self target_letters None exclude_words exclude_pos = Some sols
    /\ Permutation (map (rarity_key (letter_order built)) ws) ks
    /\ In (map (slot_of_key built) ks) sols.
Proof.
  intros t built pool Hne Hws Hperm.
  rewrite solve_pangram_enum. fold t. fold built.
  assert (Huse : Forall (usable_key built)
                   (map (rarity_key (letter_order built)) ws)).
  { rewrite Forall_map. eapply Forall_impl; [|exact Hws].
    intros w [Hw Hwne]. now apply pool_key_usable. }
  destruct (@enum_search_complete built (length ws)
              (map (rarity_key (letter_order built)) ws)
              (counter_of t) (S (length t))) as (ks & Hks & Hin).
  - apply length_map.
  - exact Huse.
  - apply NoDup_keys_update. constructor.
  - intros l. rewrite counter_get_of, count_occ_concat_keys. f_equal.
    symmetry. now apply Permutation_count_occ.
  - rewrite counter_total_of. lia.
  - destruct (children (trie built)) as [|item items] eqn:Ech.
    + exfalso. destruct ws as [|w ws']; [congruence|].
      inversion Huse as [|? ? Hk _]; subst.
      destruct Hk as (Hkne & _ & _ & (n & Hfind & _) & _).
      destruct (rarity_key (letter_order built) w) as [|l k']; [congruence|].
      simpl in Hfind. rewrite Ech in Hfind. discriminate.
    + eexists. exists ks. split; [reflexivity|]. split; [exact Hks|].
      unfold capped. simpl. now apply in_map.
Qed.

Lemma every_partition_is_found_witness :
  exists sols ks,
    solve_pangram (solver_of_words [[97%N]; [98%N]; [97%N; 98%N]])
      (Some [97%N; 98%N]) None None None = Some sols
    /\ Permutation
         (map (rarity_key
                 (letter_order
                    (build_trie (solver_of_words [[97%N]; [98%N]; [97%N; 98%N]])
                       (target_or_default (Some [97%N; 98%N])) None None)))
            [[98%N]; [97%N]]) ks
    /\ In (map (slot_of_key
                  (build_trie (solver_of_words [[97%N]; [98%N]; [97%N; 98%N]])
                     (target_or_default (Some [97%N; 98%N])) None None)) ks)
         sols.
Proof.
  apply (@every_partition_is_found
           (solver_of_words [[97%N]; [98%N]; [97%N; 98%N]])
           (Some [97%N; 98%N]) None None [[98%N]; [97%N]]).
  - discriminate.
  - constructor; [|constructor; [|constructor]];
      (split; [vm_compute; auto | discriminate]).
  - apply perm_swap.
Defined.

(** ** The solution counter follows the list of solutions *)

Lemma tally_same st st' :
  solutions st' = solutions st -> solution_count st' = solution_count st ->
  tally st st'.
Proof. unfold tally. intros -> ->. reflexivity. Qed.

Lemma tally_trans st1 st2 st3 : tally st1 st2 -> tally st2 st3 -> tally st1 st3.
Proof. unfold tally. lia. Qed.

Section Tally.
Variable self : PangramSolver.
Variable K : option Z.

Section TallyWalk.
Variable search : SearchState -> nat -> option SearchState.
Hypothesis search_tally :
  forall st d st', search st d = Some st' -> tally st st'.

Lemma try_word_tally node st depth st' :
  try_word self search node st depth = Some st' -> tally st st'.
Proof.
  unfold try_word.
  destruct (is_word node); [|intros [= <-]; now apply tally_same].
  destruct (truthy_key (key node)) as [k|];
    [|intros [= <-]; now apply tally_same].
  destruct (dict_get word_eq_dec (key_to_words self) k []) as [|w ws];
    [intros [= <-]; now apply tally_same|].
  destruct (search _ _) as [st2|] eqn:E; [|discriminate].
  intros [= <-]. apply search_tally in E.
  unfold tally in *. simpl in *. exact E.
Qed.

Lemma explore_children_tally depth items :
  Forall (fun item => forall st cl d st' cl',
            _search_trie self K search (snd item) st cl d = Some (st', cl') ->
            tally st st') items ->
  forall st cl fl st' cl',
    explore_children K (_search_trie self K search) depth items st cl
    = Some (fl, st', cl') ->
    tally st st'.
Proof.
  induction 1 as [|[l child] items Hc _ IH]; intros st cl fl st' cl'; simpl.
  - intros [= _ <- _]. now apply tally_same.
  - destruct (0 <? counter_get (remaining st) l)%Z; [|apply IH].
    destruct (_search_trie self K search child _ _ depth)
      as [[st2 cl2]|] eqn:E; [|discriminate].
    apply Hc in E.
    assert (Hst2 : tally st (add_remaining st2 l 1))
      by (unfold tally in *; simpl in *; exact E).
    destruct (cap_reached K (add_remaining st2 l 1)).
    + intros [= _ <- _]. exact Hst2.
    + intros H. apply IH in H. eapply tally_trans; eauto.
Qed.

Lemma search_trie_tally node : forall st cl d st' cl',
  _search_trie self K search node st cl d = Some (st', cl') -> tally st st'.
Proof.
  induction node as [ch w k IH] using TrieNode_ind.
  intros st cl d st' cl'. simpl.
  destruct (cap_reached K (tick_attempt st)).
  { intros [= <- _]. now apply tally_same. }
  destruct (explore_children K (_search_trie self K search) d ch
              (tick_attempt st) cl) as [[[fl st1] cl1]|] eqn:E; [|discriminate].
  apply (explore_children_tally d IH) in E.
  assert (H1 : tally st st1) by (unfold tally in *; simpl in *; exact E).
  destruct fl.
  - destruct (try_word self search (mkNode ch w k) st1 d) as [st2|] eqn:E2;
      [|discriminate].
    intros [= <- _]. apply try_word_tally in E2. eapply tally_trans; eauto.
  - intros [= <- _]. exact H1.
Qed.

Lemma find_words_from_root_tally st depth st' :
  _find_words_from_root self K search st depth = Some st' -> tally st st'.
Proof.
  unfold _find_words_from_root.
  destruct (rarest_letter self (remaining st)) as [l|];
    [|intros [= <-]; now apply tally_same].
  destruct (dict_lookup letter_eq_dec (children (trie self)) l) as [child|];
    [|intros [= <-]; now apply tally_same].
  destruct (_search_trie self K search child _ [l] depth)
    as [[st2 cl2]|] eqn:E; [|discriminate].
  intros [= <-]. apply search_trie_tally in E.
  unfold tally in *. simpl in *. exact E.
Qed.
End TallyWalk.

Lemma search_tally fuel : forall st depth st',
  _search self K fuel st depth = Some st' -> tally st st'.
Proof.
  induction fuel as [|fuel IH]; intros st depth st'; simpl; [discriminate|].
  destruct (cap_reached K st); [intros [= <-]; now apply tally_same|].
  destruct (negb (counter_any (remaining st))).
  { intros [= <-]. unfold tally. simpl. rewrite length_app. simpl. lia. }
  destruct (counter_total (remaining st) <=? 0)%Z;
    [intros [= <-]; now apply tally_same|].
  apply find_words_from_root_tally. exact IH.
Qed.
End Tally.

(** X10. Whenever the trie of a [solve_pangram] call has children, so
    that the search is run, the call returns with [solution_count] equal
    to the number of solutions it returns: the number printed with the
    last solution is the length of the result. *)
Theorem solution_count_is_number_of_solutions
  (self : PangramSolver) (target_letters : option word) (K : option Z)
  (exclude_words : option (list word)) (exclude_pos : option (list tag)) :
  let built := build_trie self (target_or_default target_letters)
                 exclude_words exclude_pos in
  children (trie built) <> [] ->
  exists st,
    solve_pangram_state self target_letters K exclude_words exclude_pos
    = Some (built, st)
    /\ solve_pangram self target_letters K exclude_words exclude_pos
       = Some (solutions st)
    /\ solution_count st = length (solutions st).
Proof.
  intros built Hch. unfold solve_pangram, solve_pangram_state.
  fold built.
  destruct (children (trie built)) as [|item items]; [congruence|].
  set (t := target_or_default target_letters).
  destruct (@search_refines built K (S (length t))
              (initial_state (counter_of t)) 0) as (st' & E & _).
  { simpl. rewrite counter_total_of. lia. }
  rewrite E. exists st'. split; [reflexivity|]. split; [reflexivity|].
  apply search_tally in E. unfold tally in E. simpl in E. lia.
Qed.

Lemma solution_count_is_number_of_solutions_witness :
  exists st,
    solve_pangram_state (solver_of_words [[97%N]]) (Some [97%N; 97%N]) None
      None None
    = Some (build_trie (solver_of_words [[97%N]])
              (target_or_default (Some [97%N; 97%N])) None None, st)
    /\ solve_pangram (solver_of_words [[97%N]]) (Some [97%N; 97%N]) None
         None None
       = Some (solutions st)
    /\ solution_count st = length (solutions st).
Proof.
  apply (@solution_count_is_number_of_solutions
           (solver_of_words [[97%N]]) (Some [97%N; 97%N]) None None None).
  vm_compute. discriminate.
Defined.

(** ** With distinct target letters no partition is found twice *)

Lemma FOP_app {A} (R : A -> A -> Prop) a b :
  ForallOrdPairs R a -> ForallOrdPairs R b ->
  (forall x y, In x a -> In y b -> R x y) ->
  ForallOrdPairs R (a ++ b).
Proof.
  induction 1 as [|x a Hx _ IH]; intros Hb Hab; simpl; [exact Hb|].
  constructor.
  - apply Forall_app. split; [exact Hx|].
    apply Forall_forall. intros y Hy. apply Hab; simpl; auto.
  - apply IH; auto. intros x' y Hx' Hy. apply Hab; simpl; auto.
Qed.

Lemma FOP_map {A B} (R : A -> A -> Prop) (R' : B -> B -> Prop) (g : A -> B) l :
  (forall x y, R x y -> R' (g x) (g y)) ->
  ForallOrdPairs R l -> ForallOrdPairs R' (map g l).
Proof.
  intros Hg. induction 1 as [|x l Hx _ IH]; simpl; constructor; auto.
  rewrite Forall_map. eapply Forall_impl; [|exact Hx]. auto.
Qed.

Lemma FOP_firstn {A} (R : A -> A -> Prop) n : forall l,
  ForallOrdPairs R l -> ForallOrdPairs R (firstn n l).
Proof.
  induction n as [|n IH]; intros l H; simpl; [constructor|].
  destruct H as [|x l Hx Hl]; constructor; auto.
  apply Forall_forall. intros y Hy. apply in_firstn in Hy.
  rewrite Forall_forall in Hx. auto.
Qed.

Lemma trie_all_impl (P Q : TrieNode -> Prop) node :
  (forall n, P n -> Q n) -> trie_all P node -> trie_all Q node.
Proof.
  intros HPQ. induction node as [ch w k IH] using TrieNode_ind.
  intros H. inversion H as [? ? ? HP Hch]; subst.
  constructor; [auto|].
  rewrite Forall_forall in *. auto.
Qed.

(** Two sequences of keys that start with different keys sharing a
    letter are not rearrangements of each other, unless that letter
    occurs twice. *)
Lemma heads_differ (k k' : word) (r r' : list word) l0 :
  k <> k' -> In l0 k -> In l0 k' ->
  count_occ letter_eq_dec (concat (k' :: r')) l0 <= 1 ->
  ~ Permutation (k :: r) (k' :: r').
Proof.
  intros Hne Hk Hk' Hcount Hperm.
  assert (Hin : In k (k' :: r'))
    by (eapply Permutation_in; [exact Hperm | now left]).
  destruct Hin as [E|Hin]; [congruence|].
  change (concat (k' :: r')) with (k' ++ concat r') in Hcount.
  rewrite count_occ_app in Hcount.
  assert (H1 : count_occ letter_eq_dec k' l0 > 0) by now apply count_occ_In.
  assert (H2 : count_occ letter_eq_dec (concat r') l0 > 0).
  { apply count_occ_In, in_concat. exists k. auto. }
  lia.
Qed.

Lemma at_most_once_step rem prefix l :
  at_most_once rem prefix ->
  at_most_once (counter_set rem l (counter_get rem l + -1)) (prefix ++ [l]).
Proof.
  intros H x. specialize (H x). rewrite counter_get_set, count_occ_app.
  simpl. destruct (letter_eq_dec l x); subst; lia.
Qed.

Lemma at_most_once_nil rem prefix : at_most_once rem prefix -> at_most_once rem [].
Proof. intros H x. specialize (H x). simpl. lia. Qed.

Section NoRearrangement.
Variable self : PangramSolver.
Hypothesis trie_wf : wf_trie [] (trie self).
Hypothesis trie_nd :
  trie_all (fun n => NoDup (dict_keys (children n))) (trie self).

Lemma accounts_at_most_once rem prefix ks l :
  accounts self rem prefix ks -> at_most_once rem prefix ->
  count_occ letter_eq_dec (concat ks) l <= 1.
Proof. intros [Hc _] Hle. specialize (Hc l). specialize (Hle l). lia. Qed.

Section TrieNoRearrangement.
Variable enum_rest : Counter -> list (list word).
Hypothesis rest_sound :
  forall rem ks, In ks (enum_rest rem) -> accounts self rem [] ks.
Hypothesis rest_ok :
  forall rem, at_most_once rem [] -> no_rearrangement (enum_rest rem).

Lemma enum_word_head node prefix rem ks :
  wf_trie prefix node -> In ks (enum_word self enum_rest node rem) ->
  exists rest, ks = prefix :: rest.
Proof.
  intros Hwf. unfold enum_word.
  inversion Hwf as [? ch w k Hk Hch]; subst. simpl.
  destruct w; [|intros []].
  rewrite (Hk eq_refl).
  destruct prefix as [|c p]; simpl; [intros []|].
  destruct (group_of self (c :: p)); [intros []|].
  rewrite in_map_iff. intros (ks' & <- & _). eauto.
Qed.

Lemma enum_trie_head node : forall prefix rem ks,
  wf_trie prefix node -> In ks (enum_trie self enum_rest node rem) ->
  exists s rest, ks = (prefix ++ s) :: rest.
Proof.
  induction node as [ch w k IH] using TrieNode_ind.
  intros prefix rem ks Hwf. simpl. rewrite in_app_iff.
  intros [Hin|Hin].
  - apply in_flat_map in Hin as ([l child] & Hitem & Hin). simpl in Hin.
    destruct (0 <? counter_get rem l)%Z; [|destruct Hin].
    inversion Hwf as [? ? ? ? Hk Hch]; subst.
    rewrite Forall_forall in IH, Hch.
    destruct (IH _ Hitem _ _ _ (Hch _ Hitem) Hin) as (s & rest & ->).
    exists (l :: s), rest. simpl. now rewrite <- app_assoc.
  - destruct (@enum_word_head (mkNode ch w k) prefix rem ks Hwf Hin) as (rest & ->).
    exists [], rest. now rewrite app_nil_r.
Qed.

Lemma enum_word_no_rearrangement node rem prefix :
  at_most_once rem prefix ->
  no_rearrangement (enum_word self enum_rest node rem).
Proof.
  intros Hle. unfold enum_word, no_rearrangement.
  destruct (is_word node); [|constructor].
  destruct (truthy_key (key node)) as [k|]; [|constructor].
  destruct (group_of self k); [constructor|].
  apply FOP_map with (R := fun a b : list word => ~ Permutation a b).
  - intros x y Hxy Hp. apply Hxy. eapply Permutation_cons_inv; eauto.
  - apply rest_ok. eapply at_most_once_nil; eauto.
Qed.

Lemma children_no_rearrangement l0 prefix rem items :
  Forall (fun item => forall prefix rem,
            wf_trie prefix (snd item) ->
            trie_all (fun n => NoDup (dict_keys (children n))) (snd item) ->
            In l0 prefix -> at_most_once rem prefix ->
            no_rearrangement (enum_trie self enum_rest (snd item) rem)) items ->
  Forall (fun item => wf_trie (prefix ++ [fst item]) (snd item)) items ->
  Forall (fun item =>
            trie_all (fun n => NoDup (dict_keys (children n))) (snd item)) items ->
  NoDup (dict_keys items) ->
  In l0 prefix -> at_most_once rem prefix ->
  no_rearrangement
    (flat_map (fun item =>
                 if (0 <? counter_get rem (fst item))%Z
                 then enum_trie self enum_rest (snd item)
                        (counter_set rem (fst item)
                           (counter_get rem (fst item) + -1))
                 else []) items).
Proof.
  intros IH Hch Hall Hnd Hl0 Hle.
  induction items as [|[l child] items IHitems]; simpl; [constructor|].
  inversion IH as [|? ? IHc IH']; subst.
  inversion Hch as [|? ? Hwc Hch']; subst.
  inversion Hall as [|? ? Hac Hall']; subst.
  inversion Hnd as [|? ? Hnotin Hnd']; subst.
  simpl in *.
  apply FOP_app.
  - destruct (0 <? counter_get rem l)%Z; [|constructor].
    apply (IHc (prefix ++ [l])); auto.
    + apply in_or_app; auto.
    + now apply at_most_once_step.
  - apply IHitems; auto.
  - intros x y Hx Hy.
    destruct (0 <? counter_get rem l)%Z; [|destruct Hx].
    destruct (@enum_trie_head child (prefix ++ [l]) _ x Hwc Hx) as (s & r & ->).
    apply in_flat_map in Hy as ([l' child'] & Hitem & Hy). simpl in Hy.
    destruct (0 <? counter_get rem l')%Z; [|destruct Hy].
    rewrite Forall_forall in Hch'.
    pose proof (Hch' _ Hitem) as Hwc'. simpl in Hwc'.
    destruct (@enum_trie_head child' (prefix ++ [l']) _ y Hwc' Hy)
      as (s' & r' & E').
    assert (Hcy : count_occ letter_eq_dec (concat y) l0 <= 1).
    { eapply accounts_at_most_once;
        [apply (@enum_trie_sound self enum_rest rest_sound child'
                  (prefix ++ [l']) _ _ Hwc' Hy)|].
      now apply at_most_once_step. }
    subst y. apply heads_differ with (l0 := l0); [| | |exact Hcy].
    + intros E. rewrite <- !app_assoc in E. apply app_inv_head in E.
      simpl in E. injection E as El _. subst l'.
      apply Hnotin. apply in_map_iff. exists (l, child'). auto.
    + rewrite !in_app_iff; auto.
    + rewrite !in_app_iff; auto.
Qed.

Lemma enum_trie_no_rearrangement l0 node : forall prefix rem,
  wf_trie prefix node ->
  trie_all (fun n => NoDup (dict_keys (children n))) node ->
  In l0 prefix -> at_most_once rem prefix ->
  no_rearrangement (enum_trie self enum_rest node rem).
Proof.
  induction node as [ch w k IH] using TrieNode_ind.
  intros prefix rem Hwf Hall Hl0 Hle.
  inversion Hall as [? ? ? Hnd Hall']; subst. simpl in Hnd.
  inversion Hwf as [? ? ? ? Hk Hch]; subst.
  cbn [enum_trie]. apply FOP_app.
  - apply children_no_rearrangement with (l0 := l0) (prefix := prefix); auto.
  - eapply enum_word_no_rearrangement; eauto.
  - intros x y Hx Hy.
    pose proof Hy as Hy'.
    destruct (@enum_word_head (mkNode ch w k) prefix rem y Hwf Hy) as (r' & E').
    apply in_flat_map in Hx as ([l child] & Hitem & Hx). simpl in Hx.
    destruct (0 <? counter_get rem l)%Z; [|destruct Hx].
    rewrite Forall_forall in Hch.
    pose proof (Hch _ Hitem) as Hwc. simpl in Hwc.
    destruct (@enum_trie_head child (prefix ++ [l]) _ x Hwc Hx) as (s & r & ->).
    assert (Hcy : count_occ letter_eq_dec (concat y) l0 <= 1).
    { eapply accounts_at_most_once; [|exact Hle].
      apply (@enum_word_sound self enum_rest rest_sound _ prefix rem y Hwf Hy'). }
    subst y. apply heads_differ with (l0 := l0); [| |exact Hl0|exact Hcy].
    + intros E. apply (f_equal (@length letter)) in E.
      rewrite !length_app in E. simpl in E. lia.
    + rewrite !in_app_iff; auto.
Qed.
End TrieNoRearrangement.

Lemma enum_search_no_rearrangement fuel : forall rem,
  at_most_once rem [] -> no_rearrangement (enum_search self fuel rem).
Proof.
  induction fuel as [|fuel IH]; intros rem Hle; simpl; [constructor|].
  destruct (negb (counter_any rem)); [repeat constructor|].
  destruct (counter_total rem <=? 0)%Z; [constructor|].
  unfold enum_from_root.
  destruct (rarest_letter self rem) as [l|]; [|constructor].
  destruct (dict_lookup letter_eq_dec (children (trie self)) l)
    as [child|] eqn:El; [|constructor].
  apply enum_trie_no_rearrangement with (l0 := l) (prefix := [l]).
  - intros rem' ks. now apply enum_search_sound.
  - exact IH.
  - apply (@wf_children [] (trie self) l child trie_wf El).
  - eapply trie_all_children; eauto.
  - now left.
  - apply (@at_most_once_step rem [] l Hle).
Qed.
End NoRearrangement.

Lemma build_trie_distinct_letters self t ew ep :
  trie_all (fun n => NoDup (dict_keys (children n)))
    (trie (build_trie self t ew ep)).
Proof.
  rewrite trie_spec.
  apply trie_all_impl
    with (P := children_ordered (letter_order (build_trie self t ew ep))).
  - intros n [H _]. exact H.
  - apply sort_orders_children, fold_add_distinct_letters.
    constructor; simpl; constructor.
Qed.

(** X11. When no letter occurs twice in the target (as in the default
    48-letter pangram), [solve_pangram] returns each way of splitting the
    target at most once: the solutions are the slots of sequences of keys
    that each use up the target, and no such sequence is a rearrangement
    of another one. *)
Theorem distinct_letters_no_rearranged_solutions
  (self : PangramSolver) (target_letters : option word) (K : option Z)
  (exclude_words : option (list word)) (exclude_pos : option (list tag)) :
  let t := target_or_default target_letters in
  let built := build_trie self t exclude_words exclude_pos in
  NoDup t ->
  exists kss,
    solve_pangram self target_letters K exclude_words exclude_pos
    = Some (map (map (slot_of_key built)) kss)
    /\ Forall (fun ks => Permutation (concat ks) t) kss
    /\ ForallOrdPairs (fun a b => ~ Permutation a b) kss.
Proof.
  intros t built Hnd. rewrite solve_pangram_enum. fold t. fold built.
  set (E := enum_search built (S (length t)) (counter_of t)).
  assert (Hsound : Forall (fun ks => Permutation (concat ks) t) E).
  { apply Forall_forall. intros ks Hks.
    apply enum_search_sound in Hks; [|apply wf_build_trie].
    destruct Hks as [Hc _].
    apply (Permutation_count_occ letter_eq_dec). intros l.
    specialize (Hc l). rewrite counter_get_of in Hc. simpl in Hc. lia. }
  assert (Hno : ForallOrdPairs (fun a b : list word => ~ Permutation a b) E).
  { apply enum_search_no_rearrangement.
    - apply wf_build_trie.
    - apply build_trie_distinct_letters.
    - intros l. rewrite counter_get_of. simpl.
      rewrite (NoDup_count_occ letter_eq_dec) in Hnd. specialize (Hnd l). lia. }
  destruct (children (trie built)) as [|item items].
  { exists []. split; [reflexivity|]. split; constructor. }
  destruct K as [m|].
  - exists (firstn (Z.to_nat (m - Z.of_nat 0)) E).
    split; [|split].
    + unfold capped. cbn [app length]. now rewrite firstn_map.
    + apply Forall_forall. intros ks Hks. apply in_firstn in Hks.
      rewrite Forall_forall in Hsound. auto.
    + now apply FOP_firstn.
  - exists E. split; [reflexivity|]. split; assumption.
Qed.

Lemma distinct_letters_no_rearranged_solutions_witness :
  exists kss,
    solve_pangram (solver_of_words [[97%N]; [98%N]; [97%N; 98%N]])
      (Some [97%N; 98%N]) None None None
    = Some (map (map (slot_of_key
                        (build_trie
                           (solver_of_words [[97%N]; [98%N]; [97%N; 98%N]])
                           (target_or_default (Some [97%N; 98%N])) None None)))
              kss)
    /\ Forall (fun ks => Permutation (concat ks)
                           (target_or_default (Some [97%N; 98%N]))) kss
    /\ ForallOrdPairs (fun a b => ~ Permutation a b) kss.
Proof.
  apply (@distinct_letters_no_rearranged_solutions
           (solver_of_words [[97%N]; [98%N]; [97%N; 98%N]])
           (Some [97%N; 98%N]) None None None).
  simpl. constructor.
  - intros [H|[]]. discriminate.
  - constructor; [intros [] | constructor].
Defined.

(** ** Searches that cannot succeed *)

(** X12. When no word of the filtered pool has a letter (the pool is
    empty, as for an empty target or when every fitting word is excluded),
    [solve_pangram] returns the empty list: the empty target has no
    solution either. *)
Theorem no_usable_word_no_solution
  (self : PangramSolver) (target_letters : option word) (K : option Z)
  (exclude_words : option (list word)) (exclude_pos : option (list tag)) :
  let t := target_or_default target_letters in
  (forall w, In w (filtered_words self t exclude_words exclude_pos) -> w = []) ->
  solve_pangram self target_letters K exclude_words exclude_pos = Some [].
Proof.
  intros t Hpool. rewrite solve_pangram_enum. fold t.
  rewrite no_letters_no_children; [reflexivity|].
  destruct (letter_order (build_trie self t exclude_words exclude_pos))
    as [|l order] eqn:E; [reflexivity|].
  assert (Hl : In l (letter_order (build_trie self t exclude_words exclude_pos)))
    by (rewrite E; now left).
  apply in_letter_order in Hl as (w & Hw & Hlw).
  rewrite (Hpool w Hw) in Hlw. destruct Hlw.
Qed.

Lemma no_usable_word_no_solution_witness :
  solve_pangram (solver_of_words [[97%N]; [97%N; 98%N]]) (Some []) None
    None None = Some [].
Proof.
  apply (@no_usable_word_no_solution
           (solver_of_words [[97%N]; [97%N; 98%N]]) (Some []) None None None).
  intros w Hw. vm_compute in Hw. destruct Hw.
Defined.

(** X13. A target letter that occurs in no word of the filtered pool
    makes the search fruitless: [solve_pangram] returns the empty list,
    whatever the cap. *)
Theorem uncovered_letter_no_solution
  (self : PangramSolver) (target_letters : option word) (K : option Z)
  (exclude_words : option (list word)) (exclude_pos : option (list tag))
  (l : letter) :
  let t := target_or_default target_letters in
  In l t ->
  (forall w, In w (filtered_words self t exclude_words exclude_pos) -> ~ In l w) ->
  solve_pangram self target_letters K exclude_words exclude_pos = Some [].
Proof.
  intros t Hl Hpool.
  destruct (solve_pangram_sound self target_letters K exclude_words exclude_pos)
    as (sols & E & Hall).
  rewrite E. f_equal.
  destruct sols as [|S sols]; [reflexivity|]. exfalso.
  inversion Hall as [|? ? (ks & _ & Hc & Hg) _]; subst.
  specialize (Hc l). fold t in Hc. rewrite counter_get_of in Hc. simpl in Hc.
  assert (Ht : count_occ letter_eq_dec t l > 0) by now apply count_occ_In.
  assert (Hin : In l (concat ks)) by (apply (count_occ_In letter_eq_dec); lia).
  apply in_concat in Hin as (k & Hk & Hlk).
  rewrite Forall_forall in Hg. specialize (Hg k Hk).
  destruct (group_of (build_trie self t exclude_words exclude_pos) k)
    as [|w ws] eqn:Eg; [apply Hg; exact Eg|].
  assert (Hw : In w (group_of (build_trie self t exclude_words exclude_pos) k))
    by (rewrite Eg; now left).
  apply group_word_in_pool in Hw as [Hw Hkey].
  apply (Hpool w Hw).
  eapply Permutation_in; [apply rarity_key_perm|]. rewrite Hkey. exact Hlk.
Qed.

Lemma uncovered_letter_no_solution_witness :
  solve_pangram (solver_of_words [[97%N]; [97%N; 98%N]])
    (Some [97%N; 99%N]) None None None = Some [].
Proof.
  apply (@uncovered_letter_no_solution
           (solver_of_words [[97%N]; [97%N; 98%N]]) (Some [97%N; 99%N])
           None None None 99%N).
  - simpl. auto.
  - intros w Hw. vm_compute in Hw. destruct Hw as [<-|[]].
    intros [H|[]]. discriminate.
Defined.

(** ** The word lists of [extract-wordlists.py] *)

Lemma split_lstrip s : split (lstrip s) = split s.
Proof.
  unfold split. induction s as [|c s IH]; simpl; [reflexivity|].
  destruct (isspace c) eqn:Hc; [exact IH|].
  simpl. now rewrite Hc.
Qed.

Lemma lstrip_decomp s :
  exists sp, s = sp ++ lstrip s /\ forallb isspace sp = true.
Proof.
  induction s as [|c s (sp & E & Hsp)]; [exists []; auto|]. simpl.
  destruct (isspace c) eqn:Hc.
  - exists (c :: sp). simpl. rewrite Hc, Hsp. split; [now f_equal | reflexivity].
  - exists []. auto.
Qed.

Lemma split_from_spaces sp :
  forallb isspace sp = true ->
  forall tok, split_from tok sp = split_from tok [].
Proof.
  induction sp as [|c sp IH]; intros H tok; [reflexivity|].
  simpl in H. apply andb_true_iff in H as [Hc Hsp]. simpl. rewrite Hc.
  destruct tok; rewrite (IH Hsp); reflexivity.
Qed.

Lemma split_from_trailing s sp :
  forallb isspace sp = true ->
  forall tok, split_from tok (s ++ sp) = split_from tok s.
Proof.
  intros Hsp. induction s as [|c s IH]; intros tok; simpl.
  - now apply split_from_spaces.
  - destruct (isspace c); [destruct tok|]; now rewrite IH.
Qed.

(** [s.strip().split()] is [s.split()]. *)
Lemma split_strip s : split (strip s) = split s.
Proof.
  rewrite <- (split_lstrip s).
  destruct (lstrip_decomp (rev (lstrip s))) as (sp & E & Hsp).
  assert (E' : lstrip s = strip s ++ rev sp).
  { unfold strip. rewrite <- rev_app_distr, <- E. now rewrite rev_involutive. }
  rewrite E'. unfold split. symmetry. apply split_from_trailing.
  rewrite forallb_forall in *. intros x Hx. apply Hsp.
  now rewrite <- in_rev in Hx.
Qed.

Lemma split_token t w :
  In w (split t) ->
  w <> [] /\ forallb (fun c => negb (isspace c)) w = true.
Proof.
  intros Hw.
  pose proof (@split_from_tokens t [] eq_refl) as H.
  rewrite Forall_forall in H. now apply H.
Qed.

Lemma add_nonempty_fold xs : forall s,
  NoDup s ->
  NoDup (fold_left (fun words w =>
                      match w with
                      | [] => words
                      | _ :: _ => set_add_word w words
                      end) xs s)
  /\ forall w,
       In w (fold_left (fun words w =>
                          match w with
                          | [] => words
                          | _ :: _ => set_add_word w words
                          end) xs s)
       <-> In w s \/ (In w xs /\ w <> []).
Proof.
  induction xs as [|x xs IH]; intros s Hs; simpl.
  - split; [exact Hs|]. intros w. tauto.
  - destruct x as [|c x].
    + destruct (IH s Hs) as [Hnd Hin]. split; [exact Hnd|].
      intros w. rewrite Hin. split.
      * intros [H|[H Hne]]; auto.
      * intros [H|[[H|H] Hne]]; auto. congruence.
    + destruct (IH (set_add_word (c :: x) s)) as [Hnd Hin];
        [now apply NoDup_set_add_word|].
      split; [exact Hnd|]. intros w. rewrite Hin, in_set_add_word_iff. split.
      * intros [[->|H]|[H Hne]]; auto. right. split; [now left | discriminate].
      * intros [H|[[<-|H] Hne]]; auto.
Qed.

Lemma add_tokens_spec s t :
  NoDup s ->
  NoDup (add_tokens s (strip t))
  /\ forall w, In w (add_tokens s (strip t)) <-> In w s \/ In w (split t).
Proof.
  intros Hs. unfold add_tokens.
  destruct (strip t) as [|c text] eqn:Es.
  - split; [exact Hs|]. intros w. rewrite <- split_strip, Es. simpl. tauto.
  - rewrite <- Es, split_strip.
    destruct (@add_nonempty_fold (split t) s Hs) as [Hnd Hin].
    split; [exact Hnd|]. intros w. rewrite Hin. split.
    + intros [H|[H _]]; auto.
    + intros [H|H]; auto. right. split; [exact H|].
      now apply split_token in H.
Qed.

Lemma field_string_tokens f w :
  In w (split (field_string f)) <-> exists t, f = Str t /\ In w (split t).
Proof.
  destruct f as [|t|]; simpl.
  - split; [intros [] | intros (t & [=] & _)].
  - split; [eauto | intros (t' & [= <-] & H); exact H].
  - split; [intros [] | intros (t & [=] & _)].
Qed.

Lemma extract_entry_shavian acc e acc' :
  extract_entry acc (Some e) = Ok acc' ->
  shavian_words acc'
  = add_tokens (shavian_words acc) (strip (field_string (entry_Shaw e))).
Proof.
  unfold extract_entry, field_text, bind.
  destruct (entry_Shaw e), (entry_Latn e); cbv beta iota;
    try discriminate; now intros [= <-].
Qed.

Lemma extract_entry_roman acc e acc' :
  extract_entry acc (Some e) = Ok acc' ->
  roman_words acc'
  = add_tokens (roman_words acc) (strip (field_string (entry_Latn e))).
Proof.
  unfold extract_entry, field_text, bind.
  destruct (entry_Shaw e), (entry_Latn e); cbv beta iota;
    try discriminate; now intros [= <-].
Qed.

Lemma extract_entry_returns acc ev :
  lex_entry_ok ev = true <-> exists acc', extract_entry acc ev = Ok acc'.
Proof.
  unfold extract_entry, field_text, bind, lex_entry_ok, field_is_text.
  destruct ev as [e|].
  - destruct (entry_Shaw e), (entry_Latn e); cbv beta iota; simpl;
      (split; [try discriminate; eauto | try (intros (acc' & H); discriminate); auto]).
  - split; [discriminate | intros (acc' & H); discriminate].
Qed.

Lemma StronglySorted_NoDup_strict {A} (R : A -> A -> Prop) l :
  StronglySorted R l -> NoDup l ->
  StronglySorted (fun a b => R a b /\ a <> b) l.
Proof.
  induction 1 as [|x l Hs IH Hx]; intros Hnd; constructor;
    inversion Hnd; subst; auto.
  rewrite Forall_forall in *. intros y Hy. split; auto.
  intros ->. contradiction.
Qed.

Lemma sorted_strictly ws : NoDup ws -> strictly_sorted (sorted str_leb ws).
Proof.
  intros Hnd. apply StronglySorted_NoDup_strict.
  - apply sorted_sorted; [apply str_leb_total | apply str_leb_trans].
  - eapply Permutation_NoDup; [symmetry; apply sorted_perm | exact Hnd].
Qed.

Lemma split_from_token w :
  forallb (fun c => negb (isspace c)) w = true ->
  forall tok s, split_from tok (w ++ s) = split_from (tok ++ w) s.
Proof.
  induction w as [|c w IH]; intros H tok s; simpl.
  - now rewrite app_nil_r.
  - simpl in H. apply andb_true_iff in H as [Hc Hw].
    apply negb_true_iff in Hc. rewrite Hc, (IH Hw), <- app_assoc.
    reflexivity.
Qed.

(** Joining words with newlines and splitting again gives the words. *)
Lemma split_join ws :
  Forall (fun w => w <> [] /\ forallb (fun c => negb (isspace c)) w = true) ws ->
  split (join [10%N] ws) = ws.
Proof.
  unfold split. induction 1 as [|w ws [Hne Hw] Hws IH]; [reflexivity|].
  destruct ws as [|w' ws].
  - cbn [join]. rewrite <- (app_nil_r w) at 1.
    rewrite (split_from_token w Hw). cbn [app split_from].
    destruct w; [congruence | reflexivity].
  - change (join [10%N] (w :: w' :: ws))
      with (w ++ 10%N :: join [10%N] (w' :: ws)).
    rewrite (split_from_token w Hw). cbn [app split_from].
    change (isspace 10%N) with true. cbv iota.
    destruct w; [congruence|]. f_equal. exact IH.
Qed.

Section ExtractField.
Variable proj : wordlists -> list word.
Variable field : lex_entry -> json_field.
Hypothesis proj_step : forall acc e acc',
  extract_entry acc (Some e) = Ok acc' ->
  proj acc' = add_tokens (proj acc) (strip (field_string (field e))).

Lemma extract_entry_list_spec l : forall acc acc',
  for_each l extract_entry acc = Ok acc' ->
  NoDup (proj acc) ->
  NoDup (proj acc')
  /\ forall w, In w (proj acc')
               <-> In w (proj acc)
                   \/ exists e t, In (Some e) l /\ field e = Str t
                                  /\ In w (split t).
Proof.
  induction l as [|ev l IH]; intros acc acc'; cbn [for_each].
  - intros [= <-] Hnd. split; [exact Hnd|]. intros w. split; [auto|].
    intros [H|(e & t & [] & _)]. exact H.
  - unfold bind at 1.
    destruct (extract_entry acc ev) as [acc1|] eqn:E1; [|discriminate].
    destruct ev as [e|]; [|now simpl in E1].
    intros H Hnd.
    destruct (@add_tokens_spec (proj acc) (field_string (field e)) Hnd)
      as [Hnd1 Hin1].
    rewrite <- (proj_step _ _ E1) in Hnd1, Hin1.
    destruct (IH _ _ H Hnd1) as [Hnd' Hin'].
    split; [exact Hnd'|]. intros w.
    rewrite (Hin' w), (Hin1 w), field_string_tokens. split.
    + intros [[H0|(t & Hf & Hw)]|(e' & t & Hl & Hf & Hw)].
      * now left.
      * right. exists e, t. simpl. auto.
      * right. exists e', t. simpl. auto.
    + intros [H0|(e' & t & [Heq|Hl] & Hf & Hw)].
      * left. now left.
      * injection Heq as <-. left. right. eauto.
      * right. eauto.
Qed.

Lemma extract_items_spec items : forall acc acc',
  for_each items extract_entries acc = Ok acc' ->
  NoDup (proj acc) ->
  NoDup (proj acc')
  /\ forall w, In w (proj acc')
               <-> In w (proj acc) \/ token_of field items w.
Proof.
  induction items as [|kv items IH]; intros acc acc'; cbn [for_each].
  - intros [= <-] Hnd. split; [exact Hnd|]. intros w. split; [auto|].
    intros [H|(kv & l & e & t & [] & _)]. exact H.
  - unfold bind at 1. unfold extract_entries at 1.
    destruct (snd kv) as [l|] eqn:Ekv; [|discriminate].
    destruct (for_each l extract_entry acc) as [acc1|] eqn:E1; [|discriminate].
    intros H Hnd.
    destruct (extract_entry_list_spec l E1 Hnd) as [Hnd1 Hin1].
    destruct (IH _ _ H Hnd1) as [Hnd' Hin'].
    split; [exact Hnd'|]. intros w. rewrite (Hin' w), (Hin1 w). split.
    + intros [[H0|(e & t & Hl & Hf & Hw)]|(kv' & l' & e & t & Hkv & Hs & Hl & Hf & Hw)].
      * now left.
      * right. exists kv, l, e, t. simpl. auto.
      * right. exists kv', l', e, t. simpl. auto.
    + intros [H0|(kv' & l' & e & t & [Heq|Hkv] & Hs & Hl & Hf & Hw)].
      * left. now left.
      * subst kv'. rewrite Ekv in Hs. injection Hs as <-.
        left. right. eauto.
      * right. exists kv', l', e, t. auto.
Qed.

(** The words collected from a whole document. *)
Lemma collected_words items acc :
  for_each items extract_entries (mkWordlists [] []) = Ok acc ->
  proj (mkWordlists [] []) = [] ->
  NoDup (proj acc) /\ forall w, In w (proj acc) <-> token_of field items w.
Proof.
  intros E Hnil.
  destruct (extract_items_spec items E) as [Hnd Hin].
  - rewrite Hnil. constructor.
  - split; [exact Hnd|]. intros w. rewrite (Hin w), Hnil. simpl. tauto.
Qed.
End ExtractField.

Lemma extract_entry_list_returns l : forall acc,
  forallb lex_entry_ok l = true
  <-> exists acc', for_each l extract_entry acc = Ok acc'.
Proof.
  induction l as [|ev l IH]; intros acc; cbn [for_each forallb].
  - split; eauto.
  - unfold bind at 1. rewrite andb_true_iff, (extract_entry_returns acc ev).
    split.
    + intros [(acc1 & ->) Hl]. now apply IH.
    + destruct (extract_entry acc ev) as [acc1|];
        [|intros (acc' & H); discriminate].
      intros H. split; [eauto|]. apply (proj2 (IH acc1)). exact H.
Qed.

Lemma extract_items_returns items : forall acc,
  forallb lex_entries_ok items = true
  <-> exists acc', for_each items extract_entries acc = Ok acc'.
Proof.
  induction items as [|kv items IH]; intros acc; cbn [for_each forallb].
  - split; eauto.
  - unfold bind at 1. unfold extract_entries at 1. unfold lex_entries_ok at 1.
    rewrite andb_true_iff.
    destruct (snd kv) as [l|].
    + rewrite (extract_entry_list_returns l acc). split.
      * intros [(acc1 & ->) Hl]. now apply IH.
      * destruct (for_each l extract_entry acc) as [acc1|];
          [|intros (acc' & H); discriminate].
        intros H. split; [eauto|]. apply (proj2 (IH acc1)). exact H.
    + split; [intros [H _]; discriminate | intros (acc' & H); discriminate].
Qed.

(** *** What can be written *)

Lemma surrogate_not_space c : is_surrogate c = true -> isspace c = false.
Proof.
  unfold is_surrogate. intros H. apply andb_true_iff in H as [H _].
  apply N.leb_le in H. unfold isspace.
  repeat match goal with
         | |- context [(c <=? ?k)%N] =>
             replace (c <=? k)%N with false by (symmetry; apply N.leb_gt; lia)
         | |- context [(c =? ?k)%N] =>
             replace (c =? k)%N with false by (symmetry; apply N.eqb_neq; lia)
         end.
  now rewrite ?andb_false_r.
Qed.

Lemma encodable_join ws : encodable (join [10%N] ws) = forallb encodable ws.
Proof.
  induction ws as [|w ws IH]; [reflexivity|].
  destruct ws as [|w' ws].
  - simpl. now rewrite andb_true_r.
  - change (join [10%N] (w :: w' :: ws))
      with (w ++ 10%N :: join [10%N] (w' :: ws)).
    unfold encodable at 1. rewrite forallb_app. cbn [forallb].
    change (negb (is_surrogate 10%N)) with true. cbn [andb].
    fold (encodable w). fold (encodable (join [10%N] (w' :: ws))).
    now rewrite IH.
Qed.

(** A string can be encoded exactly when each of its words can. *)
Lemma encodable_tokens t :
  encodable t = true <-> forall w, In w (split t) -> encodable w = true.
Proof.
  unfold encodable. split.
  - intros H w Hw. rewrite forallb_forall in *. intros c Hc.
    destruct (@split_from_in t [] w c Hw Hc) as [[]|Hin]. auto.
  - intros H. apply forallb_forall. intros c Hc.
    destruct (is_surrogate c) eqn:Es; [exfalso | reflexivity].
    assert (Hin : In c (concat (split t))).
    { unfold split. rewrite concat_split_from. simpl.
      apply filter_In. split; [exact Hc|].
      now rewrite (surrogate_not_space c Es). }
    apply in_concat in Hin as (w & Hw & Hcw).
    specialize (H w Hw). rewrite forallb_forall in H.
    specialize (H c Hcw). rewrite Es in H. discriminate.
Qed.

Lemma lex_entries_encodable_spec items :
  forallb lex_entries_encodable items = true
  <-> forall kv l e,
        In kv items -> snd kv = LexIterable l -> In (Some e) l ->
        encodable (field_string (entry_Shaw e)) = true
        /\ encodable (field_string (entry_Latn e)) = true.
Proof.
  rewrite forallb_forall. split.
  - intros H kv l e Hkv Hs He. specialize (H kv Hkv).
    unfold lex_entries_encodable in H. rewrite Hs in H.
    rewrite forallb_forall in H. specialize (H _ He).
    now apply andb_true_iff in H.
  - intros H kv Hkv. unfold lex_entries_encodable.
    destruct (snd kv) as [l|] eqn:Hs; [|reflexivity].
    apply forallb_forall. intros [e|] He; [|reflexivity].
    apply andb_true_iff. now apply (H kv l e).
Qed.

Section FieldEncodable.
Variable field : lex_entry -> json_field.
Variable items : list (word * lex_entries).
Variable ws : list word.
Hypothesis ws_tokens : forall w, In w ws <-> token_of field items w.

Lemma collected_encodable :
  encodable (join [10%N] (sorted str_leb ws)) = true
  <-> forall kv l e,
        In kv items -> snd kv = LexIterable l -> In (Some e) l ->
        encodable (field_string (field e)) = true.
Proof.
  rewrite encodable_join, forallb_forall. split.
  - intros H kv l e Hkv Hs He.
    destruct (field e) as [|t|] eqn:Ef; try reflexivity.
    apply encodable_tokens. intros w Hw. apply H.
    eapply Permutation_in; [symmetry; apply sorted_perm|].
    apply ws_tokens. exists kv, l, e, t. auto.
  - intros H w Hw.
    eapply Permutation_in in Hw; [|apply sorted_perm].
    apply ws_tokens in Hw as (kv & l & e & t & Hkv & Hs & He & Ef & Hw).
    specialize (H kv l e Hkv Hs He). rewrite Ef in H.
    now apply (proj1 (encodable_tokens t) H).
Qed.

(** Written and split again, the list is the same text. *)
Lemma collected_split_back :
  join [10%N] (split (join [10%N] (sorted str_leb ws)))
  = join [10%N] (sorted str_leb ws).
Proof.
  rewrite split_join; [reflexivity|].
  apply Forall_forall. intros w Hw.
  eapply Permutation_in in Hw; [|apply sorted_perm].
  apply ws_tokens in Hw as (kv & l & e & t & _ & _ & _ & _ & Hw).
  eapply split_token, Hw.
Qed.
End FieldEncodable.

Lemma written_texts_encodable items acc :
  for_each items extract_entries (mkWordlists [] []) = Ok acc ->
  (encodable (join [10%N] (sorted str_leb (shavian_words acc))) = true
   /\ encodable (join [10%N] (sorted str_leb (roman_words acc))) = true)
  <-> forallb lex_entries_encodable items = true.
Proof.
  intros E.
  destruct (@collected_words shavian_words entry_Shaw (@extract_entry_shavian)
              items acc E eq_refl) as [_ Hsh].
  destruct (@collected_words roman_words entry_Latn (@extract_entry_roman)
              items acc E eq_refl) as [_ Hro].
  rewrite (@collected_encodable entry_Shaw items (shavian_words acc) Hsh),
    (@collected_encodable entry_Latn items (roman_words acc) Hro),
    lex_entries_encodable_spec.
  split.
  - intros [H1 H2] kv l e Hkv Hs He. split; eauto.
  - intros H. split; intros kv l e Hkv Hs He; now apply (H kv l e).
Qed.

(** The two writes at the end of [extract_wordlists]. *)
Lemma extract_wordlists_run src can_open acc :
  collect_words src = Ok acc ->
  (raised (extract_wordlists src can_open) = None
   <-> can_open ShavianWordsTxt = true /\ can_open RomanWordsTxt = true
       /\ encodable (join [10%N] (sorted str_leb (shavian_words acc))) = true
       /\ encodable (join [10%N] (sorted str_leb (roman_words acc))) = true)
  /\ (raised (extract_wordlists src can_open) = None ->
      extract_wordlists src can_open
      = mkRun [(ShavianWordsTxt, join [10%N] (sorted str_leb (shavian_words acc)));
               (RomanWordsTxt, join [10%N] (sorted str_leb (roman_words acc)))]
          None).
Proof.
  intros E. unfold extract_wordlists. rewrite E.
  set (sh := join [10%N] (sorted str_leb (shavian_words acc))).
  set (ro := join [10%N] (sorted str_leb (roman_words acc))).
  unfold write_text. cbn [raised files app].
  destruct (can_open ShavianWordsTxt), (encodable sh); cbn [raised files app];
    destruct (can_open RomanWordsTxt), (encodable ro); cbn [raised files app];
    (split; [split; [try discriminate; auto | intros (? & ? & ? & ?);
                                              try discriminate; auto]
            | try discriminate; auto]).
Qed.

Lemma write_text_files can_open name text run n t :
  In (n, t) (files (write_text can_open name text run)) ->
  In (n, t) (files run) \/ t = text \/ t = [].
Proof.
  unfold write_text.
  destruct (raised run); [auto|].
  destruct (can_open name); [|auto].
  destruct (encodable text); cbn [files]; rewrite in_app_iff;
    (intros [H|[[= _ <-]|[]]]; auto).
Qed.

(** X14. On a document whose values are iterables of objects, with
    [Shaw] and [Latn] fields that are strings when present and hold no
    surrogate code point, and with both output files open to writing,
    [extract_wordlists] ends without exception having written the two
    files, each a newline-joined list: the list is in strictly ascending
    order (sorted, no word twice) and holds exactly the
    whitespace-separated words of the [Shaw] fields, respectively of the
    [Latn] fields, of the entries. *)
Theorem extract_wordlists_lists
  (items : list (word * lex_entries)) (can_open : file_name -> bool) :
  forallb lex_entries_ok items = true ->
  forallb lex_entries_encodable items = true ->
  can_open ShavianWordsTxt = true ->
  can_open RomanWordsTxt = true ->
  exists sh ro,
    extract_wordlists (LexParsed (Some items)) can_open
    = mkRun [(ShavianWordsTxt, join [10%N] sh); (RomanWordsTxt, join [10%N] ro)]
        None
    /\ strictly_sorted sh /\ strictly_sorted ro
    /\ (forall w, In w sh <-> token_of entry_Shaw items w)
    /\ (forall w, In w ro <-> token_of entry_Latn items w).
Proof.
  intros Hshape Henc Hsh Hro.
  destruct (proj1 (extract_items_returns items (mkWordlists [] [])) Hshape)
    as (acc & E).
  exists (sorted str_leb (shavian_words acc)), (sorted str_leb (roman_words acc)).
  destruct (@collected_words shavian_words entry_Shaw (@extract_entry_shavian)
              items acc E eq_refl) as [Hnd1 Hin1].
  destruct (@collected_words roman_words entry_Latn (@extract_entry_roman)
              items acc E eq_refl) as [Hnd2 Hin2].
  destruct (proj2 (written_texts_encodable items E) Henc) as [He1 He2].
  destruct (@extract_wordlists_run (LexParsed (Some items)) can_open acc E)
    as [Hiff Hrun].
  split; [|split; [|split; [|split]]].
  - apply Hrun, Hiff. auto.
  - now apply sorted_strictly.
  - now apply sorted_strictly.
  - intros w. rewrite <- Hin1. split; intros H.
    + eapply Permutation_in; [apply sorted_perm | exact H].
    + eapply Permutation_in; [symmetry; apply sorted_perm | exact H].
  - intros w. rewrite <- Hin2. split; intros H.
    + eapply Permutation_in; [apply sorted_perm | exact H].
    + eapply Permutation_in; [symmetry; apply sorted_perm | exact H].
Qed.

Lemma extract_wordlists_lists_witness :
  exists sh ro,
    extract_wordlists
      (LexParsed
         (Some [([107%N],
                 LexIterable
                   [Some (mkLexEntry (Str [98%N; 32%N; 97%N]) (Str [120%N]));
                    Some (mkLexEntry (Str [97%N]) Missing)])]))
      (fun _ => true)
    = mkRun [(ShavianWordsTxt, join [10%N] sh); (RomanWordsTxt, join [10%N] ro)]
        None
    /\ strictly_sorted sh /\ strictly_sorted ro
    /\ (forall w, In w sh
                  <-> token_of entry_Shaw
                        [([107%N],
                          LexIterable
                            [Some (mkLexEntry (Str [98%N; 32%N; 97%N])
                                     (Str [120%N]));
                             Some (mkLexEntry (Str [97%N]) Missing)])] w)
    /\ (forall w, In w ro
                  <-> token_of entry_Latn
                        [([107%N],
                          LexIterable
                            [Some (mkLexEntry (Str [98%N; 32%N; 97%N])
                                     (Str [120%N]));
                             Some (mkLexEntry (Str [97%N]) Missing)])] w).
Proof.
  apply (@extract_wordlists_lists
           [([107%N],
             LexIterable
               [Some (mkLexEntry (Str [98%N; 32%N; 97%N]) (Str [120%N]));
                Some (mkLexEntry (Str [97%N]) Missing)])]
           (fun _ => true)); reflexivity.
Defined.

(** X15. Each file [extract_wordlists] writes, in a run that ends well
    or not, is made of non-empty words free of whitespace, separated by
    single newlines, with no newline at the end: splitting its text at
    whitespace and joining the words with newlines gives the text back. *)
Theorem extract_wordlists_files_split_back
  (src : lex_source) (can_open : file_name -> bool)
  (name : file_name) (text : word) :
  In (name, text) (files (extract_wordlists src can_open)) ->
  join [10%N] (split text) = text.
Proof.
  unfold extract_wordlists.
  destruct (collect_words src) as [acc|e] eqn:E; [|intros []].
  assert (Hitems : exists items,
             for_each items extract_entries (mkWordlists [] []) = Ok acc).
  { destruct src as [| |[items|]]; try discriminate. eauto. }
  destruct Hitems as (items & E').
  destruct (@collected_words shavian_words entry_Shaw (@extract_entry_shavian)
              items acc E' eq_refl) as [_ Hin1].
  destruct (@collected_words roman_words entry_Latn (@extract_entry_roman)
              items acc E' eq_refl) as [_ Hin2].
  cbv zeta. intros H.
  apply write_text_files in H as [H|[->| ->]].
  - apply write_text_files in H as [[]|[->| ->]].
    + apply (@collected_split_back entry_Shaw items _ Hin1).
    + reflexivity.
  - apply (@collected_split_back entry_Latn items _ Hin2).
  - reflexivity.
Qed.

Lemma extract_wordlists_files_split_back_witness :
  join [10%N] (split [97%N; 10%N; 98%N]) = [97%N; 10%N; 98%N].
Proof.
  apply (@extract_wordlists_files_split_back
           (LexParsed
              (Some [([107%N],
                      LexIterable
                        [Some (mkLexEntry (Str [98%N; 32%N; 97%N])
                                 (Str [120%N]));
                         Some (mkLexEntry (Str [97%N]) Missing)])]))
           (fun _ => true) ShavianWordsTxt [97%N; 10%N; 98%N]).
  vm_compute. auto.
Defined.

(** X16. [extract_wordlists] ends without exception exactly when the
    file is read and parsed to an object whose values are all iterables of
    objects with [Shaw] and [Latn] fields that are strings when present,
    none of these strings holds a surrogate code point, and both output
    files can be opened for writing. *)
Theorem extract_wordlists_succeeds_iff
  (src : lex_source) (can_open : file_name -> bool) :
  raised (extract_wordlists src can_open) = None
  <-> exists items,
        src = LexParsed (Some items)
        /\ forallb lex_entries_ok items = true
        /\ forallb lex_entries_encodable items = true
        /\ can_open ShavianWordsTxt = true
        /\ can_open RomanWordsTxt = true.
Proof.
  split.
  - intros H.
    destruct src as [| |[items|]]; try discriminate.
    destruct (collect_words (LexParsed (Some items))) as [acc|e] eqn:E.
    + destruct (@extract_wordlists_run _ can_open acc E) as [Hiff _].
      destruct (proj1 Hiff H) as (Hsh & Hro & He1 & He2).
      exists items. cbn [collect_words] in E. split; [reflexivity|].
      split; [apply (extract_items_returns items (mkWordlists [] [])); eauto|].
      split; [apply (written_texts_encodable items E); auto|]. auto.
    + unfold extract_wordlists in H. rewrite E in H. discriminate.
  - intros (items & -> & Hshape & Henc & Hsh & Hro).
    destruct (proj1 (extract_items_returns items (mkWordlists [] [])) Hshape)
      as (acc & E).
    destruct (proj2 (written_texts_encodable items E) Henc) as [He1 He2].
    apply (@extract_wordlists_run (LexParsed (Some items)) can_open acc E).
    auto.
Qed.
